(** * urbs: the model-formulation engine of [urbs.py], embedded in Rocq

    [create_model] assembles a linear program from relational input tables:
    index sets, decision variables, one constraint per applicable index tuple
    and an objective.  The embedding follows the Python source:

    - Python numbers are rationals ([Q]); arithmetic on them is exact, so
      rounding of binary floating point is outside the embedding.  Statements
      about numbers use [==] ([Qeq]).
    - A Python exception is a [Raise] in the error monad [result].
    - A Pyomo expression is a syntax tree [expr] built by the overloaded
      operators [+ - * /] and unary minus; a constraint rule returns a
      relation between expressions, a range triple, or [Constraint.Skip].
    - Indexing a Pyomo variable with a key outside its index set raises
      [KeyError]; so does a pandas [.loc] lookup of a missing label.
    - What Pyomo does with a relation after its rule has returned it
      (canonical form, variable bounds, the check that a relation mentions a
      variable at all) happens inside the library and is not part of the
      embedding; neither are the check that the elements of a set lie within
      its declared superset and the removal of repeated elements from a set.
      A build is [Ok] when no statement of [create_model] raised; the
      properties below are about the models that are returned, and those that
      count or sum over timesteps assume a horizon without repetitions.
    - A division of an expression by a number that is zero ends the build
      here.  With a cell of a data frame as divisor the program goes on with
      an infinite coefficient, a case the properties leave aside. *)

From Stdlib Require Import List String Ascii ZArith QArith Qpower Qabs Bool Lia Lqa.
Import ListNotations.

Local Open Scope string_scope.
Local Open Scope Z_scope.
Local Open Scope Q_scope.

(** ** Exceptions and the error monad *)

Inductive exn : Type :=
| KeyError
| IndexError
| ZeroDivisionError
| NotImplementedError
| TypeError.

Inductive result (A : Type) : Type :=
| Ok (a : A)
| Raise (e : exn).

Arguments Ok {A} a.
Arguments Raise {A} e.

Definition bind {A B : Type} (c : result A) (k : A -> result B) : result B :=
  match c with
  | Ok a => k a
  | Raise e => Raise e
  end.

Notation "x <- c ;; k" := (bind c (fun x => k))
  (at level 61, c at next level, right associativity).

(** [for x in xs: acc = body(acc, x)], where the body may raise. *)
Fixpoint foldM {A B : Type} (body : B -> A -> result B) (xs : list A) (acc : B)
  : result B :=
  match xs with
  | [] => Ok acc
  | x :: rest => acc' <- body acc x ;; foldM body rest acc'
  end.

(** A comprehension [f(x) for x in xs], where [f] may raise. *)
Fixpoint mapM {A B : Type} (f : A -> result B) (xs : list A) : result (list B) :=
  match xs with
  | [] => Ok []
  | x :: rest => y <- f x ;; ys <- mapM f rest ;; Ok (y :: ys)
  end.

(** Statements executed in order; the first exception aborts the rest. *)
Fixpoint sequence {A : Type} (cs : list (result A)) : result (list A) :=
  match cs with
  | [] => Ok []
  | c :: rest => a <- c ;; r <- sequence rest ;; Ok (a :: r)
  end.

(** ** Annuity factor *)



(** ** Input tables *)

(** Index tuples of the four entity tables, in the column order of
    [read_excel]: [(Sit, Com, Type)], [(Sit, Pro, CoIn, CoOut)],
    [(SitIn, SitOut, Tra, Com)] and [(Sit, Sto, Com)]. *)
Definition com_tuple : Type := string * string * string.
Definition pro_tuple : Type := string * string * string * string.
Definition tra_tuple : Type := string * string * string * string.
Definition sto_tuple : Type := string * string * string.

(** The attribute columns that [create_model] reads. *)
Record commodity_row : Type := {
  com_max : Q;
  com_maxperstep : Q;
  com_price : Q
}.

Record process_row : Type := {
  pro_eff : Q;
  pro_co2 : Q;
  pro_cap_lo : Q;
  pro_cap_up : Q;
  pro_inst_cap : Q;
  pro_inv_cost : Q;
  pro_fix_cost : Q;
  pro_var_cost : Q;
  pro_annuity_factor : Q
}.

Record transmission_row : Type := {
  tra_eff : Q;
  tra_cap_lo : Q;
  tra_cap_up : Q;
  tra_inst_cap : Q;
  tra_inv_cost : Q;
  tra_fix_cost : Q;
  tra_var_cost : Q;
  tra_annuity_factor : Q
}.

Record storage_row : Type := {
  sto_eff_in : Q;
  sto_eff_out : Q;
  sto_cap_lo_p : Q;
  sto_cap_up_p : Q;
  sto_cap_lo_c : Q;
  sto_cap_up_c : Q;
  sto_inst_cap_p : Q;
  sto_inst_cap_c : Q;
  sto_init : Q;
  sto_inv_cost_p : Q;
  sto_inv_cost_c : Q;
  sto_fix_cost_p : Q;
  sto_fix_cost_c : Q;
  sto_var_cost_p : Q;
  sto_var_cost_c : Q;
  sto_annuity_factor : Q
}.

(** A time series frame: one row per timestep label, one column per
    [(Sit, Com)] pair. *)
Definition series : Type := list (Z * list (string * string * Q)).

(** The input dict of six DataFrames. *)
Record data : Type := {
  commodity : list (com_tuple * commodity_row);
  process : list (pro_tuple * process_row);
  transmission : list (tra_tuple * transmission_row);
  storage : list (sto_tuple * storage_row);
  demand : series;
  supim : series
}.

(** ** Keys, membership and label lookup *)

Definition eqb2 (a b : string * string) : bool :=
  let '(a1, a2) := a in
  let '(b1, b2) := b in
  (a1 =? b1)%string && (a2 =? b2)%string.

Definition eqb3 (a b : string * string * string) : bool :=
  let '(a1, a2, a3) := a in
  let '(b1, b2, b3) := b in
  (a1 =? b1)%string && (a2 =? b2)%string && (a3 =? b3)%string.

Definition eqb4 (a b : string * string * string * string) : bool :=
  let '(a1, a2, a3, a4) := a in
  let '(b1, b2, b3, b4) := b in
  (a1 =? b1)%string && (a2 =? b2)%string && (a3 =? b3)%string
  && (a4 =? b4)%string.

(** [k in s] *)
Definition mem {K : Type} (eqb : K -> K -> bool) (k : K) (s : list K) : bool :=
  existsb (eqb k) s.

Fixpoint assoc {K V : Type} (eqb : K -> K -> bool) (k : K) (l : list (K * V))
  : option V :=
  match l with
  | [] => None
  | (k', v) :: rest => if eqb k k' then Some v else assoc eqb k rest
  end.

(** [frame.loc[k]] *)
Definition loc {K V : Type} (eqb : K -> K -> bool) (frame : list (K * V)) (k : K)
  : result V :=
  match assoc eqb k frame with
  | Some v => Ok v
  | None => Raise KeyError
  end.

(** [frame.loc[t][sit, com]] *)
Definition series_loc (frame : series) (t : Z) (col : string * string) : result Q :=
  row <- loc Z.eqb frame t ;;
  loc eqb2 row col.

(** [index.get_level_values(...).unique()], and [set(...)] of names. *)
Definition unique (l : list string) : list string := nodup string_dec l.

(** ** Sets, parameters and tables of the model object *)

Record model : Type := {
  m_commodity : list (com_tuple * commodity_row);
  m_process : list (pro_tuple * process_row);
  m_transmission : list (tra_tuple * transmission_row);
  m_storage : list (sto_tuple * storage_row);
  m_demand : series;
  m_supim : series;
  m_t : list Z;
  m_tm : list Z;
  m_sit : list string;
  m_com : list string;
  m_com_type : list string;
  m_pro : list string;
  m_tra : list string;
  m_sto : list string;
  m_cost_type : list string;
  m_com_tuples : list com_tuple;
  m_pro_tuples : list pro_tuple;
  m_tra_tuples : list tra_tuple;
  m_sto_tuples : list sto_tuple;
  m_com_supim : list string;
  m_com_stock : list string;
  m_com_demand : list string;
  m_weight : Q;
  m_dt : Q
}.

(** ** Decision variables and expressions *)

Inductive var : Type :=
| cap_pro (p : pro_tuple)
| cap_pro_new (p : pro_tuple)
| cap_tra (t : tra_tuple)
| cap_tra_new (t : tra_tuple)
| cap_sto_c (s : sto_tuple)
| cap_sto_c_new (s : sto_tuple)
| cap_sto_p (s : sto_tuple)
| cap_sto_p_new (s : sto_tuple)
| co2_pro_out (tm : Z) (p : pro_tuple)
| costs (ct : string)
| e_co_stock (tm : Z) (c : com_tuple)
| e_pro_in (tm : Z) (p : pro_tuple)
| e_pro_out (tm : Z) (p : pro_tuple)
| e_tra_in (tm : Z) (t : tra_tuple)
| e_tra_out (tm : Z) (t : tra_tuple)
| e_sto_in (tm : Z) (s : sto_tuple)
| e_sto_out (tm : Z) (s : sto_tuple)
| e_sto_con (t : Z) (s : sto_tuple).

(** Every variable is declared [within=pyomo.NonNegativeReals]. *)
Inductive domain : Type :=
| NonNegativeReals.

Definition var_domain (v : var) : domain := NonNegativeReals.

(** The index of [v] belongs to the index set its [pyomo.Var] was declared
    over. *)
Definition valid_index (m : model) (v : var) : bool :=
  match v with
  | cap_pro p | cap_pro_new p => mem eqb4 p (m_pro_tuples m)
  | cap_tra t | cap_tra_new t => mem eqb4 t (m_tra_tuples m)
  | cap_sto_c s | cap_sto_c_new s | cap_sto_p s | cap_sto_p_new s =>
      mem eqb3 s (m_sto_tuples m)
  | co2_pro_out tm p | e_pro_in tm p | e_pro_out tm p =>
      mem Z.eqb tm (m_tm m) && mem eqb4 p (m_pro_tuples m)
  | costs ct => mem String.eqb ct (m_cost_type m)
  | e_co_stock tm c => mem Z.eqb tm (m_tm m) && mem eqb3 c (m_com_tuples m)
  | e_tra_in tm t | e_tra_out tm t =>
      mem Z.eqb tm (m_tm m) && mem eqb4 t (m_tra_tuples m)
  | e_sto_in tm s | e_sto_out tm s =>
      mem Z.eqb tm (m_tm m) && mem eqb3 s (m_sto_tuples m)
  | e_sto_con t s => mem Z.eqb t (m_t m) && mem eqb3 s (m_sto_tuples m)
  end.

(** The variables allocated by the [pyomo.Var] declarations, one per element
    of the declared index set. *)
Definition variables (m : model) : list var :=
  map cap_pro (m_pro_tuples m) ++ map cap_pro_new (m_pro_tuples m)
  ++ map cap_tra (m_tra_tuples m) ++ map cap_tra_new (m_tra_tuples m)
  ++ map cap_sto_c (m_sto_tuples m) ++ map cap_sto_c_new (m_sto_tuples m)
  ++ map cap_sto_p (m_sto_tuples m) ++ map cap_sto_p_new (m_sto_tuples m)
  ++ map (fun i => co2_pro_out (fst i) (snd i))
         (list_prod (m_tm m) (m_pro_tuples m))
  ++ map costs (m_cost_type m)
  ++ map (fun i => e_co_stock (fst i) (snd i))
         (list_prod (m_tm m) (m_com_tuples m))
  ++ map (fun i => e_pro_in (fst i) (snd i))
         (list_prod (m_tm m) (m_pro_tuples m))
  ++ map (fun i => e_pro_out (fst i) (snd i))
         (list_prod (m_tm m) (m_pro_tuples m))
  ++ map (fun i => e_tra_in (fst i) (snd i))
         (list_prod (m_tm m) (m_tra_tuples m))
  ++ map (fun i => e_tra_out (fst i) (snd i))
         (list_prod (m_tm m) (m_tra_tuples m))
  ++ map (fun i => e_sto_in (fst i) (snd i))
         (list_prod (m_tm m) (m_sto_tuples m))
  ++ map (fun i => e_sto_out (fst i) (snd i))
         (list_prod (m_tm m) (m_sto_tuples m))
  ++ map (fun i => e_sto_con (fst i) (snd i))
         (list_prod (m_t m) (m_sto_tuples m)).

Inductive expr : Type :=
| EConst (q : Q)
| EVar (v : var)
| EAdd (a b : expr)
| ESub (a b : expr)
| EMul (a b : expr)
| EDiv (a b : expr)
| ENeg (a : expr).

(** [m.x[index]] *)
Definition getitem (m : model) (v : var) : result expr :=
  if valid_index m v then Ok (EVar v) else Raise KeyError.

(** [e / q] for a number [q]: the expression generator refuses a zero
    divisor. *)
Definition pdiv (e : expr) (q : Q) : result expr :=
  if Qeq_bool q 0 then Raise ZeroDivisionError else Ok (EDiv e (EConst q)).

(** Python's [sum(...)]: starts from [0] and adds from the left. *)
Definition psum (terms : list expr) : expr :=
  fold_left EAdd terms (EConst 0).

(** The value of an expression under an assignment of the variables. *)
Fixpoint eval (rho : var -> Q) (e : expr) : Q :=
  match e with
  | EConst q => q
  | EVar v => rho v
  | EAdd a b => eval rho a + eval rho b
  | ESub a b => eval rho a - eval rho b
  | EMul a b => eval rho a * eval rho b
  | EDiv a b => eval rho a / eval rho b
  | ENeg a => - eval rho a
  end.

(** The variables an expression mentions, left to right. *)
Fixpoint vars (e : expr) : list var :=
  match e with
  | EConst _ => []
  | EVar v => [v]
  | EAdd a b | ESub a b | EMul a b | EDiv a b => vars a ++ vars b
  | ENeg a => vars a
  end.

(** What a rule returns: [lhs == rhs], [lhs <= rhs], [lhs >= rhs], or the
    triple [(lo, body, hi)]. *)
Inductive relexpr : Type :=
| REq (lhs rhs : expr)
| RLe (lhs rhs : expr)
| RGe (lhs rhs : expr)
| RRange (lo : Q) (body : expr) (hi : Q).

Inductive rule_result : Type :=
| Skip
| Constr (r : relexpr).

Definition rel_vars (r : relexpr) : list var :=
  match r with
  | REq a b | RLe a b | RGe a b => vars a ++ vars b
  | RRange _ e _ => vars e
  end.

(** An assignment satisfies a relation. *)
Definition holds (rho : var -> Q) (r : relexpr) : Prop :=
  match r with
  | REq a b => eval rho a == eval rho b
  | RLe a b => eval rho a <= eval rho b
  | RGe a b => eval rho b <= eval rho a
  | RRange lo e hi => lo <= eval rho e /\ eval rho e <= hi
  end.

(** ** Commodity balance *)

(** The bodies of the three loops of [commodity_balance]. *)
Definition balance_process (m : model) (tm : Z) (sit com : string)
  (balance : expr) (p : pro_tuple) : result expr :=
  let '(p0, _, p2, p3) := p in
  balance <- (if (p0 =? sit)%string && (p2 =? com)%string
              then v <- getitem m (e_pro_in tm p) ;; Ok (EAdd balance v)
              else Ok balance) ;;
  if (p0 =? sit)%string && (p3 =? com)%string
  then v <- getitem m (e_pro_out tm p) ;; Ok (ESub balance v)
  else Ok balance.

Definition balance_transmission (m : model) (tm : Z) (sit com : string)
  (balance : expr) (t : tra_tuple) : result expr :=
  let '(t0, t1, _, t3) := t in
  balance <- (if (t0 =? sit)%string && (t3 =? com)%string
              then v <- getitem m (e_tra_in tm t) ;; Ok (EAdd balance v)
              else Ok balance) ;;
  if (t1 =? sit)%string && (t3 =? com)%string
  then v <- getitem m (e_tra_out tm t) ;; Ok (ESub balance v)
  else Ok balance.

Definition balance_storage (m : model) (tm : Z) (sit com : string)
  (balance : expr) (s : sto_tuple) : result expr :=
  let '(s0, _, s2) := s in
  if (s0 =? sit)%string && (s2 =? com)%string
  then vin <- getitem m (e_sto_in tm s) ;;
       balance <- Ok (EAdd balance vin) ;;
       vout <- getitem m (e_sto_out tm s) ;;
       Ok (ESub balance vout)
  else Ok balance.

(** [commodity_balance(m, tm, sit, com)]: starting from [0], three loops
    over the process, transmission and storage tuples add consumed and
    subtract provided power. *)
Definition commodity_balance (m : model) (tm : Z) (sit com : string)
  : result expr :=
  balance <- foldM (balance_process m tm sit com) (m_pro_tuples m) (EConst 0) ;;
  balance <- foldM (balance_transmission m tm sit com) (m_tra_tuples m) balance ;;
  foldM (balance_storage m tm sit com) (m_sto_tuples m) balance.

(** ** Constraint rules: commodity *)

Definition res_demand_rule (m : model) (tm : Z) (c : com_tuple)
  : result rule_result :=
  let '(sit, com, com_type) := c in
  if negb (mem String.eqb com (m_com_demand m)) then Ok Skip
  else
    balance <- commodity_balance m tm sit com ;;
    d <- series_loc (m_demand m) tm (sit, com) ;;
    Ok (Constr (RGe (ENeg balance) (EConst d))).

Definition def_e_co_stock_rule (m : model) (tm : Z) (c : com_tuple)
  : result rule_result :=
  let '(sit, com, com_type) := c in
  if negb (mem String.eqb com (m_com_stock m)) then Ok Skip
  else
    v <- getitem m (e_co_stock tm (sit, com, com_type)) ;;
    balance <- commodity_balance m tm sit com ;;
    Ok (Constr (REq v balance)).

Definition res_stock_step_rule (m : model) (tm : Z) (c : com_tuple)
  : result rule_result :=
  let '(sit, com, com_type) := c in
  if negb (mem String.eqb com (m_com_stock m)) then Ok Skip
  else
    v <- getitem m (e_co_stock tm (sit, com, com_type)) ;;
    row <- loc eqb3 (m_commodity m) (sit, com, com_type) ;;
    Ok (Constr (RLe v (EConst (com_maxperstep row)))).

Definition res_stock_total_rule (m : model) (c : com_tuple)
  : result rule_result :=
  let '(sit, com, com_type) := c in
  if negb (mem String.eqb com (m_com_stock m)) then Ok Skip
  else
    total_consumption <- foldM (fun total_consumption tm =>
        v <- getitem m (e_co_stock tm (sit, com, com_type)) ;;
        Ok (EAdd total_consumption (EMul v (EConst (m_dt m)))))
      (m_tm m) (EConst 0) ;;
    let total_consumption := EMul total_consumption (EConst (m_weight m)) in
    row <- loc eqb3 (m_commodity m) (sit, com, com_type) ;;
    Ok (Constr (RLe total_consumption (EConst (com_max row)))).

(** ** Constraint rules: process *)

Definition def_process_capacity_rule (m : model) (p : pro_tuple)
  : result rule_result :=
  cap <- getitem m (cap_pro p) ;;
  new <- getitem m (cap_pro_new p) ;;
  row <- loc eqb4 (m_process m) p ;;
  Ok (Constr (REq cap (EAdd new (EConst (pro_inst_cap row))))).

Definition def_process_output_rule (m : model) (tm : Z) (p : pro_tuple)
  : result rule_result :=
  out <- getitem m (e_pro_out tm p) ;;
  inp <- getitem m (e_pro_in tm p) ;;
  row <- loc eqb4 (m_process m) p ;;
  Ok (Constr (REq out (EMul inp (EConst (pro_eff row))))).

Definition def_intermittent_supply_rule (m : model) (tm : Z) (p : pro_tuple)
  : result rule_result :=
  let '(sit, pro, coin, cout) := p in
  if mem String.eqb coin (m_com_supim m) then
    inp <- getitem m (e_pro_in tm (sit, pro, coin, cout)) ;;
    cap <- getitem m (cap_pro (sit, pro, coin, cout)) ;;
    s <- series_loc (m_supim m) tm (sit, coin) ;;
    Ok (Constr (REq inp (EMul cap (EConst s))))
  else Ok Skip.

Definition def_co2_emissions_rule (m : model) (tm : Z) (p : pro_tuple)
  : result rule_result :=
  co2 <- getitem m (co2_pro_out tm p) ;;
  inp <- getitem m (e_pro_in tm p) ;;
  row <- loc eqb4 (m_process m) p ;;
  Ok (Constr (REq co2 (EMul (EMul inp (EConst (pro_co2 row)))
                            (EConst (m_dt m))))).

Definition res_process_output_by_capacity_rule (m : model) (tm : Z)
  (p : pro_tuple) : result rule_result :=
  out <- getitem m (e_pro_out tm p) ;;
  cap <- getitem m (cap_pro p) ;;
  Ok (Constr (RLe out cap)).

Definition res_process_capacity_rule (m : model) (p : pro_tuple)
  : result rule_result :=
  lo <- loc eqb4 (m_process m) p ;;
  cap <- getitem m (cap_pro p) ;;
  up <- loc eqb4 (m_process m) p ;;
  Ok (Constr (RRange (pro_cap_lo lo) cap (pro_cap_up up))).

(** ** Constraint rules: transmission *)

Definition def_transmission_capacity_rule (m : model) (t : tra_tuple)
  : result rule_result :=
  cap <- getitem m (cap_tra t) ;;
  new <- getitem m (cap_tra_new t) ;;
  row <- loc eqb4 (m_transmission m) t ;;
  Ok (Constr (REq cap (EAdd new (EConst (tra_inst_cap row))))).

Definition def_transmission_output_rule (m : model) (tm : Z) (t : tra_tuple)
  : result rule_result :=
  out <- getitem m (e_tra_out tm t) ;;
  inp <- getitem m (e_tra_in tm t) ;;
  row <- loc eqb4 (m_transmission m) t ;;
  Ok (Constr (REq out (EMul inp (EConst (tra_eff row))))).

Definition res_transmission_input_by_capacity_rule (m : model) (tm : Z)
  (t : tra_tuple) : result rule_result :=
  inp <- getitem m (e_tra_in tm t) ;;
  cap <- getitem m (cap_tra t) ;;
  Ok (Constr (RLe inp cap)).

Definition res_transmission_capacity_rule (m : model) (t : tra_tuple)
  : result rule_result :=
  lo <- loc eqb4 (m_transmission m) t ;;
  cap <- getitem m (cap_tra t) ;;
  up <- loc eqb4 (m_transmission m) t ;;
  Ok (Constr (RRange (tra_cap_lo lo) cap (tra_cap_up up))).

Definition res_transmission_symmetry_rule (m : model) (t : tra_tuple)
  : result rule_result :=
  let '(sin, sout, tra, com) := t in
  a <- getitem m (cap_tra (sin, sout, tra, com)) ;;
  b <- getitem m (cap_tra (sout, sin, tra, com)) ;;
  Ok (Constr (REq a b)).

(** ** Constraint rules: storage *)

Definition def_storage_state_rule (m : model) (t : Z) (s : sto_tuple)
  : result rule_result :=
  con <- getitem m (e_sto_con t s) ;;
  prev <- getitem m (e_sto_con (t - 1) s) ;;
  inp <- getitem m (e_sto_in t s) ;;
  row_in <- loc eqb3 (m_storage m) s ;;
  out <- getitem m (e_sto_out t s) ;;
  row_out <- loc eqb3 (m_storage m) s ;;
  quot <- pdiv out (sto_eff_out row_out) ;;
  Ok (Constr (REq con
    (ESub (EAdd prev
                (EMul (EMul inp (EConst (sto_eff_in row_in))) (EConst (m_dt m))))
          (EMul quot (EConst (m_dt m)))))).

Definition def_storage_power_rule (m : model) (s : sto_tuple)
  : result rule_result :=
  cap <- getitem m (cap_sto_p s) ;;
  new <- getitem m (cap_sto_p_new s) ;;
  row <- loc eqb3 (m_storage m) s ;;
  Ok (Constr (REq cap (EAdd new (EConst (sto_inst_cap_p row))))).

Definition def_storage_capacity_rule (m : model) (s : sto_tuple)
  : result rule_result :=
  cap <- getitem m (cap_sto_c s) ;;
  new <- getitem m (cap_sto_c_new s) ;;
  row <- loc eqb3 (m_storage m) s ;;
  Ok (Constr (REq cap (EAdd new (EConst (sto_inst_cap_c row))))).

Definition res_storage_input_by_power_rule (m : model) (t : Z) (s : sto_tuple)
  : result rule_result :=
  inp <- getitem m (e_sto_in t s) ;;
  cap <- getitem m (cap_sto_p s) ;;
  Ok (Constr (RLe inp cap)).

Definition res_storage_output_by_power_rule (m : model) (t : Z) (s : sto_tuple)
  : result rule_result :=
  out <- getitem m (e_sto_out t s) ;;
  cap <- getitem m (cap_sto_p s) ;;
  Ok (Constr (RLe out cap)).

Definition res_storage_state_by_capacity_rule (m : model) (t : Z)
  (s : sto_tuple) : result rule_result :=
  con <- getitem m (e_sto_con t s) ;;
  cap <- getitem m (cap_sto_c s) ;;
  Ok (Constr (RLe con cap)).

Definition res_storage_power_rule (m : model) (s : sto_tuple)
  : result rule_result :=
  lo <- loc eqb3 (m_storage m) s ;;
  cap <- getitem m (cap_sto_p s) ;;
  up <- loc eqb3 (m_storage m) s ;;
  Ok (Constr (RRange (sto_cap_lo_p lo) cap (sto_cap_up_p up))).

Definition res_storage_capacity_rule (m : model) (s : sto_tuple)
  : result rule_result :=
  lo <- loc eqb3 (m_storage m) s ;;
  cap <- getitem m (cap_sto_c s) ;;
  up <- loc eqb3 (m_storage m) s ;;
  Ok (Constr (RRange (sto_cap_lo_c lo) cap (sto_cap_up_c up))).

(** [s[k]] on an ordered Pyomo set, which counts from one. *)
Definition ordered_getitem (s : list Z) (k : nat) : result Z :=
  match k with
  | O => Raise IndexError
  | S j => match nth_error s j with
           | Some x => Ok x
           | None => Raise IndexError
           end
  end.

Definition res_initial_and_final_storage_state_rule (m : model) (t : Z)
  (s : sto_tuple) : result rule_result :=
  first <- ordered_getitem (m_t m) 1 ;;
  if (t =? first)%Z then
    con <- getitem m (e_sto_con t s) ;;
    cap <- getitem m (cap_sto_c s) ;;
    row <- loc eqb3 (m_storage m) s ;;
    Ok (Constr (REq con (EMul cap (EConst (sto_init row)))))
  else
    last <- ordered_getitem (m_t m) (List.length (m_t m)) ;;
    if (t =? last)%Z then
      con <- getitem m (e_sto_con t s) ;;
      cap <- getitem m (cap_sto_c s) ;;
      row <- loc eqb3 (m_storage m) s ;;
      Ok (Constr (RGe con (EMul cap (EConst (sto_init row)))))
    else Ok Skip.

(** ** Constraint rules: emissions, costs and objective *)

(** [pyomo.summation(m.co2_pro_out)] adds up the variable over its own
    index set, so no lookup can fail. *)
Definition res_co2_emission_rule (m : model) : result rule_result :=
  let total :=
    psum (map (fun i => EVar (co2_pro_out (fst i) (snd i)))
              (list_prod (m_tm m) (m_pro_tuples m))) in
  row <- loc eqb3 (m_commodity m) ("Global", "CO2", "Env") ;;
  Ok (Constr (RLe (EMul total (EConst (m_weight m))) (EConst (com_max row)))).

Definition def_costs_rule (m : model) (cost_type : string)
  : result rule_result :=
  if (cost_type =? "Inv")%string then
    lhs <- getitem m (costs "Inv") ;;
    pro <- mapM (fun p =>
        v <- getitem m (cap_pro_new p) ;;
        inv <- loc eqb4 (m_process m) p ;;
        af <- loc eqb4 (m_process m) p ;;
        Ok (EMul (EMul v (EConst (pro_inv_cost inv)))
                 (EConst (pro_annuity_factor af))))
      (m_pro_tuples m) ;;
    tra <- mapM (fun t =>
        v <- getitem m (cap_tra_new t) ;;
        inv <- loc eqb4 (m_transmission m) t ;;
        af <- loc eqb4 (m_transmission m) t ;;
        Ok (EMul (EMul v (EConst (tra_inv_cost inv)))
                 (EConst (tra_annuity_factor af))))
      (m_tra_tuples m) ;;
    sto <- mapM (fun s =>
        vp <- getitem m (cap_sto_p_new s) ;;
        invp <- loc eqb3 (m_storage m) s ;;
        afp <- loc eqb3 (m_storage m) s ;;
        vc <- getitem m (cap_sto_c_new s) ;;
        invc <- loc eqb3 (m_storage m) s ;;
        afc <- loc eqb3 (m_storage m) s ;;
        Ok (EAdd (EMul (EMul vp (EConst (sto_inv_cost_p invp)))
                       (EConst (sto_annuity_factor afp)))
                 (EMul (EMul vc (EConst (sto_inv_cost_c invc)))
                       (EConst (sto_annuity_factor afc)))))
      (m_sto_tuples m) ;;
    Ok (Constr (REq lhs (EAdd (EAdd (psum pro) (psum tra)) (psum sto))))
  else if (cost_type =? "Fix")%string then
    lhs <- getitem m (costs "Fix") ;;
    pro <- mapM (fun p =>
        v <- getitem m (cap_pro p) ;;
        row <- loc eqb4 (m_process m) p ;;
        Ok (EMul v (EConst (pro_fix_cost row))))
      (m_pro_tuples m) ;;
    tra <- mapM (fun t =>
        v <- getitem m (cap_tra t) ;;
        row <- loc eqb4 (m_transmission m) t ;;
        Ok (EMul v (EConst (tra_fix_cost row))))
      (m_tra_tuples m) ;;
    sto <- mapM (fun s =>
        vp <- getitem m (cap_sto_p s) ;;
        rowp <- loc eqb3 (m_storage m) s ;;
        vc <- getitem m (cap_sto_c s) ;;
        rowc <- loc eqb3 (m_storage m) s ;;
        Ok (EAdd (EMul vp (EConst (sto_fix_cost_p rowp)))
                 (EMul vc (EConst (sto_fix_cost_c rowc)))))
      (m_sto_tuples m) ;;
    Ok (Constr (REq lhs (EAdd (EAdd (psum pro) (psum tra)) (psum sto))))
  else if (cost_type =? "Var")%string then
    lhs <- getitem m (costs "Var") ;;
    pro <- mapM (fun i : Z * pro_tuple =>
        let '(tm, p) := i in
        v <- getitem m (e_pro_out tm p) ;;
        row <- loc eqb4 (m_process m) p ;;
        Ok (EMul (EMul (EMul v (EConst (m_dt m))) (EConst (pro_var_cost row)))
                 (EConst (m_weight m))))
      (list_prod (m_tm m) (m_pro_tuples m)) ;;
    tra <- mapM (fun i : Z * tra_tuple =>
        let '(tm, t) := i in
        v <- getitem m (e_tra_in tm t) ;;
        row <- loc eqb4 (m_transmission m) t ;;
        Ok (EMul (EMul (EMul v (EConst (m_dt m))) (EConst (tra_var_cost row)))
                 (EConst (m_weight m))))
      (list_prod (m_tm m) (m_tra_tuples m)) ;;
    sto <- mapM (fun i : Z * sto_tuple =>
        let '(tm, s) := i in
        con <- getitem m (e_sto_con tm s) ;;
        rowc <- loc eqb3 (m_storage m) s ;;
        inp <- getitem m (e_sto_in tm s) ;;
        out <- getitem m (e_sto_out tm s) ;;
        rowp <- loc eqb3 (m_storage m) s ;;
        Ok (EAdd (EMul (EMul con (EConst (sto_var_cost_c rowc)))
                       (EConst (m_weight m)))
                 (EMul (EMul (EMul (EAdd inp out) (EConst (m_dt m)))
                             (EConst (sto_var_cost_p rowp)))
                       (EConst (m_weight m)))))
      (list_prod (m_tm m) (m_sto_tuples m)) ;;
    Ok (Constr (REq lhs (EAdd (EAdd (psum pro) (psum tra)) (psum sto))))
  else if (cost_type =? "Fuel")%string then
    lhs <- getitem m (costs "Fuel") ;;
    terms <- mapM (fun i : Z * com_tuple =>
        let '(tm, c) := i in
        v <- getitem m (e_co_stock tm c) ;;
        row <- loc eqb3 (m_commodity m) c ;;
        Ok (EMul (EMul (EMul v (EConst (m_dt m))) (EConst (com_price row)))
                 (EConst (m_weight m))))
      (filter (fun i : Z * com_tuple =>
                 mem String.eqb (snd (fst (snd i))) (m_com_stock m))
              (list_prod (m_tm m) (m_com_tuples m))) ;;
    Ok (Constr (REq lhs (psum terms)))
  else Raise NotImplementedError.

(** [pyomo.summation(m.costs)] *)
Definition obj_rule (m : model) : expr :=
  psum (map (fun ct => EVar (costs ct)) (m_cost_type m)).

(** ** Equation declaration *)

(** The names under which the constraints are attached to the model, with
    the index each instance is generated for. *)
Inductive constraint_id : Type :=
| res_demand (tm : Z) (c : com_tuple)
| def_e_co_stock (tm : Z) (c : com_tuple)
| res_stock_step (tm : Z) (c : com_tuple)
| res_stock_total (c : com_tuple)
| def_process_capacity (p : pro_tuple)
| def_process_output (tm : Z) (p : pro_tuple)
| def_intermittent_supply (tm : Z) (p : pro_tuple)
| def_co2_emissions (tm : Z) (p : pro_tuple)
| res_process_output_by_capacity (tm : Z) (p : pro_tuple)
| res_process_capacity (p : pro_tuple)
| def_transmission_capacity (t : tra_tuple)
| def_transmission_output (tm : Z) (t : tra_tuple)
| res_transmission_input_by_capacity (tm : Z) (t : tra_tuple)
| res_transmission_capacity (t : tra_tuple)
| res_transmission_symmetry (t : tra_tuple)
| def_storage_state (tm : Z) (s : sto_tuple)
| def_storage_power (s : sto_tuple)
| def_storage_capacity (s : sto_tuple)
| res_storage_input_by_power (tm : Z) (s : sto_tuple)
| res_storage_output_by_power (tm : Z) (s : sto_tuple)
| res_storage_state_by_capacity (t : Z) (s : sto_tuple)
| res_storage_power (s : sto_tuple)
| res_storage_capacity (s : sto_tuple)
| res_initial_and_final_storage_state (t : Z) (s : sto_tuple)
| res_co2_emission
| def_costs (cost_type : string).

Definition constraint_block : Type := list (constraint_id * relexpr).

(** [pyomo.Constraint(index, rule=...)] on a concrete model: the rule runs
    once per index in order; a skipped index leaves no constraint; an
    exception in the rule leaves [create_model]. *)
Fixpoint Constraint (rule : constraint_id -> result rule_result)
  (index : list constraint_id) : result constraint_block :=
  match index with
  | [] => Ok []
  | i :: rest =>
      r <- rule i ;;
      rs <- Constraint rule rest ;;
      Ok (match r with
          | Skip => rs
          | Constr c => (i, c) :: rs
          end)
  end.

(** A constraint declared as [m.{name}] binds to the function [{name}_rule];
    this is the rule of each name, applied at its index. *)
Definition rule_of (m : model) (id : constraint_id) : result rule_result :=
  match id with
  | res_demand tm c => res_demand_rule m tm c
  | def_e_co_stock tm c => def_e_co_stock_rule m tm c
  | res_stock_step tm c => res_stock_step_rule m tm c
  | res_stock_total c => res_stock_total_rule m c
  | def_process_capacity p => def_process_capacity_rule m p
  | def_process_output tm p => def_process_output_rule m tm p
  | def_intermittent_supply tm p => def_intermittent_supply_rule m tm p
  | def_co2_emissions tm p => def_co2_emissions_rule m tm p
  | res_process_output_by_capacity tm p =>
      res_process_output_by_capacity_rule m tm p
  | res_process_capacity p => res_process_capacity_rule m p
  | def_transmission_capacity t => def_transmission_capacity_rule m t
  | def_transmission_output tm t => def_transmission_output_rule m tm t
  | res_transmission_input_by_capacity tm t =>
      res_transmission_input_by_capacity_rule m tm t
  | res_transmission_capacity t => res_transmission_capacity_rule m t
  | res_transmission_symmetry t => res_transmission_symmetry_rule m t
  | def_storage_state tm s => def_storage_state_rule m tm s
  | def_storage_power s => def_storage_power_rule m s
  | def_storage_capacity s => def_storage_capacity_rule m s
  | res_storage_input_by_power tm s => res_storage_input_by_power_rule m tm s
  | res_storage_output_by_power tm s => res_storage_output_by_power_rule m tm s
  | res_storage_state_by_capacity t s =>
      res_storage_state_by_capacity_rule m t s
  | res_storage_power s => res_storage_power_rule m s
  | res_storage_capacity s => res_storage_capacity_rule m s
  | res_initial_and_final_storage_state t s =>
      res_initial_and_final_storage_state_rule m t s
  | res_co2_emission => res_co2_emission_rule m
  | def_costs ct => def_costs_rule m ct
  end.

(** The identifiers a declaration ranges over. *)
Definition timed {T : Type} (name : Z -> T -> constraint_id)
  (ts : list Z) (tuples : list T) : list constraint_id :=
  map (fun i => name (fst i) (snd i)) (list_prod ts tuples).

(** The [pyomo.Constraint] declarations of [create_model], in source order,
    each with its index set. *)
Definition declarations (m : model) : list (list constraint_id) :=
  [ timed res_demand (m_tm m) (m_com_tuples m);
    timed def_e_co_stock (m_tm m) (m_com_tuples m);
    timed res_stock_step (m_tm m) (m_com_tuples m);
    map res_stock_total (m_com_tuples m);
    map def_process_capacity (m_pro_tuples m);
    timed def_process_output (m_tm m) (m_pro_tuples m);
    timed def_intermittent_supply (m_tm m) (m_pro_tuples m);
    timed def_co2_emissions (m_tm m) (m_pro_tuples m);
    timed res_process_output_by_capacity (m_tm m) (m_pro_tuples m);
    map res_process_capacity (m_pro_tuples m);
    map def_transmission_capacity (m_tra_tuples m);
    timed def_transmission_output (m_tm m) (m_tra_tuples m);
    timed res_transmission_input_by_capacity (m_tm m) (m_tra_tuples m);
    map res_transmission_capacity (m_tra_tuples m);
    map res_transmission_symmetry (m_tra_tuples m);
    timed def_storage_state (m_tm m) (m_sto_tuples m);
    map def_storage_power (m_sto_tuples m);
    map def_storage_capacity (m_sto_tuples m);
    timed res_storage_input_by_power (m_tm m) (m_sto_tuples m);
    timed res_storage_output_by_power (m_tm m) (m_sto_tuples m);
    timed res_storage_state_by_capacity (m_t m) (m_sto_tuples m);
    map res_storage_power (m_sto_tuples m);
    map res_storage_capacity (m_sto_tuples m);
    timed res_initial_and_final_storage_state (m_t m) (m_sto_tuples m);
    [res_co2_emission];
    map def_costs (m_cost_type m) ].

(** ** create_model *)

(** What [create_model] returns: the model object with its sets, parameters
    and variables, the generated constraints and the objective. *)
Record ConcreteModel : Type := {
  cm_model : model;
  cm_constraints : constraint_block;
  cm_obj : expr
}.

(** [set(c[1] for c in m.com_tuples if c[2] == ty)] *)
Definition commodities_of_type (ty : string) (tuples : list com_tuple)
  : list string :=
  unique (map (fun c => snd (fst c))
              (filter (fun c => (snd c =? ty)%string) tuples)).

(** [float(8760) / (len(m.t) * dt)] *)
Definition weight_param (timesteps : list Z) (dt : Q) : result Q :=
  let d := inject_Z (Z.of_nat (List.length timesteps)) * dt in
  if Qeq_bool d 0 then Raise ZeroDivisionError else Ok (8760 / d).

(** The sets and parameters declared before any constraint. *)
Definition declare_sets (cost_type : list string) (d : data)
  (timesteps : list Z) (dt weight : Q) : model :=
  let com_tuples := map fst (commodity d) in
  {| m_commodity := commodity d;
     m_process := process d;
     m_transmission := transmission d;
     m_storage := storage d;
     m_demand := demand d;
     m_supim := supim d;
     m_t := timesteps;
     m_tm := tl timesteps;
     m_sit := unique (map (fun c => fst (fst c)) com_tuples);
     m_com := unique (map (fun c => snd (fst c)) com_tuples);
     m_com_type := unique (map (fun c => snd c) com_tuples);
     m_pro := unique (map (fun p => snd (fst (fst p))) (map fst (process d)));
     m_tra := unique (map (fun t => snd (fst t)) (map fst (transmission d)));
     m_sto := unique (map (fun s => snd (fst s)) (map fst (storage d)));
     m_cost_type := cost_type;
     m_com_tuples := com_tuples;
     m_pro_tuples := map fst (process d);
     m_tra_tuples := map fst (transmission d);
     m_sto_tuples := map fst (storage d);
     m_com_supim := commodities_of_type "SupIm" com_tuples;
     m_com_stock := commodities_of_type "Stock" com_tuples;
     m_com_demand := commodities_of_type "Demand" com_tuples;
     m_weight := weight;
     m_dt := dt |}.

(** [create_model] with the hard-coded list of cost types as a parameter:
    the docstring of [def_costs_rule] names that list as the place to change
    or add cost types. *)
Definition create_model_with (cost_type : list string) (d : data)
  (timesteps : list Z) (dt : Q) : result ConcreteModel :=
  weight <- weight_param timesteps dt ;;
  let m := declare_sets cost_type d timesteps dt weight in
  blocks <- sequence (map (Constraint (rule_of m)) (declarations m)) ;;
  Ok {| cm_model := m;
        cm_constraints := List.concat blocks;
        cm_obj := obj_rule m |}.

(** [m.cost_type] as [create_model] initialises it. *)
Definition cost_types : list string := ["Inv"; "Fix"; "Var"; "Fuel"].

Definition create_model (d : data) (timesteps : list Z) (dt : Q)
  : result ConcreteModel :=
  create_model_with cost_types d timesteps dt.

(** ** Index sets of the declarations *)

(** Some declaration ranges over [id]. *)
Definition declared (m : model) (id : constraint_id) : Prop :=
  exists decl, In decl (declarations m) /\ In id decl.

(** The index of [id] lies in the sets its declaration names. *)
Definition in_index (m : model) (id : constraint_id) : Prop :=
  match id with
  | res_demand tm c | def_e_co_stock tm c | res_stock_step tm c =>
      In tm (m_tm m) /\ In c (m_com_tuples m)
  | res_stock_total c => In c (m_com_tuples m)
  | def_process_capacity p | res_process_capacity p => In p (m_pro_tuples m)
  | def_process_output tm p | def_intermittent_supply tm p
  | def_co2_emissions tm p | res_process_output_by_capacity tm p =>
      In tm (m_tm m) /\ In p (m_pro_tuples m)
  | def_transmission_capacity t | res_transmission_capacity t
  | res_transmission_symmetry t => In t (m_tra_tuples m)
  | def_transmission_output tm t | res_transmission_input_by_capacity tm t =>
      In tm (m_tm m) /\ In t (m_tra_tuples m)
  | def_storage_state tm s | res_storage_input_by_power tm s
  | res_storage_output_by_power tm s =>
      In tm (m_tm m) /\ In s (m_sto_tuples m)
  | def_storage_power s | def_storage_capacity s | res_storage_power s
  | res_storage_capacity s => In s (m_sto_tuples m)
  | res_storage_state_by_capacity t s
  | res_initial_and_final_storage_state t s =>
      In t (m_t m) /\ In s (m_sto_tuples m)
  | res_co2_emission => True
  | def_costs ct => In ct (m_cost_type m)
  end.

(** ** Inputs on which no rule raises *)

(** The sets of the model are the ones [create_model] derives from its
    tables. *)
Record consistent (m : model) : Prop := {
  c_tm : incl (m_tm m) (m_t m);
  c_com : m_com_tuples m = map fst (m_commodity m);
  c_pro : m_pro_tuples m = map fst (m_process m);
  c_tra : m_tra_tuples m = map fst (m_transmission m);
  c_sto : m_sto_tuples m = map fst (m_storage m)
}.

(** Every label a rule looks up is present: the two series cover the
    modelled timesteps of the commodities they are read for, every line has
    its reverse, every modelled timestep of a storage has the timestep one
    less, discharge efficiencies are not zero and the global emission row
    exists. *)
Record complete (m : model) : Prop := {
  has_demand : forall tm sit com ty,
    In tm (m_tm m) -> In (sit, com, ty) (m_com_tuples m) ->
    mem String.eqb com (m_com_demand m) = true ->
    exists q, series_loc (m_demand m) tm (sit, com) = Ok q;
  has_supim : forall tm sit pro coin cout,
    In tm (m_tm m) -> In (sit, pro, coin, cout) (m_pro_tuples m) ->
    mem String.eqb coin (m_com_supim m) = true ->
    exists q, series_loc (m_supim m) tm (sit, coin) = Ok q;
  has_mirror : forall sin sout tra com,
    In (sin, sout, tra, com) (m_tra_tuples m) ->
    In (sout, sin, tra, com) (m_tra_tuples m);
  has_prev : forall tm s,
    In tm (m_tm m) -> In s (m_sto_tuples m) -> In (tm - 1)%Z (m_t m);
  has_eff_out : forall s row,
    In (s, row) (m_storage m) -> Qeq_bool (sto_eff_out row) 0 = false;
  has_co2 : In ("Global", "CO2", "Env") (m_com_tuples m)
}.

(** The cost type of a cost constraint is one of the implemented ones. *)
Definition implemented (id : constraint_id) : Prop :=
  match id with
  | def_costs ct => In ct cost_types
  | _ => True
  end.

Definition is_ok {A : Type} (r : result A) : bool :=
  match r with
  | Ok _ => true
  | Raise _ => false
  end.

(** The same conditions, decided on the arguments of [create_model]. *)
Definition wf_input (d : data) (ts : list Z) (dt : Q) : bool :=
  let com_tuples := map fst (commodity d) in
  is_ok (weight_param ts dt)
  && forallb (fun tm =>
       forallb (fun c : com_tuple =>
                  let '(sit, com, _) := c in
                  negb (mem String.eqb com
                          (commodities_of_type "Demand" com_tuples))
                  || is_ok (series_loc (demand d) tm (sit, com)))
               com_tuples) (tl ts)
  && forallb (fun tm =>
       forallb (fun p : pro_tuple =>
                  let '(sit, _, coin, _) := p in
                  negb (mem String.eqb coin
                          (commodities_of_type "SupIm" com_tuples))
                  || is_ok (series_loc (supim d) tm (sit, coin)))
               (map fst (process d))) (tl ts)
  && forallb (fun t : tra_tuple =>
                let '(sin, sout, tra, com) := t in
                mem eqb4 (sout, sin, tra, com) (map fst (transmission d)))
             (map fst (transmission d))
  && forallb (fun s : sto_tuple * storage_row =>
                negb (Qeq_bool (sto_eff_out (snd s)) 0)
                && forallb (fun tm => mem Z.eqb (tm - 1)%Z ts) (tl ts))
             (storage d)
  && mem eqb3 ("Global", "CO2", "Env") com_tuples.

(** ** The specification's reading of the generated expressions *)

Definition Qsum (l : list Q) : Q := fold_right Qplus 0 l.

(** The signed sum of the commodity balance, term by term as the
    specification lists them. *)
Definition balance_sum (rho : var -> Q) (m : model) (tm : Z) (sit com : string)
  : Q :=
  Qsum (map (fun p => rho (e_pro_in tm p))
            (filter (fun p : pro_tuple =>
                       let '(s, _, coin, _) := p in
                       (s =? sit)%string && (coin =? com)%string)
                    (m_pro_tuples m)))
  - Qsum (map (fun p => rho (e_pro_out tm p))
              (filter (fun p : pro_tuple =>
                         let '(s, _, _, cout) := p in
                         (s =? sit)%string && (cout =? com)%string)
                      (m_pro_tuples m)))
  + Qsum (map (fun t => rho (e_tra_in tm t))
              (filter (fun t : tra_tuple =>
                         let '(sin, _, _, c) := t in
                         (sin =? sit)%string && (c =? com)%string)
                      (m_tra_tuples m)))
  - Qsum (map (fun t => rho (e_tra_out tm t))
              (filter (fun t : tra_tuple =>
                         let '(_, sout, _, c) := t in
                         (sout =? sit)%string && (c =? com)%string)
                      (m_tra_tuples m)))
  + Qsum (map (fun s => rho (e_sto_in tm s) - rho (e_sto_out tm s))
              (filter (fun s : sto_tuple =>
                         let '(st, _, c) := s in
                         (st =? sit)%string && (c =? com)%string)
                      (m_sto_tuples m))).

(** The element just before [t] in the ordered timestep sequence. *)
Fixpoint prev_in_order (ts : list Z) (t : Z) : option Z :=
  match ts with
  | a :: rest =>
      match rest with
      | b :: _ => if (b =? t)%Z then Some a else prev_in_order rest t
      | [] => None
      end
  | [] => None
  end.

(** Each timestep identifier is its predecessor's plus one. *)
Fixpoint consecutive (ts : list Z) : bool :=
  match ts with
  | a :: rest =>
      match rest with
      | b :: _ => (b =? a + 1)%Z && consecutive rest
      | [] => true
      end
  | [] => true
  end.

(** [content[t] == content[t'] + input[t]*eff_in*dt - output[t]/eff_out*dt]
    for a storage tuple with attribute row [row]. *)
Definition storage_state_relation (dt : Q) (t t' : Z) (s : sto_tuple)
  (row : storage_row) : relexpr :=
  REq (EVar (e_sto_con t s))
      (ESub (EAdd (EVar (e_sto_con t' s))
                  (EMul (EMul (EVar (e_sto_in t s)) (EConst (sto_eff_in row)))
                        (EConst dt)))
            (EMul (EDiv (EVar (e_sto_out t s)) (EConst (sto_eff_out row)))
                  (EConst dt))).

(** [content[t] == capacity * init] and [content[t] >= capacity * init]. *)
Definition initial_state_relation (t : Z) (s : sto_tuple) (row : storage_row)
  : relexpr :=
  REq (EVar (e_sto_con t s))
      (EMul (EVar (cap_sto_c s)) (EConst (sto_init row))).

Definition final_state_relation (t : Z) (s : sto_tuple) (row : storage_row)
  : relexpr :=
  RGe (EVar (e_sto_con t s))
      (EMul (EVar (cap_sto_c s)) (EConst (sto_init row))).

(** The equality of the first timestep as the specification words it: an
    installed quantity times the fraction, plus the capacity scaled by the
    initial fraction.  [installed] is the installed quantity: the wording
    leaves open whether it is the installed capacity of the table or the
    capacity variable. *)
Definition spec_initial_state_relation (installed : expr) (t : Z)
  (s : sto_tuple) (row : storage_row) : relexpr :=
  REq (EVar (e_sto_con t s))
      (EAdd (EMul installed (EConst (sto_init row)))
            (EMul (EVar (cap_sto_c s)) (EConst (sto_init row)))).

(** A variable other than the stock purchase of a commodity that is of
    stock type nowhere, that is, whose name is not in [m.com_stock]. *)
Definition stock_only (m : model) (v : var) : Prop :=
  match v with
  | e_co_stock _ c => mem String.eqb (snd (fst c)) (m_com_stock m) = true
  | _ => True
  end.

(** ** A concrete system used in examples *)

Module Example.

Definition crow (mx step price : Q) : commodity_row :=
  {| com_max := mx; com_maxperstep := step; com_price := price |}.

Definition prow (eff co2 up inv af : Q) : process_row :=
  {| pro_eff := eff; pro_co2 := co2; pro_cap_lo := 0; pro_cap_up := up;
     pro_inst_cap := 0; pro_inv_cost := inv; pro_fix_cost := 0;
     pro_var_cost := 0; pro_annuity_factor := af |}.

Definition trow : transmission_row :=
  {| tra_eff := 9 # 10; tra_cap_lo := 0; tra_cap_up := 100;
     tra_inst_cap := 0; tra_inv_cost := 1000; tra_fix_cost := 0;
     tra_var_cost := 0; tra_annuity_factor := 1 # 10 |}.

Definition srow : storage_row :=
  {| sto_eff_in := 9 # 10; sto_eff_out := 4 # 5;
     sto_cap_lo_p := 0; sto_cap_up_p := 50;
     sto_cap_lo_c := 0; sto_cap_up_c := 200;
     sto_inst_cap_p := 0; sto_inst_cap_c := 10; sto_init := 1 # 2;
     sto_inv_cost_p := 100; sto_inv_cost_c := 10;
     sto_fix_cost_p := 0; sto_fix_cost_c := 0;
     sto_var_cost_p := 0; sto_var_cost_c := 0;
     sto_annuity_factor := 1 # 10 |}.

(** Two sites; coal and wind plants at [A]; a line in both directions; a
    battery at [A]. *)
Definition coal : pro_tuple := ("A", "plant", "Coal", "Elec").
Definition wind : pro_tuple := ("A", "wt", "Wind", "Elec").
Definition line_ab : tra_tuple := ("A", "B", "hvac", "Elec").
Definition line_ba : tra_tuple := ("B", "A", "hvac", "Elec").
Definition battery : sto_tuple := ("A", "bat", "Elec").

Definition commodities : list (com_tuple * commodity_row) :=
  [ (("A", "Coal", "Stock"), crow 1000000 1000 7);
    (("A", "Wind", "SupIm"), crow 0 0 0);
    (("A", "Elec", "Demand"), crow 0 0 0);
    (("B", "Elec", "Demand"), crow 0 0 0);
    (("Global", "CO2", "Env"), crow 150000000 0 0) ].

Definition frame (ts : list Z) (a b : Q) (ca cb : string) : series :=
  map (fun t => (t, [(("A", ca), a); (("B", cb), b)])) ts.

Definition system : data :=
  {| commodity := commodities;
     process := [ (coal, prow (1 # 2) (3 # 10) 1000 600000 (1 # 10));
                  (wind, prow 1 0 1000 1500000 (1 # 10)) ];
     transmission := [ (line_ab, trow); (line_ba, trow) ];
     storage := [ (battery, srow) ];
     demand := frame [0; 1; 2; 3; 4]%Z 100 20 "Elec" "Elec";
     supim := frame [0; 1; 2; 3; 4]%Z (3 # 10) 0 "Wind" "Wind" |}.

Definition horizon : list Z := [0; 1; 2; 3]%Z.

(** The sets and parameters [create_model] declares for the system. *)
Definition sets : model :=
  declare_sets cost_types system horizon 1 2190.

(** Coal is a stock commodity at [A] and is also listed, under another
    type, at [B]. *)
Definition shared_coal : data :=
  {| commodity := commodities ++ [ (("B", "Coal", "Other"), crow 0 0 0) ];
     process := process system;
     transmission := transmission system;
     storage := storage system;
     demand := demand system;
     supim := supim system |}.

Definition coal_at_b : model :=
  declare_sets cost_types shared_coal horizon 1 2190.

(** Content 1 and total capacity 2 for every storage, zero elsewhere. *)
Definition half_full (v : var) : Q :=
  match v with
  | e_sto_con _ _ => 1
  | cap_sto_c _ => 2
  | _ => 0
  end.

(** The same system with the line from [A] to [B] only. *)
Definition one_way : data :=
  {| commodity := commodity system;
     process := process system;
     transmission := [ (line_ab, trow) ];
     storage := storage system;
     demand := demand system;
     supim := supim system |}.

End Example.

(** The position, in source order, of the declaration an identifier
    belongs to. *)
Definition family (id : constraint_id) : nat :=
  match id with
  | res_demand _ _ => 0
  | def_e_co_stock _ _ => 1
  | res_stock_step _ _ => 2
  | res_stock_total _ => 3
  | def_process_capacity _ => 4
  | def_process_output _ _ => 5
  | def_intermittent_supply _ _ => 6
  | def_co2_emissions _ _ => 7
  | res_process_output_by_capacity _ _ => 8
  | res_process_capacity _ => 9
  | def_transmission_capacity _ => 10
  | def_transmission_output _ _ => 11
  | res_transmission_input_by_capacity _ _ => 12
  | res_transmission_capacity _ => 13
  | res_transmission_symmetry _ => 14
  | def_storage_state _ _ => 15
  | def_storage_power _ => 16
  | def_storage_capacity _ => 17
  | res_storage_input_by_power _ _ => 18
  | res_storage_output_by_power _ _ => 19
  | res_storage_state_by_capacity _ _ => 20
  | res_storage_power _ => 21
  | res_storage_capacity _ => 22
  | res_initial_and_final_storage_state _ _ => 23
  | res_co2_emission => 24
  | def_costs _ => 25
  end.

(** ** Solutions of a model *)

(** An assignment of the variables that respects the domain of every
    allocated variable and satisfies every generated constraint. *)
Definition feasible (rho : var -> Q) (M : ConcreteModel) : Prop :=
  (forall v, In v (variables (cm_model M)) -> 0 <= rho v)
  /\ (forall id rel, In (id, rel) (cm_constraints M) -> holds rho rel).

(** [frame.loc[k][column]] for a key [k] of the frame; a key the frame does
    not have reads as [0]. *)
Definition attribute {K V : Type} (eqb : K -> K -> bool) (frame : list (K * V))
  (column : V -> Q) (k : K) : Q :=
  match assoc eqb k frame with
  | Some row => column row
  | None => 0
  end.

(** Decides [holds] and checks an assignment against every constraint. *)
Definition holds_b (rho : var -> Q) (r : relexpr) : bool :=
  match r with
  | REq a b => Qeq_bool (eval rho a) (eval rho b)
  | RLe a b => Qle_bool (eval rho a) (eval rho b)
  | RGe a b => Qle_bool (eval rho b) (eval rho a)
  | RRange lo e hi => Qle_bool lo (eval rho e) && Qle_bool (eval rho e) hi
  end.

Definition satisfies_b (rho : var -> Q) (M : ConcreteModel) : bool :=
  forallb (fun c => holds_b rho (snd c)) (cm_constraints M).

(** A solution of the example system: the demand of 100 at [A] and 20 at
    [B] is met by 1300/3 of wind capacity running at its availability of
    3/10, a line of capacity 30 carries 30 from [A], of which 27 arrive at
    [B]; coal plant and battery stay idle, the battery at half of its
    installed capacity of 10. *)
Definition example_solution (v : var) : Q :=
  match v with
  | cap_pro p | cap_pro_new p => if eqb4 p Example.wind then 1300 # 3 else 0
  | e_pro_in _ p | e_pro_out _ p => if eqb4 p Example.wind then 130 else 0
  | cap_tra _ | cap_tra_new _ => 30
  | e_tra_in _ t => if eqb4 t Example.line_ab then 30 else 0
  | e_tra_out _ t => if eqb4 t Example.line_ab then 27 else 0
  | cap_sto_c _ => 10
  | e_sto_con _ _ => 5
  | costs ct => if (ct =? "Inv")%string then 65006000 else 0
  | _ => 0
  end.

(** ** Subset declarations *)

(** The [within=] arguments of the set declarations: each element of the
    declared set has to lie in the named superset. *)
Definition within_tm (m : model) : bool :=
  forallb (fun t => mem Z.eqb t (m_t m)) (m_tm m).

Definition within_com_tuples (m : model) : bool :=
  forallb (fun c : com_tuple =>
             let '(sit, com, ty) := c in
             mem String.eqb sit (m_sit m) && mem String.eqb com (m_com m)
             && mem String.eqb ty (m_com_type m))
          (m_com_tuples m).

Definition within_pro_tuples (m : model) : bool :=
  forallb (fun p : pro_tuple =>
             let '(sit, pro, coin, cout) := p in
             mem String.eqb sit (m_sit m) && mem String.eqb pro (m_pro m)
             && mem String.eqb coin (m_com m) && mem String.eqb cout (m_com m))
          (m_pro_tuples m).

Definition within_tra_tuples (m : model) : bool :=
  forallb (fun t : tra_tuple =>
             let '(sin, sout, tra, com) := t in
             mem String.eqb sin (m_sit m) && mem String.eqb sout (m_sit m)
             && mem String.eqb tra (m_tra m) && mem String.eqb com (m_com m))
          (m_tra_tuples m).

Definition within_sto_tuples (m : model) : bool :=
  forallb (fun s : sto_tuple =>
             let '(sit, sto, com) := s in
             mem String.eqb sit (m_sit m) && mem String.eqb sto (m_sto m)
             && mem String.eqb com (m_com m))
          (m_sto_tuples m).

Definition within_com_subsets (m : model) : bool :=
  forallb (fun c => mem String.eqb c (m_com m)) (m_com_supim m)
  && forallb (fun c => mem String.eqb c (m_com m)) (m_com_stock m)
  && forallb (fun c => mem String.eqb c (m_com m)) (m_com_demand m).

(** ** Column labels *)

(** [col.split('.')]: the pieces between the dots, empty pieces kept. *)
Fixpoint split_dot (col : string) : list string :=
  match col with
  | EmptyString => [EmptyString]
  | String c rest =>
      if Ascii.eqb c "."%char then EmptyString :: split_dot rest
      else match split_dot rest with
           | piece :: pieces => String c piece :: pieces
           | [] => [String c EmptyString]
           end
  end.

(** The label has no dot. *)
Fixpoint dot_free (s : string) : bool :=
  match s with
  | EmptyString => true
  | String c rest => negb (Ascii.eqb c "."%char) && dot_free rest
  end.

(** [column_tuples] of [split_columns]: the body splits at ['.'] whatever
    [sep] is. *)
Definition column_tuples (columns : list string) (sep : string)
  : list (list string) :=
  map split_dot columns.

(** [split_columns(columns, sep)]: [pd.MultiIndex.from_tuples] raises
    [TypeError] on an empty list, as it cannot infer the number of levels;
    the index it returns otherwise is represented by the tuples it is built
    from. *)
Definition split_columns (columns : list string) (sep : string)
  : result (list (list string)) :=
  match column_tuples columns sep with
  | [] => Raise TypeError
  | tuples => Ok tuples
  end.

(** The loop of [get_entity] that renames repeated onset labels in place:
    [done] holds the labels already visited, as they are now. *)
Fixpoint rename_duplicates (done todo : list string) : list string :=
  match todo with
  | [] => done
  | label :: rest =>
      rename_duplicates
        (done ++ [if mem String.eqb label done then label ++ "_" else label])
        rest
  end.

Definition unique_labels (labels : list string) : list string :=
  rename_duplicates [] labels.

(** The tick spacing chosen by [plot] from the number of timesteps. *)
Definition steps_between_ticks (timesteps : list Z) : nat :=
  if (26 * 168 <? List.length timesteps)%nat then 168 * 4
  else if (3 * 168 <? List.length timesteps)%nat then 168
  else if (2 * 24 <? List.length timesteps)%nat then 24
  else if (24 <? List.length timesteps)%nat then 6
  else 3.

(** [l[::step]] for a positive [step]: [wait] elements are passed over
    before the next one is taken. *)
Fixpoint slice_from {A : Type} (step wait : nat) (l : list A) : list A :=
  match l with
  | [] => []
  | x :: rest =>
      match wait with
      | O => x :: slice_from step (step - 1) rest
      | S wait' => slice_from step wait' rest
      end
  end.

Definition slice_step {A : Type} (l : list A) (step : nat) : list A :=
  slice_from step 0 l.

Definition xticks (timesteps : list Z) : list Z :=
  slice_step timesteps (steps_between_ticks timesteps).

(** * Properties *)

(** ** Annuity factor *)

Lemma Qeq_bool_false_iff (x y : Q) : Qeq_bool x y = false <-> ~ x == y.
Proof.
  split.
  - intros H E. apply Qeq_bool_iff in E. congruence.
  - intros H. destruct (Qeq_bool x y) eqn:E; [|reflexivity].
    apply Qeq_bool_iff in E. contradiction.
Qed.









(** ** The error monad, keys and lookups *)

Lemma bind_Ok {A B : Type} (c : result A) (k : A -> result B) (b : B) :
  bind c k = Ok b <-> exists a, c = Ok a /\ k a = Ok b.
Proof.
  destruct c as [a | e]; simpl; split.
  - intros H. exists a. split; [reflexivity | exact H].
  - intros [a' [E H]]. injection E as ->. exact H.
  - discriminate.
  - intros [a' [E _]]. discriminate E.
Qed.

Lemma eqb2_eq (a b : string * string) : eqb2 a b = true <-> a = b.
Proof.
  destruct a as [a1 a2], b as [b1 b2]. unfold eqb2.
  rewrite andb_true_iff, !String.eqb_eq. split.
  - intros [-> ->]. reflexivity.
  - intros E. injection E as -> ->. split; reflexivity.
Qed.

Lemma eqb3_eq (a b : string * string * string) : eqb3 a b = true <-> a = b.
Proof.
  destruct a as [[a1 a2] a3], b as [[b1 b2] b3]. unfold eqb3.
  rewrite !andb_true_iff, !String.eqb_eq. split.
  - intros [[-> ->] ->]. reflexivity.
  - intros E. injection E as -> -> ->. repeat split.
Qed.

Lemma eqb4_eq (a b : string * string * string * string) :
  eqb4 a b = true <-> a = b.
Proof.
  destruct a as [[[a1 a2] a3] a4], b as [[[b1 b2] b3] b4]. unfold eqb4.
  rewrite !andb_true_iff, !String.eqb_eq. split.
  - intros [[[-> ->] ->] ->]. reflexivity.
  - intros E. injection E as -> -> -> ->. repeat split.
Qed.

Section Keys.

Context {K : Type} (eqb : K -> K -> bool).
Hypothesis eqb_eq : forall a b, eqb a b = true <-> a = b.

Lemma mem_In (k : K) (s : list K) : mem eqb k s = true <-> In k s.
Proof.
  unfold mem. rewrite existsb_exists. split.
  - intros [x [Hin E]]. apply eqb_eq in E. subst x. exact Hin.
  - intros Hin. exists k. split; [exact Hin | apply eqb_eq; reflexivity].
Qed.

Lemma assoc_In {V : Type} (k : K) (l : list (K * V)) :
  In k (map fst l) -> exists v, assoc eqb k l = Some v /\ In (k, v) l.
Proof.
  induction l as [| [k' v'] l IH]; simpl; [intros [] |].
  intros H. destruct (eqb k k') eqn:E.
  - apply eqb_eq in E. subst k'. exists v'. split; [reflexivity | left; reflexivity].
  - destruct H as [H | H].
    + subst k'. assert (eqb k k = true) as R by (apply eqb_eq; reflexivity).
      congruence.
    + destruct (IH H) as [v [Hv Hin]]. exists v. split; [exact Hv | right; exact Hin].
Qed.

Lemma assoc_Some {V : Type} (k : K) (l : list (K * V)) (v : V) :
  assoc eqb k l = Some v -> In (k, v) l.
Proof.
  induction l as [| [k' v'] l IH]; simpl; [discriminate |].
  destruct (eqb k k') eqn:E.
  - intros H. injection H as ->. apply eqb_eq in E. subst k'. left. reflexivity.
  - intros H. right. exact (IH H).
Qed.

Lemma loc_In {V : Type} (k : K) (l : list (K * V)) :
  In k (map fst l) -> exists v, loc eqb l k = Ok v.
Proof.
  intros H. destruct (assoc_In k l H) as [v [Hv _]].
  exists v. unfold loc. rewrite Hv. reflexivity.
Qed.

Lemma loc_Ok {V : Type} (k : K) (l : list (K * V)) (v : V) :
  loc eqb l k = Ok v -> In (k, v) l.
Proof.
  unfold loc. destruct (assoc eqb k l) as [v' |] eqn:E; [| discriminate].
  intros H. injection H as ->. exact (assoc_Some k l v E).
Qed.

End Keys.

Lemma Zeqb_eq (a b : Z) : (a =? b)%Z = true <-> a = b.
Proof. apply Z.eqb_eq. Qed.

Lemma getitem_Ok (m : model) (v : var) (e : expr) :
  getitem m v = Ok e <-> valid_index m v = true /\ e = EVar v.
Proof.
  unfold getitem. destruct (valid_index m v); split.
  - intros H. injection H as <-. split; reflexivity.
  - intros [_ ->]. reflexivity.
  - discriminate.
  - intros [H _]. discriminate H.
Qed.

Lemma getitem_valid (m : model) (v : var) :
  valid_index m v = true -> getitem m v = Ok (EVar v).
Proof. intros H. unfold getitem. rewrite H. reflexivity. Qed.

(** Splits a hypothesis [x <- c ;; k = Ok b] into its two steps. *)
Ltac bind_inv H :=
  let a := fresh "a" in
  let Ha := fresh "Ha" in
  apply bind_Ok in H; destruct H as [a [Ha H]].

(** A successful lookup of a variable yields that variable. *)
Ltac getitem_inv H :=
  let V := fresh "Hvalid" in
  apply getitem_Ok in H; destruct H as [V ->].

(** ** Commodity balance *)

Lemma Qsum_cons (x : Q) (l : list Q) : Qsum (x :: l) = x + Qsum l.
Proof. reflexivity. Qed.

(** The process loop adds the input flow of each consumer and subtracts the
    output flow of each producer. *)
Lemma balance_process_loop (m : model) (tm : Z) (sit com : string)
  (rho : var -> Q) (l : list pro_tuple) :
  forall acc e,
    foldM (balance_process m tm sit com) l acc = Ok e ->
    eval rho e ==
    eval rho acc
    + Qsum (map (fun p => rho (e_pro_in tm p))
                (filter (fun p : pro_tuple =>
                           let '(s, _, coin, _) := p in
                           (s =? sit)%string && (coin =? com)%string) l))
    - Qsum (map (fun p => rho (e_pro_out tm p))
                (filter (fun p : pro_tuple =>
                           let '(s, _, _, cout) := p in
                           (s =? sit)%string && (cout =? com)%string) l)).
Proof.
  induction l as [| p l IH]; intros acc e H.
  - simpl in H. injection H as <-. simpl. ring.
  - simpl in H. bind_inv H.
    specialize (IH _ _ H). rewrite IH. clear IH H.
    destruct p as [[[p0 p1] p2] p3]. unfold balance_process in Ha.
    bind_inv Ha. simpl filter.
    destruct ((p0 =? sit)%string && (p2 =? com)%string);
      destruct ((p0 =? sit)%string && (p3 =? com)%string).
    + bind_inv Ha0. getitem_inv Ha1. injection Ha0 as <-.
      bind_inv Ha. getitem_inv Ha0. injection Ha as <-.
      simpl map. rewrite !Qsum_cons. simpl eval. ring.
    + bind_inv Ha0. getitem_inv Ha1. injection Ha0 as <-.
      injection Ha as <-.
      simpl map. rewrite !Qsum_cons. simpl eval. ring.
    + injection Ha0 as <-.
      bind_inv Ha. getitem_inv Ha0. injection Ha as <-.
      simpl map. rewrite !Qsum_cons. simpl eval. ring.
    + injection Ha0 as <-. injection Ha as <-. ring.
Qed.

(** The transmission loop adds exports and subtracts imports. *)
Lemma balance_transmission_loop (m : model) (tm : Z) (sit com : string)
  (rho : var -> Q) (l : list tra_tuple) :
  forall acc e,
    foldM (balance_transmission m tm sit com) l acc = Ok e ->
    eval rho e ==
    eval rho acc
    + Qsum (map (fun t => rho (e_tra_in tm t))
                (filter (fun t : tra_tuple =>
                           let '(sin, _, _, c) := t in
                           (sin =? sit)%string && (c =? com)%string) l))
    - Qsum (map (fun t => rho (e_tra_out tm t))
                (filter (fun t : tra_tuple =>
                           let '(_, sout, _, c) := t in
                           (sout =? sit)%string && (c =? com)%string) l)).
Proof.
  induction l as [| t l IH]; intros acc e H.
  - simpl in H. injection H as <-. simpl. ring.
  - simpl in H. bind_inv H.
    specialize (IH _ _ H). rewrite IH. clear IH H.
    destruct t as [[[t0 t1] t2] t3]. unfold balance_transmission in Ha.
    bind_inv Ha. simpl filter.
    destruct ((t0 =? sit)%string && (t3 =? com)%string);
      destruct ((t1 =? sit)%string && (t3 =? com)%string).
    + bind_inv Ha0. getitem_inv Ha1. injection Ha0 as <-.
      bind_inv Ha. getitem_inv Ha0. injection Ha as <-.
      simpl map. rewrite !Qsum_cons. simpl eval. ring.
    + bind_inv Ha0. getitem_inv Ha1. injection Ha0 as <-.
      injection Ha as <-.
      simpl map. rewrite !Qsum_cons. simpl eval. ring.
    + injection Ha0 as <-.
      bind_inv Ha. getitem_inv Ha0. injection Ha as <-.
      simpl map. rewrite !Qsum_cons. simpl eval. ring.
    + injection Ha0 as <-. injection Ha as <-. ring.
Qed.

(** The storage loop adds charging and subtracts discharging. *)
Lemma balance_storage_loop (m : model) (tm : Z) (sit com : string)
  (rho : var -> Q) (l : list sto_tuple) :
  forall acc e,
    foldM (balance_storage m tm sit com) l acc = Ok e ->
    eval rho e ==
    eval rho acc
    + Qsum (map (fun s => rho (e_sto_in tm s) - rho (e_sto_out tm s))
                (filter (fun s : sto_tuple =>
                           let '(st, _, c) := s in
                           (st =? sit)%string && (c =? com)%string) l)).
Proof.
  induction l as [| s l IH]; intros acc e H.
  - simpl in H. injection H as <-. simpl. ring.
  - simpl in H. bind_inv H.
    specialize (IH _ _ H). rewrite IH. clear IH H.
    destruct s as [[s0 s1] s2]. unfold balance_storage in Ha.
    simpl filter.
    destruct ((s0 =? sit)%string && (s2 =? com)%string).
    + bind_inv Ha. getitem_inv Ha0. bind_inv Ha. injection Ha0 as <-.
      bind_inv Ha. getitem_inv Ha0. injection Ha as <-.
      simpl map. rewrite !Qsum_cons. simpl eval. ring.
    + injection Ha as <-. ring.
Qed.

(** Inside the modelled horizon every flow variable of a declared tuple
    exists, so no loop body raises. *)
Lemma foldM_total {A B : Type} (body : B -> A -> result B) (l : list A) :
  (forall acc x, In x l -> exists acc', body acc x = Ok acc') ->
  forall acc, exists r, foldM body l acc = Ok r.
Proof.
  induction l as [| x l IH]; intros Hbody acc.
  - exists acc. reflexivity.
  - destruct (Hbody acc x (or_introl eq_refl)) as [acc' E].
    simpl. rewrite E. simpl. apply IH.
    intros a y Hy. apply Hbody. right. exact Hy.
Qed.

Lemma valid_timed (ts : list Z) {T : Type} (eqb : T -> T -> bool)
  (tuples : list T) (tm : Z) (x : T) :
  (forall a b, eqb a b = true <-> a = b) ->
  In tm ts -> In x tuples ->
  mem Z.eqb tm ts && mem eqb x tuples = true.
Proof.
  intros Heq Ht Hx. apply andb_true_iff. split.
  - apply (mem_In Z.eqb Zeqb_eq). exact Ht.
  - apply (mem_In eqb Heq). exact Hx.
Qed.

Lemma commodity_balance_total (m : model) (tm : Z) (sit com : string) :
  In tm (m_tm m) -> exists e, commodity_balance m tm sit com = Ok e.
Proof.
  intros Ht. unfold commodity_balance.
  destruct (foldM_total (balance_process m tm sit com) (m_pro_tuples m))
    with (acc := EConst 0) as [b1 E1].
  { intros acc p Hp. destruct p as [[[p0 p1] p2] p3]. unfold balance_process.
    rewrite !getitem_valid
      by (simpl; apply (valid_timed _ eqb4 _ _ _ eqb4_eq Ht Hp)).
    destruct ((p0 =? sit)%string && (p2 =? com)%string);
      destruct ((p0 =? sit)%string && (p3 =? com)%string);
      simpl; eexists; reflexivity. }
  rewrite E1. simpl.
  destruct (foldM_total (balance_transmission m tm sit com) (m_tra_tuples m))
    with (acc := b1) as [b2 E2].
  { intros acc t Hin. destruct t as [[[t0 t1] t2] t3].
    unfold balance_transmission.
    rewrite !getitem_valid
      by (simpl; apply (valid_timed _ eqb4 _ _ _ eqb4_eq Ht Hin)).
    destruct ((t0 =? sit)%string && (t3 =? com)%string);
      destruct ((t1 =? sit)%string && (t3 =? com)%string);
      simpl; eexists; reflexivity. }
  rewrite E2. simpl.
  apply foldM_total.
  intros acc s Hin. destruct s as [[s0 s1] s2]. unfold balance_storage.
  rewrite !getitem_valid
    by (simpl; apply (valid_timed _ eqb3 _ _ _ eqb3_eq Ht Hin)).
  destruct ((s0 =? sit)%string && (s2 =? com)%string);
    simpl; eexists; reflexivity.
Qed.

(** C1: for every timestep, site and commodity, the balance that
    [commodity_balance] returns evaluates, under every assignment of the
    variables, to the signed sum of the specification: plus process inputs,
    minus process outputs, plus exports, minus imports, plus charging minus
    discharging; and for every modelled timestep a balance is returned. *)
Theorem commodity_balance_signed_sum (m : model) (tm : Z) (sit com : string) :
  (In tm (m_tm m) -> exists e, commodity_balance m tm sit com = Ok e)
  /\ (forall e, commodity_balance m tm sit com = Ok e ->
      forall rho, eval rho e == balance_sum rho m tm sit com).
Proof.
  split; [apply commodity_balance_total |].
  intros e H rho. unfold commodity_balance in H.
  bind_inv H. bind_inv H.
  rewrite (balance_storage_loop _ _ _ _ rho _ _ _ H).
  rewrite (balance_transmission_loop _ _ _ _ rho _ _ _ Ha0).
  rewrite (balance_process_loop _ _ _ _ rho _ _ _ Ha).
  unfold balance_sum. simpl eval. ring.
Qed.

Lemma commodity_balance_signed_sum_witness :
  exists e,
    commodity_balance Example.sets 1 "A" "Elec" = Ok e
    /\ forall rho, eval rho e == balance_sum rho Example.sets 1 "A" "Elec".
Proof.
  destruct (commodity_balance_signed_sum Example.sets 1 "A" "Elec")
    as [Hex Hsum].
  destruct Hex as [e He]; [simpl; tauto |].
  exists e. split; [exact He | exact (Hsum e He)].
Defined.

(** ** Constraint blocks and the build *)

Lemma Constraint_In (rule : constraint_id -> result rule_result)
  (index : list constraint_id) :
  forall block,
    Constraint rule index = Ok block ->
    forall id rel,
      In (id, rel) block <-> In id index /\ rule id = Ok (Constr rel).
Proof.
  induction index as [| i rest IH]; intros block H id rel.
  - simpl in H. injection H as <-. simpl. tauto.
  - simpl in H. bind_inv H. bind_inv H. injection H as <-.
    specialize (IH _ Ha0 id rel).
    destruct a as [| c]; simpl.
    + rewrite IH. split.
      * intros [Hin Hr]. split; [right; exact Hin | exact Hr].
      * intros [[-> | Hin] Hr]; [congruence | split; assumption].
    + rewrite IH. split.
      * intros [E | [Hin Hr]].
        -- injection E as -> ->. split; [left; reflexivity | exact Ha].
        -- split; [right; exact Hin | exact Hr].
      * intros [[-> | Hin] Hr].
        -- left. rewrite Ha in Hr. injection Hr as ->. reflexivity.
        -- right. split; assumption.
Qed.

Lemma Constraint_rule_Ok (rule : constraint_id -> result rule_result)
  (index : list constraint_id) :
  forall block,
    Constraint rule index = Ok block ->
    forall id, In id index -> exists r, rule id = Ok r.
Proof.
  induction index as [| i rest IH]; intros block H id Hin.
  - destruct Hin.
  - simpl in H. bind_inv H. bind_inv H.
    destruct Hin as [-> | Hin].
    + exists a. exact Ha.
    + exact (IH _ Ha0 id Hin).
Qed.

Lemma Constraint_total (rule : constraint_id -> result rule_result)
  (index : list constraint_id) :
  (forall id, In id index -> exists r, rule id = Ok r) ->
  exists block, Constraint rule index = Ok block.
Proof.
  induction index as [| i rest IH]; intros H.
  - exists []. reflexivity.
  - destruct (H i (or_introl eq_refl)) as [r Hr].
    destruct IH as [block Hb]; [intros id Hin; apply H; right; exact Hin |].
    simpl. rewrite Hr. simpl. rewrite Hb. simpl. eexists. reflexivity.
Qed.

Lemma sequence_Ok {A : Type} (cs : list (result A)) :
  forall rs, sequence cs = Ok rs -> Forall2 (fun c r => c = Ok r) cs rs.
Proof.
  induction cs as [| c cs IH]; intros rs H.
  - simpl in H. injection H as <-. constructor.
  - simpl in H. bind_inv H. bind_inv H. injection H as <-.
    constructor; [exact Ha | apply IH; exact Ha0].
Qed.

Lemma sequence_total {A : Type} (cs : list (result A)) :
  (forall c, In c cs -> exists r, c = Ok r) -> exists rs, sequence cs = Ok rs.
Proof.
  induction cs as [| c cs IH]; intros H.
  - exists []. reflexivity.
  - destruct (H c (or_introl eq_refl)) as [r ->].
    destruct IH as [rs Hrs]; [intros c' Hin; apply H; right; exact Hin |].
    simpl. rewrite Hrs. simpl. eexists. reflexivity.
Qed.

(** The constraints of a sequence of blocks are those of the declared
    identifiers whose rule returned a relation. *)
Lemma blocks_In (rule : constraint_id -> result rule_result)
  (decls : list (list constraint_id)) :
  forall blocks,
    sequence (map (Constraint rule) decls) = Ok blocks ->
    (forall id rel,
        In (id, rel) (List.concat blocks) <->
        (exists decl, In decl decls /\ In id decl) /\ rule id = Ok (Constr rel))
    /\ (forall id, (exists decl, In decl decls /\ In id decl) ->
                   exists r, rule id = Ok r).
Proof.
  induction decls as [| decl decls IH]; intros blocks H.
  - simpl in H. injection H as <-. split.
    + intros id rel. simpl. split; [intros [] | intros [[x [[] _]] _]].
    + intros id [x [[] _]].
  - simpl in H. bind_inv H. bind_inv H. injection H as <-.
    destruct (IH _ Ha0) as [IH1 IH2]. split.
    + intros id rel. simpl. rewrite in_app_iff, IH1, (Constraint_In _ _ _ Ha).
      split.
      * intros [[Hin Hr] | [[x [Hx Hin]] Hr]].
        -- split; [exists decl; split; [left; reflexivity | exact Hin] | exact Hr].
        -- split; [exists x; split; [right; exact Hx | exact Hin] | exact Hr].
      * intros [[x [[<- | Hx] Hin]] Hr].
        -- left. split; assumption.
        -- right. split; [exists x; split; assumption | exact Hr].
    + intros id [x [[<- | Hx] Hin]].
      * exact (Constraint_rule_Ok _ _ _ Ha id Hin).
      * apply IH2. exists x. split; assumption.
Qed.

Lemma blocks_total (rule : constraint_id -> result rule_result)
  (decls : list (list constraint_id)) :
  (forall id, (exists decl, In decl decls /\ In id decl) ->
              exists r, rule id = Ok r) ->
  exists blocks, sequence (map (Constraint rule) decls) = Ok blocks.
Proof.
  intros H. apply sequence_total. intros c Hc.
  apply in_map_iff in Hc. destruct Hc as [decl [<- Hd]].
  apply Constraint_total. intros id Hin. apply H.
  exists decl. split; assumption.
Qed.

Lemma in_timed {T : Type} (name : Z -> T -> constraint_id) (ts : list Z)
  (tuples : list T) (id : constraint_id) :
  In id (timed name ts tuples) <->
  exists t x, id = name t x /\ In t ts /\ In x tuples.
Proof.
  unfold timed. rewrite in_map_iff. split.
  - intros [[t x] [E Hin]]. apply in_prod_iff in Hin.
    exists t, x. split; [symmetry; exact E | exact Hin].
  - intros [t [x [-> Hin]]]. exists (t, x).
    split; [reflexivity | apply in_prod_iff; exact Hin].
Qed.

(** Chooses, among the declarations, the one whose index set holds the
    identifier of the goal. *)
Ltac pick_declaration m k :=
  lazymatch k with
  | 26%nat => fail "no declaration for this identifier"
  | _ =>
      first
        [ solve
            [ exists (nth k (declarations m) []); split;
              [ apply nth_In; simpl; lia
              | simpl nth;
                first
                  [ apply in_timed; eexists; eexists;
                    split; [reflexivity | split; tauto]
                  | apply in_map; tauto
                  | left; reflexivity ] ] ]
        | pick_declaration m (S k) ]
  end.

Lemma declared_iff (m : model) (id : constraint_id) :
  declared m id <-> in_index m id.
Proof.
  split.
  - intros [decl [Hd Hin]]. unfold declarations in Hd. simpl in Hd.
    repeat (destruct Hd as [<- | Hd];
            [ first
                [ apply in_timed in Hin;
                  destruct Hin as [t [x [-> [Ht Hx]]]]; simpl; tauto
                | apply in_map_iff in Hin;
                  destruct Hin as [x [<- Hx]]; simpl; tauto
                | destruct Hin as [<- | []]; exact I ]
            | ]).
    destruct Hd.
  - intros H. unfold declared.
    destruct id; simpl in H; pick_declaration m 0%nat.
Qed.

(** What a successful build contains: exactly the relations returned by the
    rules of the declared identifiers, over the sets derived from the
    tables. *)
Lemma create_model_with_Ok (cts : list string) (d : data) (ts : list Z)
  (dt : Q) (M : ConcreteModel) :
  create_model_with cts d ts dt = Ok M ->
  exists w,
    weight_param ts dt = Ok w
    /\ cm_model M = declare_sets cts d ts dt w
    /\ cm_obj M = obj_rule (cm_model M)
    /\ (forall id rel,
           In (id, rel) (cm_constraints M) <->
           in_index (cm_model M) id
           /\ rule_of (cm_model M) id = Ok (Constr rel))
    /\ (forall id, in_index (cm_model M) id ->
                   exists r, rule_of (cm_model M) id = Ok r).
Proof.
  intros H. unfold create_model_with in H.
  bind_inv H. bind_inv H. injection H as <-. simpl.
  exists a. split; [exact Ha |]. split; [reflexivity |].
  split; [reflexivity |].
  destruct (blocks_In _ _ _ Ha0) as [H1 H2]. split.
  - intros id rel. rewrite H1. fold (declared (declare_sets cts d ts dt a) id).
    rewrite declared_iff. tauto.
  - intros id Hin. apply H2. apply declared_iff. exact Hin.
Qed.

Lemma create_model_with_total (cts : list string) (d : data) (ts : list Z)
  (dt w : Q) :
  weight_param ts dt = Ok w ->
  (forall id, in_index (declare_sets cts d ts dt w) id ->
              exists r, rule_of (declare_sets cts d ts dt w) id = Ok r) ->
  exists M, create_model_with cts d ts dt = Ok M.
Proof.
  intros Hw H. unfold create_model_with. rewrite Hw. cbn [bind].
  destruct (blocks_total (rule_of (declare_sets cts d ts dt w))
              (declarations (declare_sets cts d ts dt w))) as [blocks Hb].
  - intros id Hd. apply H. apply declared_iff. exact Hd.
  - rewrite Hb. cbn [bind]. eexists. reflexivity.
Qed.

(** A rule that raises at a declared index makes the build raise. *)
Lemma create_model_with_raises (cts : list string) (d : data) (ts : list Z)
  (dt : Q) :
  (forall w, weight_param ts dt = Ok w ->
             exists id e, in_index (declare_sets cts d ts dt w) id
                          /\ rule_of (declare_sets cts d ts dt w) id = Raise e) ->
  exists e, create_model_with cts d ts dt = Raise e.
Proof.
  intros H. destruct (create_model_with cts d ts dt) as [M | e] eqn:E.
  - exfalso. destruct (create_model_with_Ok _ _ _ _ _ E)
      as [w [Hw [Hm [_ [_ Hall]]]]].
    destruct (H w Hw) as [id [e [Hin Hr]]].
    rewrite <- Hm in Hin, Hr. destruct (Hall id Hin) as [r Hr'].
    congruence.
  - exists e. reflexivity.
Qed.

(** ** Rules that cannot raise *)

Lemma declare_sets_consistent (cts : list string) (d : data) (ts : list Z)
  (dt w : Q) : consistent (declare_sets cts d ts dt w).
Proof.
  constructor; simpl; try reflexivity.
  intros x Hx. destruct ts as [| t ts]; [destruct Hx | right; exact Hx].
Qed.

Lemma mapM_total {A B : Type} (f : A -> result B) (l : list A) :
  (forall x, In x l -> exists y, f x = Ok y) -> exists ys, mapM f l = Ok ys.
Proof.
  induction l as [| x l IH]; intros H.
  - exists []. reflexivity.
  - destruct (H x (or_introl eq_refl)) as [y Hy].
    destruct IH as [ys Hys]; [intros z Hz; apply H; right; exact Hz |].
    simpl. rewrite Hy. simpl. rewrite Hys. simpl. eexists. reflexivity.
Qed.

Lemma ordered_getitem_first (l : list Z) (t : Z) :
  In t l -> exists x, ordered_getitem l 1 = Ok x /\ hd_error l = Some x.
Proof.
  destruct l as [| x l]; [intros [] |]. intros _. exists x. split; reflexivity.
Qed.

Lemma ordered_getitem_last (l : list Z) (t : Z) :
  In t l ->
  exists x, ordered_getitem l (List.length l) = Ok x /\ x = last l 0%Z.
Proof.
  destruct l as [| y l]; [intros [] |]. intros _.
  exists (last (y :: l) 0%Z). split; [| reflexivity].
  unfold ordered_getitem. cbn [List.length].
  replace (nth_error (y :: l) (List.length l))
    with (Some (last (y :: l) 0%Z)); [reflexivity |].
  clear t. revert y. induction l as [| z l IH]; intros y.
  - reflexivity.
  - cbn [List.length nth_error]. rewrite <- (IH z). reflexivity.
Qed.

(** Proves that the index of a variable is valid from the memberships in the
    context. *)
Ltac solve_valid :=
  simpl valid_index;
  repeat (apply andb_true_iff; split);
  first
    [ apply (mem_In Z.eqb Zeqb_eq); solve [auto]
    | apply (mem_In eqb3 eqb3_eq); solve [auto]
    | apply (mem_In eqb4 eqb4_eq); solve [auto]
    | apply (mem_In String.eqb String.eqb_eq); solve [auto] ].

(** Runs one lookup of the rule in the goal, given that its key exists. *)
Ltac step_rule :=
  match goal with
  | |- context [getitem ?m ?v] =>
      rewrite (getitem_valid m v) by solve_valid
  | C : consistent ?m |- context [loc eqb3 (m_commodity ?m) ?k] =>
      let row := fresh "row" in
      let H := fresh "Hrow" in
      let Hk := fresh "Hk" in
      assert (Hk : In k (map fst (m_commodity m)))
        by (rewrite <- (c_com m C); solve [auto]);
      destruct (loc_In eqb3 eqb3_eq k (m_commodity m) Hk) as [row H];
      rewrite H; clear Hk
  | C : consistent ?m |- context [loc eqb4 (m_process ?m) ?k] =>
      let row := fresh "row" in
      let H := fresh "Hrow" in
      let Hk := fresh "Hk" in
      assert (Hk : In k (map fst (m_process m)))
        by (rewrite <- (c_pro m C); solve [auto]);
      destruct (loc_In eqb4 eqb4_eq k (m_process m) Hk) as [row H];
      rewrite H; clear Hk
  | C : consistent ?m |- context [loc eqb4 (m_transmission ?m) ?k] =>
      let row := fresh "row" in
      let H := fresh "Hrow" in
      let Hk := fresh "Hk" in
      assert (Hk : In k (map fst (m_transmission m)))
        by (rewrite <- (c_tra m C); solve [auto]);
      destruct (loc_In eqb4 eqb4_eq k (m_transmission m) Hk) as [row H];
      rewrite H; clear Hk
  | C : consistent ?m |- context [loc eqb3 (m_storage ?m) ?k] =>
      let row := fresh "row" in
      let H := fresh "Hrow" in
      let Hk := fresh "Hk" in
      assert (Hk : In k (map fst (m_storage m)))
        by (rewrite <- (c_sto m C); solve [auto]);
      destruct (loc_In eqb3 eqb3_eq k (m_storage m) Hk) as [row H];
      rewrite H; clear Hk
  end; cbn [bind].

Ltac run_rule := repeat step_rule; try (eexists; reflexivity).

Lemma pdiv_Ok (e : expr) (q : Q) :
  Qeq_bool q 0 = false -> pdiv e q = Ok (EDiv e (EConst q)).
Proof. intros H. unfold pdiv. rewrite H. reflexivity. Qed.

Lemma res_stock_total_loop_total (m : model) (c : com_tuple) :
  In c (m_com_tuples m) ->
  forall l, incl l (m_tm m) ->
  forall acc, exists e,
    foldM (fun total tm =>
             v <- getitem m (e_co_stock tm c) ;;
             Ok (EAdd total (EMul v (EConst (m_dt m))))) l acc = Ok e.
Proof.
  intros Hc l Hl. apply foldM_total. intros acc tm Htm.
  apply Hl in Htm. run_rule.
Qed.

Lemma def_costs_rule_total (m : model) (ct : string) :
  consistent m -> In ct (m_cost_type m) -> In ct cost_types ->
  exists rhs, def_costs_rule m ct = Ok (Constr (REq (EVar (costs ct)) rhs)).
Proof.
  intros C Hin Hknown. unfold cost_types in Hknown. simpl in Hknown.
  pose proof (c_tm m C) as Htm.
  unfold def_costs_rule.
  destruct Hknown as [<- | [<- | [<- | [<- | []]]]]; cbn [String.eqb Ascii.eqb Bool.eqb];
    step_rule.
  - destruct (mapM_total (fun p =>
        v <- getitem m (cap_pro_new p) ;;
        inv <- loc eqb4 (m_process m) p ;;
        af <- loc eqb4 (m_process m) p ;;
        Ok (EMul (EMul v (EConst (pro_inv_cost inv)))
                 (EConst (pro_annuity_factor af)))) (m_pro_tuples m))
      as [l1 ->]; [intros p Hp; run_rule |].
    cbn [bind].
    destruct (mapM_total (fun t =>
        v <- getitem m (cap_tra_new t) ;;
        inv <- loc eqb4 (m_transmission m) t ;;
        af <- loc eqb4 (m_transmission m) t ;;
        Ok (EMul (EMul v (EConst (tra_inv_cost inv)))
                 (EConst (tra_annuity_factor af)))) (m_tra_tuples m))
      as [l2 ->]; [intros p Hp; run_rule |].
    cbn [bind].
    destruct (mapM_total (fun s =>
        vp <- getitem m (cap_sto_p_new s) ;;
        invp <- loc eqb3 (m_storage m) s ;;
        afp <- loc eqb3 (m_storage m) s ;;
        vc <- getitem m (cap_sto_c_new s) ;;
        invc <- loc eqb3 (m_storage m) s ;;
        afc <- loc eqb3 (m_storage m) s ;;
        Ok (EAdd (EMul (EMul vp (EConst (sto_inv_cost_p invp)))
                       (EConst (sto_annuity_factor afp)))
                 (EMul (EMul vc (EConst (sto_inv_cost_c invc)))
                       (EConst (sto_annuity_factor afc))))) (m_sto_tuples m))
      as [l3 ->]; [intros p Hp; run_rule |].
    cbn [bind]. eexists. reflexivity.
  - destruct (mapM_total (fun p =>
        v <- getitem m (cap_pro p) ;;
        row <- loc eqb4 (m_process m) p ;;
        Ok (EMul v (EConst (pro_fix_cost row)))) (m_pro_tuples m))
      as [l1 ->]; [intros p Hp; run_rule |].
    cbn [bind].
    destruct (mapM_total (fun t =>
        v <- getitem m (cap_tra t) ;;
        row <- loc eqb4 (m_transmission m) t ;;
        Ok (EMul v (EConst (tra_fix_cost row)))) (m_tra_tuples m))
      as [l2 ->]; [intros p Hp; run_rule |].
    cbn [bind].
    destruct (mapM_total (fun s =>
        vp <- getitem m (cap_sto_p s) ;;
        rowp <- loc eqb3 (m_storage m) s ;;
        vc <- getitem m (cap_sto_c s) ;;
        rowc <- loc eqb3 (m_storage m) s ;;
        Ok (EAdd (EMul vp (EConst (sto_fix_cost_p rowp)))
                 (EMul vc (EConst (sto_fix_cost_c rowc))))) (m_sto_tuples m))
      as [l3 ->]; [intros p Hp; run_rule |].
    cbn [bind]. eexists. reflexivity.
  - destruct (mapM_total (fun i : Z * pro_tuple =>
        let '(tm, p) := i in
        v <- getitem m (e_pro_out tm p) ;;
        row <- loc eqb4 (m_process m) p ;;
        Ok (EMul (EMul (EMul v (EConst (m_dt m))) (EConst (pro_var_cost row)))
                 (EConst (m_weight m))))
        (list_prod (m_tm m) (m_pro_tuples m)))
      as [l1 ->];
      [intros [tm p] Hp; apply in_prod_iff in Hp; destruct Hp; run_rule |].
    cbn [bind].
    destruct (mapM_total (fun i : Z * tra_tuple =>
        let '(tm, t) := i in
        v <- getitem m (e_tra_in tm t) ;;
        row <- loc eqb4 (m_transmission m) t ;;
        Ok (EMul (EMul (EMul v (EConst (m_dt m))) (EConst (tra_var_cost row)))
                 (EConst (m_weight m))))
        (list_prod (m_tm m) (m_tra_tuples m)))
      as [l2 ->];
      [intros [tm p] Hp; apply in_prod_iff in Hp; destruct Hp; run_rule |].
    cbn [bind].
    destruct (mapM_total (fun i : Z * sto_tuple =>
        let '(tm, s) := i in
        con <- getitem m (e_sto_con tm s) ;;
        rowc <- loc eqb3 (m_storage m) s ;;
        inp <- getitem m (e_sto_in tm s) ;;
        out <- getitem m (e_sto_out tm s) ;;
        rowp <- loc eqb3 (m_storage m) s ;;
        Ok (EAdd (EMul (EMul con (EConst (sto_var_cost_c rowc)))
                       (EConst (m_weight m)))
                 (EMul (EMul (EMul (EAdd inp out) (EConst (m_dt m)))
                             (EConst (sto_var_cost_p rowp)))
                       (EConst (m_weight m)))))
        (list_prod (m_tm m) (m_sto_tuples m)))
      as [l3 ->];
      [intros [tm p] Hp; apply in_prod_iff in Hp; destruct Hp as [Ht Hp];
       pose proof (Htm _ Ht); run_rule |].
    cbn [bind]. eexists. reflexivity.
  - destruct (mapM_total (fun i : Z * com_tuple =>
        let '(tm, c) := i in
        v <- getitem m (e_co_stock tm c) ;;
        row <- loc eqb3 (m_commodity m) c ;;
        Ok (EMul (EMul (EMul v (EConst (m_dt m))) (EConst (com_price row)))
                 (EConst (m_weight m))))
        (filter (fun i : Z * com_tuple =>
                   mem String.eqb (snd (fst (snd i))) (m_com_stock m))
                (list_prod (m_tm m) (m_com_tuples m))))
      as [l1 ->];
      [intros [tm p] Hp; apply filter_In in Hp; destruct Hp as [Hp _];
       apply in_prod_iff in Hp; destruct Hp; run_rule |].
    cbn [bind]. eexists. reflexivity.
Qed.

(** On a complete input no rule raises at an index of its declaration. *)
Lemma rule_of_total (m : model) :
  consistent m -> complete m ->
  forall id, in_index m id -> implemented id -> exists r, rule_of m id = Ok r.
Proof.
  intros C W id H Himpl. pose proof (c_tm m C) as Htm.
  destruct id; simpl in H; cbn [rule_of];
    try (lazymatch type of H with _ /\ _ => destruct H as [Ht Hx] end);
    try (pose proof (Htm _ Ht) as Ht').
  - destruct c as [[sit com] ty]. unfold res_demand_rule.
    destruct (mem String.eqb com (m_com_demand m)) eqn:E; simpl negb; cbv iota.
    + destruct (commodity_balance_total m tm sit com Ht) as [b ->]. cbn [bind].
      destruct (has_demand m W tm sit com ty Ht Hx E) as [q ->]. cbn [bind].
      eexists. reflexivity.
    + eexists. reflexivity.
  - destruct c as [[sit com] ty]. unfold def_e_co_stock_rule.
    destruct (mem String.eqb com (m_com_stock m)); simpl negb; cbv iota.
    + step_rule.
      destruct (commodity_balance_total m tm sit com Ht) as [b ->]. cbn [bind].
      eexists. reflexivity.
    + eexists. reflexivity.
  - destruct c as [[sit com] ty]. unfold res_stock_step_rule.
    destruct (mem String.eqb com (m_com_stock m)); simpl negb; cbv iota.
    + run_rule.
    + eexists. reflexivity.
  - destruct c as [[sit com] ty]. unfold res_stock_total_rule.
    destruct (mem String.eqb com (m_com_stock m)); simpl negb; cbv iota.
    + destruct (res_stock_total_loop_total m (sit, com, ty) H (m_tm m)
                  (incl_refl _) (EConst 0)) as [e ->].
      cbn [bind]. run_rule.
    + eexists. reflexivity.
  - unfold def_process_capacity_rule. run_rule.
  - unfold def_process_output_rule. run_rule.
  - destruct p as [[[sit pro] coin] cout]. unfold def_intermittent_supply_rule.
    destruct (mem String.eqb coin (m_com_supim m)) eqn:E.
    + repeat step_rule.
      destruct (has_supim m W tm sit pro coin cout Ht Hx E) as [q ->].
      cbn [bind]. eexists. reflexivity.
    + eexists. reflexivity.
  - unfold def_co2_emissions_rule. run_rule.
  - unfold res_process_output_by_capacity_rule. run_rule.
  - unfold res_process_capacity_rule. run_rule.
  - unfold def_transmission_capacity_rule. run_rule.
  - unfold def_transmission_output_rule. run_rule.
  - unfold res_transmission_input_by_capacity_rule. run_rule.
  - unfold res_transmission_capacity_rule. run_rule.
  - destruct t as [[[sin sout] tra] com]. unfold res_transmission_symmetry_rule.
    pose proof (has_mirror m W sin sout tra com H) as Hmirror.
    run_rule.
  - unfold def_storage_state_rule.
    pose proof (has_prev m W tm s Ht Hx) as Hprev.
    repeat step_rule.
    apply (loc_Ok eqb3 eqb3_eq) in Hrow.
    rewrite (pdiv_Ok _ _ (has_eff_out m W s row Hrow)). cbn [bind].
    eexists. reflexivity.
  - unfold def_storage_power_rule. run_rule.
  - unfold def_storage_capacity_rule. run_rule.
  - unfold res_storage_input_by_power_rule. run_rule.
  - unfold res_storage_output_by_power_rule. run_rule.
  - unfold res_storage_state_by_capacity_rule. run_rule.
  - unfold res_storage_power_rule. run_rule.
  - unfold res_storage_capacity_rule. run_rule.
  - unfold res_initial_and_final_storage_state_rule.
    destruct (ordered_getitem_first (m_t m) t Ht) as [x [-> _]]. cbn [bind].
    destruct (ordered_getitem_last (m_t m) t Ht) as [y [-> _]].
    destruct (t =? x)%Z; [run_rule |]. cbn [bind].
    destruct (t =? y)%Z; [run_rule | eexists; reflexivity].
  - unfold res_co2_emission_rule.
    pose proof (has_co2 m W) as Hco2. run_rule.
  - destruct (def_costs_rule_total m cost_type C H Himpl)
      as [rhs ->]. eexists. reflexivity.
Qed.

Lemma forallb_In {A : Type} (f : A -> bool) (l : list A) (x : A) :
  forallb f l = true -> In x l -> f x = true.
Proof. intros H Hin. rewrite forallb_forall in H. exact (H x Hin). Qed.

Lemma is_ok_Ok {A : Type} (r : result A) :
  is_ok r = true -> exists a, r = Ok a.
Proof. destruct r as [a | e]; [exists a; reflexivity | discriminate]. Qed.

(** The decided conditions give a complete input. *)
Lemma wf_input_complete (cts : list string) (d : data) (ts : list Z)
  (dt : Q) :
  wf_input d ts dt = true ->
  exists w, weight_param ts dt = Ok w
            /\ complete (declare_sets cts d ts dt w).
Proof.
  unfold wf_input. rewrite !andb_true_iff.
  intros [[[[[Hw Hd] Hs] Hm] Hst] Hco2].
  destruct (is_ok_Ok _ Hw) as [w Ew]. exists w. split; [exact Ew |].
  constructor; simpl.
  - intros tm sit com ty Ht Hc E.
    apply is_ok_Ok.
    pose proof (forallb_In _ _ _ (forallb_In _ _ _ Hd Ht) Hc) as H.
    simpl in H. rewrite E in H. exact H.
  - intros tm sit pro coin cout Ht Hp E.
    apply is_ok_Ok.
    pose proof (forallb_In _ _ _ (forallb_In _ _ _ Hs Ht) Hp) as H.
    simpl in H. rewrite E in H. exact H.
  - intros sin sout tra com Hin.
    pose proof (forallb_In _ _ _ Hm Hin) as H. simpl in H.
    apply (mem_In eqb4 eqb4_eq) in H. exact H.
  - intros tm s Ht Hs'. apply in_map_iff in Hs'.
    destruct Hs' as [[s' row] [_ Hin]].
    pose proof (forallb_In _ _ _ Hst Hin) as H.
    apply andb_true_iff in H. destruct H as [_ H].
    apply (mem_In Z.eqb Zeqb_eq). exact (forallb_In _ _ _ H Ht).
  - intros s row Hin.
    pose proof (forallb_In _ _ _ Hst Hin) as H.
    apply andb_true_iff in H. destruct H as [H _]. simpl in H.
    destruct (Qeq_bool (sto_eff_out row) 0); [discriminate H | reflexivity].
  - apply (mem_In eqb3 eqb3_eq). exact Hco2.
Qed.

(** On an input that passes [wf_input], no statement of [create_model]
    raises. *)
Lemma create_model_total (d : data) (ts : list Z) (dt : Q) :
  wf_input d ts dt = true -> exists M, create_model d ts dt = Ok M.
Proof.
  intros H. destruct (wf_input_complete cost_types d ts dt H) as [w [Hw Hc]].
  apply (create_model_with_total cost_types d ts dt w Hw).
  intros id Hid.
  apply rule_of_total; [apply declare_sets_consistent | exact Hc | exact Hid |].
  destruct id; try exact I. exact Hid.
Qed.

(** ** Storage state transition *)

Lemma def_storage_state_rule_Ok (m : model) (t : Z) (s : sto_tuple)
  (r : rule_result) :
  def_storage_state_rule m t s = Ok r ->
  exists row,
    loc eqb3 (m_storage m) s = Ok row
    /\ r = Constr (storage_state_relation (m_dt m) t (t - 1) s row)
    /\ valid_index m (e_sto_con (t - 1) s) = true.
Proof.
  intros H. unfold def_storage_state_rule in H.
  bind_inv H. getitem_inv Ha.
  bind_inv H. getitem_inv Ha.
  bind_inv H. getitem_inv Ha.
  bind_inv H. rename a into row, Ha into Hrow.
  bind_inv H. getitem_inv Ha.
  bind_inv H. rewrite Hrow in Ha. injection Ha as <-.
  bind_inv H. unfold pdiv in Ha.
  destruct (Qeq_bool (sto_eff_out row) 0); [discriminate Ha |].
  injection Ha as <-. injection H as <-.
  exists row. split; [exact Hrow |]. split; [reflexivity | exact Hvalid0].
Qed.

Lemma prev_in_order_consecutive (ts : list Z) :
  consecutive ts = true ->
  forall t, In t (tl ts) -> prev_in_order ts t = Some (t - 1)%Z.
Proof.
  induction ts as [| a rest IH]; intros Hc t Hin; [destruct Hin |].
  destruct rest as [| b rest']; [destruct Hin |].
  cbn [consecutive] in Hc. apply andb_true_iff in Hc. destruct Hc as [Hb Hc].
  apply Z.eqb_eq in Hb. cbn [prev_in_order].
  destruct (b =? t)%Z eqn:E.
  - apply Z.eqb_eq in E. f_equal. lia.
  - apply IH; [exact Hc |]. cbn [tl] in Hin |- *.
    destruct Hin as [Hin | Hin]; [| exact Hin].
    apply Z.eqb_neq in E. contradiction.
Qed.

(** The state-transition constraint a successful build holds for a storage
    tuple at a modelled timestep. *)
Lemma def_storage_state_generated (d : data) (ts : list Z) (dt : Q)
  (M : ConcreteModel) :
  create_model d ts dt = Ok M ->
  forall t s, In t (tl ts) -> In s (map fst (storage d)) ->
  exists row,
    loc eqb3 (storage d) s = Ok row
    /\ In (t - 1)%Z ts
    /\ (forall rel,
           In (def_storage_state t s, rel) (cm_constraints M) <->
           rel = storage_state_relation dt t (t - 1) s row).
Proof.
  intros HM t s Ht Hs.
  destruct (create_model_with_Ok _ _ _ _ _ HM) as [w [Hw [Hm [_ [Hin Hall]]]]].
  assert (in_index (cm_model M) (def_storage_state t s)) as Hidx
    by (rewrite Hm; simpl; split; assumption).
  destruct (Hall _ Hidx) as [r Hr]. cbn [rule_of] in Hr.
  destruct (def_storage_state_rule_Ok _ _ _ _ Hr) as [row [Hrow [-> Hprev]]].
  rewrite Hm in Hrow, Hprev. simpl in Hrow, Hprev.
  apply andb_true_iff in Hprev. destruct Hprev as [Hprev _].
  apply (mem_In Z.eqb Zeqb_eq) in Hprev.
  exists row. split; [exact Hrow |]. split; [exact Hprev |].
  intros rel. rewrite Hin. cbn [rule_of]. rewrite Hr.
  replace (m_dt (cm_model M)) with dt by (rewrite Hm; reflexivity).
  split.
  - intros [_ E]. injection E as <-. reflexivity.
  - intros ->. split; [exact Hidx | reflexivity].
Qed.

(** C2, as stated, fails: the timestep before [t] is found by subtracting
    one from the identifier.  On the horizon [1, 3, 2] the constraint at
    timestep [3] refers to the content at [2], while the element before [3]
    is [1]; on the two-hourly horizon [0, 2, 4] the rule looks up the content
    at [1], which does not exist, and the build raises. *)
Lemma storage_state_uses_identifier_minus_one :
  (exists M,
      create_model Example.system [1; 3; 2]%Z 1 = Ok M
      /\ prev_in_order [1; 3; 2]%Z 3 = Some 1%Z
      /\ In (def_storage_state 3 Example.battery,
             storage_state_relation 1 3 2 Example.battery Example.srow)
            (cm_constraints M)
      /\ ~ In (def_storage_state 3 Example.battery,
               storage_state_relation 1 3 1 Example.battery Example.srow)
              (cm_constraints M))
  /\ (exists w,
        weight_param [0; 2; 4]%Z 2 = Ok w
        /\ def_storage_state_rule
             (declare_sets cost_types Example.system [0; 2; 4]%Z 2 w)
             2 Example.battery = Raise KeyError)
  /\ create_model Example.system [0; 2; 4]%Z 2 = Raise KeyError.
Proof.
  split; [| split].
  - destruct (create_model_total Example.system [1; 3; 2]%Z 1) as [M HM];
      [vm_compute; reflexivity |].
    exists M. split; [exact HM |]. split; [reflexivity |].
    destruct (def_storage_state_generated _ _ _ _ HM 3%Z Example.battery)
      as [row [Hrow [_ Hiff]]]; [simpl; tauto | simpl; tauto |].
    vm_compute in Hrow. injection Hrow as <-.
    split.
    + apply Hiff. reflexivity.
    + intros H. apply Hiff in H. discriminate H.
  - eexists. split; [vm_compute; reflexivity | vm_compute; reflexivity].
  - vm_compute. reflexivity.
Qed.

(** C2, amended: in every model that [create_model] returns, each storage
    tuple has at each modelled timestep [t] exactly the state-transition
    constraint
    [content[t] = content[t-1] + input[t]*eff_in*dt - output[t]/eff_out*dt],
    where [t-1] is the timestep whose identifier is one less than [t] and
    belongs to the horizon; the constraint mentions exactly [content[t]],
    [content[t-1]], [input[t]] and [output[t]], and moved to one side their
    coefficients are [-1], [1], [eff_in*dt] and [-dt/eff_out].  When the
    identifiers of the horizon are consecutive integers, [t-1] is the element
    just before [t]. *)
Theorem storage_state_transition (d : data) (ts : list Z) (dt : Q) :
  (forall M, create_model d ts dt = Ok M ->
      forall t s, In t (tl ts) -> In s (map fst (storage d)) ->
      exists row,
        loc eqb3 (storage d) s = Ok row
        /\ In (t - 1)%Z ts
        /\ (forall rel,
               In (def_storage_state t s, rel) (cm_constraints M) <->
               rel = storage_state_relation dt t (t - 1) s row)
        /\ rel_vars (storage_state_relation dt t (t - 1) s row)
           = [e_sto_con t s; e_sto_con (t - 1) s; e_sto_in t s; e_sto_out t s]
        /\ (forall rho,
               eval rho (ESub (EAdd (EVar (e_sto_con (t - 1) s))
                                    (EMul (EMul (EVar (e_sto_in t s))
                                                (EConst (sto_eff_in row)))
                                          (EConst dt)))
                              (EMul (EDiv (EVar (e_sto_out t s))
                                          (EConst (sto_eff_out row)))
                                    (EConst dt)))
               - eval rho (EVar (e_sto_con t s))
               == 1 * rho (e_sto_con (t - 1) s)
                  + (sto_eff_in row * dt) * rho (e_sto_in t s)
                  + - (dt / sto_eff_out row) * rho (e_sto_out t s)
                  + -1 * rho (e_sto_con t s)))
  /\ (consecutive ts = true ->
      forall t, In t (tl ts) -> prev_in_order ts t = Some (t - 1)%Z).
Proof.
  split.
  - intros M HM t s Ht Hs.
    destruct (def_storage_state_generated d ts dt M HM t s Ht Hs)
      as [row [Hrow [Hprev Hiff]]].
    exists row. split; [exact Hrow |]. split; [exact Hprev |].
    split; [exact Hiff |]. split; [reflexivity |].
    intros rho. simpl eval. unfold Qdiv. ring.
  - apply prev_in_order_consecutive.
Qed.

Lemma storage_state_transition_witness :
  exists M,
    create_model Example.system Example.horizon 1 = Ok M
    /\ In (def_storage_state 1 Example.battery,
           storage_state_relation 1 1 0 Example.battery Example.srow)
          (cm_constraints M)
    /\ prev_in_order Example.horizon 1 = Some 0%Z.
Proof.
  destruct (storage_state_transition Example.system Example.horizon 1)
    as [Hgen Hprev].
  destruct (create_model_total Example.system Example.horizon 1)
    as [M HM]; [vm_compute; reflexivity |].
  exists M. split; [exact HM |]. split.
  - destruct (Hgen M HM 1%Z Example.battery)
      as [row [Hrow [_ [Hiff _]]]]; [simpl; tauto | simpl; tauto |].
    vm_compute in Hrow. injection Hrow as <-. apply Hiff. reflexivity.
  - apply (Hprev eq_refl 1%Z). simpl. tauto.
Defined.

(** ** Commodities by type *)

Lemma commodities_of_type_In (ty com : string) (tuples : list com_tuple) :
  In com (commodities_of_type ty tuples) <->
  exists sit, In (sit, com, ty) tuples.
Proof.
  unfold commodities_of_type, unique. rewrite nodup_In, in_map_iff. split.
  - intros [[[sit c] ty'] [E Hin]]. simpl in E. subst c.
    apply filter_In in Hin. destruct Hin as [Hin Hty]. simpl in Hty.
    apply String.eqb_eq in Hty. subst ty'. exists sit. exact Hin.
  - intros [sit Hin]. exists (sit, com, ty). split; [reflexivity |].
    apply filter_In. split; [exact Hin | apply String.eqb_refl].
Qed.

Lemma mem_commodities_of_type (ty com : string) (tuples : list com_tuple) :
  mem String.eqb com (commodities_of_type ty tuples) = true <->
  exists sit, In (sit, com, ty) tuples.
Proof.
  rewrite (mem_In String.eqb String.eqb_eq). apply commodities_of_type_In.
Qed.

(** ** Intermittent supply and the capacity ceiling of processes *)

Lemma def_intermittent_supply_rule_Ok (m : model) (tm : Z)
  (sit pro coin cout : string) (r : rule_result) :
  def_intermittent_supply_rule m tm (sit, pro, coin, cout) = Ok r ->
  if mem String.eqb coin (m_com_supim m)
  then exists q,
         series_loc (m_supim m) tm (sit, coin) = Ok q
         /\ r = Constr (REq (EVar (e_pro_in tm (sit, pro, coin, cout)))
                            (EMul (EVar (cap_pro (sit, pro, coin, cout)))
                                  (EConst q)))
  else r = Skip.
Proof.
  unfold def_intermittent_supply_rule.
  destruct (mem String.eqb coin (m_com_supim m)); intros H.
  - bind_inv H. getitem_inv Ha. bind_inv H. getitem_inv Ha. bind_inv H.
    injection H as <-. exists a. split; [exact Ha | reflexivity].
  - injection H as <-. reflexivity.
Qed.

Lemma res_process_output_by_capacity_rule_Ok (m : model) (tm : Z)
  (p : pro_tuple) (r : rule_result) :
  res_process_output_by_capacity_rule m tm p = Ok r ->
  r = Constr (RLe (EVar (e_pro_out tm p)) (EVar (cap_pro p))).
Proof.
  unfold res_process_output_by_capacity_rule. intros H.
  bind_inv H. getitem_inv Ha. bind_inv H. getitem_inv Ha.
  injection H as <-. reflexivity.
Qed.

(** The two constraints a successful build holds for a process at a
    modelled timestep. *)
Lemma process_supply_generated (d : data) (ts : list Z) (dt : Q)
  (M : ConcreteModel) :
  create_model d ts dt = Ok M ->
  forall tm sit pro coin cout,
    In tm (tl ts) -> In (sit, pro, coin, cout) (map fst (process d)) ->
    (forall rel,
        In (res_process_output_by_capacity tm (sit, pro, coin, cout), rel)
           (cm_constraints M) <->
        rel = RLe (EVar (e_pro_out tm (sit, pro, coin, cout)))
                  (EVar (cap_pro (sit, pro, coin, cout))))
    /\ ((exists s, In (s, coin, "SupIm") (map fst (commodity d))) ->
        exists q,
          series_loc (supim d) tm (sit, coin) = Ok q
          /\ forall rel,
               In (def_intermittent_supply tm (sit, pro, coin, cout), rel)
                  (cm_constraints M) <->
               rel = REq (EVar (e_pro_in tm (sit, pro, coin, cout)))
                         (EMul (EVar (cap_pro (sit, pro, coin, cout)))
                               (EConst q)))
    /\ (~ (exists s, In (s, coin, "SupIm") (map fst (commodity d))) ->
        forall rel,
          ~ In (def_intermittent_supply tm (sit, pro, coin, cout), rel)
               (cm_constraints M)).
Proof.
  intros HM tm sit pro coin cout Ht Hp.
  destruct (create_model_with_Ok _ _ _ _ _ HM) as [w [Hw [Hm [_ [Hin Hall]]]]].
  assert (in_index (cm_model M)
            (res_process_output_by_capacity tm (sit, pro, coin, cout))) as Hi1
    by (rewrite Hm; simpl; split; assumption).
  assert (in_index (cm_model M)
            (def_intermittent_supply tm (sit, pro, coin, cout))) as Hi2
    by (rewrite Hm; simpl; split; assumption).
  destruct (Hall _ Hi1) as [r1 Hr1]. destruct (Hall _ Hi2) as [r2 Hr2].
  cbn [rule_of] in Hr1, Hr2.
  pose proof (res_process_output_by_capacity_rule_Ok _ _ _ _ Hr1) as ->.
  pose proof (def_intermittent_supply_rule_Ok _ _ _ _ _ _ _ Hr2) as H2.
  assert (mem String.eqb coin (m_com_supim (cm_model M)) = true <->
          exists s, In (s, coin, "SupIm") (map fst (commodity d))) as Hsup
    by (rewrite Hm; simpl; apply mem_commodities_of_type).
  split; [| split].
  - intros rel. rewrite Hin. cbn [rule_of]. rewrite Hr1. split.
    + intros [_ E]. injection E as <-. reflexivity.
    + intros ->. split; [exact Hi1 | reflexivity].
  - intros Hs. apply Hsup in Hs. rewrite Hs in H2.
    destruct H2 as [q [Hq ->]]. exists q. split.
    + rewrite Hm in Hq. exact Hq.
    + intros rel. rewrite Hin. cbn [rule_of]. rewrite Hr2. split.
      * intros [_ E]. injection E as <-. reflexivity.
      * intros ->. split; [exact Hi2 | reflexivity].
  - intros Hs rel Hrel.
    destruct (mem String.eqb coin (m_com_supim (cm_model M))) eqn:E.
    + apply Hs, Hsup. reflexivity.
    + subst r2. apply Hin in Hrel. destruct Hrel as [_ Hrel].
      cbn [rule_of] in Hrel. rewrite Hr2 in Hrel. discriminate Hrel.
Qed.

(** C3, as stated, fails: the wind turbine of the example reads a
    supply-intermittent commodity, its input is pinned to capacity times
    availability, and the inequality output <= capacity is generated for it
    all the same. *)
Lemma intermittent_process_keeps_capacity_ceiling :
  In ("A", "Wind", "SupIm") (map fst (commodity Example.system))
  /\ exists M,
       create_model Example.system Example.horizon 1 = Ok M
       /\ In (def_intermittent_supply 1 Example.wind,
              REq (EVar (e_pro_in 1 Example.wind))
                  (EMul (EVar (cap_pro Example.wind)) (EConst (3 # 10))))
             (cm_constraints M)
       /\ In (res_process_output_by_capacity 1 Example.wind,
              RLe (EVar (e_pro_out 1 Example.wind))
                  (EVar (cap_pro Example.wind)))
             (cm_constraints M).
Proof.
  split; [simpl; tauto |].
  destruct (create_model_total Example.system Example.horizon 1) as [M HM];
    [vm_compute; reflexivity |].
  exists M. split; [exact HM |].
  destruct (process_supply_generated _ _ _ _ HM 1%Z "A" "wt" "Wind" "Elec")
    as [Hcap [Hsup _]]; [simpl; tauto | simpl; tauto |].
  split.
  - destruct Hsup as [q [Hq Hiff]]; [exists "A"; simpl; tauto |].
    vm_compute in Hq. injection Hq as <-. apply Hiff. reflexivity.
  - apply Hcap. reflexivity.
Qed.

(** C3, amended: in every model that [create_model] returns, a process
    whose input commodity is supply-intermittent has at every modelled
    timestep the constraint input flow = total capacity * availability, with
    the availability read from the series; for every other process that
    constraint is skipped; and the inequality output flow <= total capacity
    is generated for every process at every modelled timestep, the
    intermittent ones included. *)
Theorem intermittent_supply_and_capacity_ceiling (d : data) (ts : list Z)
  (dt : Q) (M : ConcreteModel) :
  create_model d ts dt = Ok M ->
  forall tm sit pro coin cout,
    In tm (tl ts) -> In (sit, pro, coin, cout) (map fst (process d)) ->
    (forall rel,
        In (res_process_output_by_capacity tm (sit, pro, coin, cout), rel)
           (cm_constraints M) <->
        rel = RLe (EVar (e_pro_out tm (sit, pro, coin, cout)))
                  (EVar (cap_pro (sit, pro, coin, cout))))
    /\ ((exists s, In (s, coin, "SupIm") (map fst (commodity d))) ->
        exists q,
          series_loc (supim d) tm (sit, coin) = Ok q
          /\ forall rel,
               In (def_intermittent_supply tm (sit, pro, coin, cout), rel)
                  (cm_constraints M) <->
               rel = REq (EVar (e_pro_in tm (sit, pro, coin, cout)))
                         (EMul (EVar (cap_pro (sit, pro, coin, cout)))
                               (EConst q)))
    /\ (~ (exists s, In (s, coin, "SupIm") (map fst (commodity d))) ->
        forall rel,
          ~ In (def_intermittent_supply tm (sit, pro, coin, cout), rel)
               (cm_constraints M)).
Proof.
  intros HM tm sit pro coin cout Htm Hp.
  destruct (process_supply_generated d ts dt M HM tm sit pro coin cout
              Htm Hp) as [Hcap [Hsup Hskip]].
  split; [exact Hcap |]. split; [exact Hsup | exact Hskip].
Qed.

Lemma intermittent_supply_and_capacity_ceiling_witness :
  exists M,
    create_model Example.system Example.horizon 1 = Ok M
    /\ In (res_process_output_by_capacity 2 Example.coal,
           RLe (EVar (e_pro_out 2 Example.coal)) (EVar (cap_pro Example.coal)))
          (cm_constraints M)
    /\ (forall rel,
           ~ In (def_intermittent_supply 2 Example.coal, rel)
                (cm_constraints M)).
Proof.
  destruct (create_model_total Example.system Example.horizon 1)
    as [M HM]; [vm_compute; reflexivity |].
  exists M. split; [exact HM |].
  destruct (intermittent_supply_and_capacity_ceiling
              Example.system Example.horizon 1 M HM
              2%Z "A" "plant" "Coal" "Elec")
    as [Hcap [_ Hskip]]; [simpl; tauto | simpl; tauto |].
  split.
  - apply Hcap. reflexivity.
  - apply Hskip. intros [s Hs]. simpl in Hs.
    repeat (destruct Hs as [Hs | Hs]; [discriminate Hs |]). exact Hs.
Defined.

(** ** Initial and final storage state *)

Lemma ordered_getitem_first_Ok (l : list Z) (x : Z) :
  ordered_getitem l 1 = Ok x -> l <> [] /\ hd 0%Z l = x.
Proof.
  destruct l as [| y l]; simpl; [discriminate |].
  intros H. injection H as <-. split; [discriminate | reflexivity].
Qed.

Lemma res_initial_and_final_storage_state_rule_Ok (m : model) (t : Z)
  (s : sto_tuple) (r : rule_result) :
  res_initial_and_final_storage_state_rule m t s = Ok r ->
  (t = hd 0%Z (m_t m)
   /\ exists row, loc eqb3 (m_storage m) s = Ok row
                  /\ r = Constr (initial_state_relation t s row))
  \/ (t <> hd 0%Z (m_t m) /\ t = last (m_t m) 0%Z
      /\ exists row, loc eqb3 (m_storage m) s = Ok row
                     /\ r = Constr (final_state_relation t s row))
  \/ (t <> hd 0%Z (m_t m) /\ t <> last (m_t m) 0%Z /\ r = Skip).
Proof.
  unfold res_initial_and_final_storage_state_rule. intros H.
  bind_inv H. destruct (ordered_getitem_first_Ok _ _ Ha) as [Hne <-].
  destruct (t =? hd 0%Z (m_t m))%Z eqn:E1.
  - apply Z.eqb_eq in E1. left. split; [exact E1 |].
    bind_inv H. getitem_inv Ha0. bind_inv H. getitem_inv Ha0. bind_inv H.
    injection H as <-. exists a. split; [exact Ha0 | reflexivity].
  - apply Z.eqb_neq in E1. right. bind_inv H.
    assert (a = last (m_t m) 0%Z) as ->.
    { destruct (m_t m) as [| y l] eqn:El; [contradiction |].
      destruct (ordered_getitem_last (y :: l) y (or_introl eq_refl))
        as [x [Hx ->]].
      rewrite Hx in Ha0. injection Ha0 as <-. reflexivity. }
    destruct (t =? last (m_t m) 0%Z)%Z eqn:E2.
    + apply Z.eqb_eq in E2. left. split; [exact E1 |]. split; [exact E2 |].
      bind_inv H. getitem_inv Ha1. bind_inv H. getitem_inv Ha1. bind_inv H.
      injection H as <-. exists a. split; [exact Ha1 | reflexivity].
    + apply Z.eqb_neq in E2. right. injection H as <-.
      split; [exact E1 |]. split; [exact E2 | reflexivity].
Qed.

(** The boundary constraints a successful build holds for a storage tuple. *)
Lemma initial_final_generated (d : data) (ts : list Z) (dt : Q)
  (M : ConcreteModel) :
  create_model d ts dt = Ok M ->
  forall t s, In t ts -> In s (map fst (storage d)) ->
  exists row,
    loc eqb3 (storage d) s = Ok row
    /\ (t = hd 0%Z ts ->
        forall rel,
          In (res_initial_and_final_storage_state t s, rel) (cm_constraints M)
          <-> rel = initial_state_relation t s row)
    /\ (t <> hd 0%Z ts -> t = last ts 0%Z ->
        forall rel,
          In (res_initial_and_final_storage_state t s, rel) (cm_constraints M)
          <-> rel = final_state_relation t s row)
    /\ (t <> hd 0%Z ts -> t <> last ts 0%Z ->
        forall rel,
          ~ In (res_initial_and_final_storage_state t s, rel)
               (cm_constraints M)).
Proof.
  intros HM t s Ht Hs.
  destruct (create_model_with_Ok _ _ _ _ _ HM) as [w [Hw [Hm [_ [Hin Hall]]]]].
  assert (in_index (cm_model M) (res_initial_and_final_storage_state t s))
    as Hidx by (rewrite Hm; simpl; split; assumption).
  destruct (Hall _ Hidx) as [r Hr]. cbn [rule_of] in Hr.
  destruct (loc_In eqb3 eqb3_eq s (storage d) Hs) as [row Hrow].
  pose proof (res_initial_and_final_storage_state_rule_Ok _ _ _ _ Hr) as Hcase.
  replace (m_t (cm_model M)) with ts in Hcase by (rewrite Hm; reflexivity).
  replace (m_storage (cm_model M)) with (storage d) in Hcase
    by (rewrite Hm; reflexivity).
  exists row. split; [exact Hrow |].
  assert (forall rel,
             In (res_initial_and_final_storage_state t s, rel)
                (cm_constraints M) <-> r = Constr rel) as Hiff.
  { intros rel. rewrite Hin. cbn [rule_of]. rewrite Hr. split.
    - intros [_ E]. injection E as <-. reflexivity.
    - intros ->. split; [exact Hidx | reflexivity]. }
  split; [| split].
  - intros Hfirst rel. rewrite Hiff.
    destruct Hcase as [[_ [row' [Hrow' ->]]] | [[Hn _] | [Hn _]]];
      [| contradiction | contradiction].
    rewrite Hrow in Hrow'. injection Hrow' as <-. split.
    + intros E. injection E as <-. reflexivity.
    + intros ->. reflexivity.
  - intros Hn Hlast rel. rewrite Hiff.
    destruct Hcase as [[Hf _] | [[_ [_ [row' [Hrow' ->]]]] | [_ [Hl _]]]];
      [contradiction | | contradiction].
    rewrite Hrow in Hrow'. injection Hrow' as <-. split.
    + intros E. injection E as <-. reflexivity.
    + intros ->. reflexivity.
  - intros Hn Hl rel. rewrite Hiff.
    destruct Hcase as [[Hf _] | [[_ [Hl' _]] | [_ [_ ->]]]];
      [contradiction | contradiction | discriminate].
Qed.

(** C4, as stated, fails at the first timestep: the generated equality is
    content = capacity * fraction, a single product with no separate
    installed term.  For the battery of the example (installed capacity 10,
    fraction 1/2) the assignment with content 1 and capacity 2 satisfies the
    generated equality and violates the one the specification words, whether
    its installed quantity is read as the installed capacity of the table or
    as the capacity variable. *)
Lemma initial_storage_state_has_no_installed_term :
  exists M,
    create_model Example.system Example.horizon 1 = Ok M
    /\ In (res_initial_and_final_storage_state 0 Example.battery,
           initial_state_relation 0 Example.battery Example.srow)
          (cm_constraints M)
    /\ (forall installed,
           ~ In (res_initial_and_final_storage_state 0 Example.battery,
                 spec_initial_state_relation installed 0 Example.battery
                   Example.srow)
                (cm_constraints M))
    /\ holds Example.half_full
             (initial_state_relation 0 Example.battery Example.srow)
    /\ ~ holds Example.half_full
               (spec_initial_state_relation
                  (EConst (sto_inst_cap_c Example.srow)) 0 Example.battery
                  Example.srow)
    /\ ~ holds Example.half_full
               (spec_initial_state_relation
                  (EVar (cap_sto_c Example.battery)) 0 Example.battery
                  Example.srow).
Proof.
  destruct (create_model_total Example.system Example.horizon 1) as [M HM];
    [vm_compute; reflexivity |].
  exists M. split; [exact HM |].
  destruct (initial_final_generated _ _ _ _ HM 0%Z Example.battery)
    as [row [Hrow [Hfirst _]]]; [simpl; tauto | simpl; tauto |].
  vm_compute in Hrow. injection Hrow as <-.
  split; [apply (Hfirst eq_refl); reflexivity |].
  split;
    [intros installed H; apply (Hfirst eq_refl) in H; discriminate H |].
  split; [vm_compute; reflexivity |].
  split; intros H; vm_compute in H; discriminate H.
Qed.

(** C4, amended: in every model that [create_model] returns for a horizon
    whose timesteps are pairwise distinct, each storage tuple has at the
    first timestep of the horizon the equality
    content = total capacity * initial fraction; at the last timestep, when
    it is not also the first, the inequality
    content >= total capacity * initial fraction; and no constraint of this
    rule at any other timestep. *)
Theorem storage_boundary_constraints (d : data) (ts : list Z) (dt : Q)
  (M : ConcreteModel) :
  create_model d ts dt = Ok M -> NoDup ts ->
  forall t s, In t ts -> In s (map fst (storage d)) ->
  exists row,
    loc eqb3 (storage d) s = Ok row
    /\ (t = hd 0%Z ts ->
        forall rel,
          In (res_initial_and_final_storage_state t s, rel)
             (cm_constraints M)
          <-> rel = initial_state_relation t s row)
    /\ (t <> hd 0%Z ts -> t = last ts 0%Z ->
        forall rel,
          In (res_initial_and_final_storage_state t s, rel)
             (cm_constraints M)
          <-> rel = final_state_relation t s row)
    /\ (t <> hd 0%Z ts -> t <> last ts 0%Z ->
        forall rel,
          ~ In (res_initial_and_final_storage_state t s, rel)
               (cm_constraints M)).
Proof.
  intros HM _ t s Ht Hs.
  destruct (initial_final_generated d ts dt M HM t s Ht Hs)
    as [row [Hrow [Hfirst [Hlast Hskip]]]].
  exists row. split; [exact Hrow |].
  split; [exact Hfirst |]. split; [exact Hlast | exact Hskip].
Qed.

Lemma storage_boundary_constraints_witness :
  exists M,
    create_model Example.system Example.horizon 1 = Ok M
    /\ In (res_initial_and_final_storage_state 3 Example.battery,
           final_state_relation 3 Example.battery Example.srow)
          (cm_constraints M)
    /\ (forall rel,
           ~ In (res_initial_and_final_storage_state 2 Example.battery, rel)
                (cm_constraints M)).
Proof.
  destruct (create_model_total Example.system Example.horizon 1)
    as [M HM]; [vm_compute; reflexivity |].
  assert (NoDup Example.horizon) as Hnd
    by (repeat constructor; simpl; intuition discriminate).
  exists M. split; [exact HM |]. split.
  - destruct (storage_boundary_constraints Example.system Example.horizon 1
                M HM Hnd 3%Z Example.battery)
      as [row [Hrow [_ [Hlast _]]]]; [simpl; tauto | simpl; tauto |].
    vm_compute in Hrow. injection Hrow as <-.
    apply Hlast; [discriminate | reflexivity | reflexivity].
  - destruct (storage_boundary_constraints Example.system Example.horizon 1
                M HM Hnd 2%Z Example.battery)
      as [row [_ [_ [_ Hskip]]]]; [simpl; tauto | simpl; tauto |].
    apply Hskip; discriminate.
Defined.

(** ** Annualisation weight and the annual stock cap *)

Lemma weight_param_Ok (ts : list Z) (dt w : Q) :
  weight_param ts dt = Ok w ->
  w == 8760 / (inject_Z (Z.of_nat (List.length ts)) * dt)
  /\ ~ inject_Z (Z.of_nat (List.length ts)) * dt == 0.
Proof.
  unfold weight_param.
  destruct (Qeq_bool (inject_Z (Z.of_nat (List.length ts)) * dt) 0) eqn:E;
    [discriminate |].
  intros H. injection H as <-. split; [reflexivity |].
  apply Qeq_bool_false_iff. exact E.
Qed.

Lemma weight_param_total (ts : list Z) (dt : Q) :
  ~ inject_Z (Z.of_nat (List.length ts)) * dt == 0 ->
  exists w, weight_param ts dt = Ok w.
Proof.
  intros H. apply Qeq_bool_false_iff in H. unfold weight_param. rewrite H.
  eexists. reflexivity.
Qed.

Lemma res_stock_total_loop (m : model) (c : com_tuple) (rho : var -> Q)
  (l : list Z) :
  forall acc e,
    foldM (fun total tm =>
             v <- getitem m (e_co_stock tm c) ;;
             Ok (EAdd total (EMul v (EConst (m_dt m))))) l acc = Ok e ->
    eval rho e ==
    eval rho acc + Qsum (map (fun tm => rho (e_co_stock tm c) * m_dt m) l).
Proof.
  induction l as [| tm l IH]; intros acc e H.
  - simpl in H. injection H as <-. simpl. ring.
  - simpl in H. bind_inv H. bind_inv Ha. getitem_inv Ha0. injection Ha as <-.
    rewrite (IH _ _ H). simpl map. rewrite Qsum_cons. simpl eval. ring.
Qed.

Lemma res_stock_total_rule_Ok (m : model) (sit com ty : string)
  (r : rule_result) :
  mem String.eqb com (m_com_stock m) = true ->
  res_stock_total_rule m (sit, com, ty) = Ok r ->
  exists row total,
    loc eqb3 (m_commodity m) (sit, com, ty) = Ok row
    /\ r = Constr (RLe (EMul total (EConst (m_weight m)))
                       (EConst (com_max row)))
    /\ forall rho,
         eval rho total ==
         Qsum (map (fun tm => rho (e_co_stock tm (sit, com, ty)) * m_dt m)
                   (m_tm m)).
Proof.
  intros Hstock H. unfold res_stock_total_rule in H. rewrite Hstock in H.
  simpl negb in H. cbv iota in H.
  bind_inv H. bind_inv H. injection H as <-.
  exists a0, a. split; [exact Ha0 |]. split; [reflexivity |].
  intros rho. rewrite (res_stock_total_loop m (sit, com, ty) rho _ _ _ Ha).
  simpl eval. ring.
Qed.

(** C5: for a horizon whose timesteps are pairwise distinct, the weight
    parameter is [8760 / (len(timesteps) * dt)], which for 24 timesteps of
    one hour is 365; and in every model that [create_model] returns, each
    commodity tuple of type Stock has exactly the annual cap constraint
    weight * sum over the modelled timesteps of (stock purchase * dt) <= the
    tuple's annual maximum. *)
Theorem weight_and_annual_stock_cap (d : data) (ts : list Z) (dt : Q) :
  NoDup ts ->
  (forall w, weight_param ts dt = Ok w ->
             w == 8760 / (inject_Z (Z.of_nat (List.length ts)) * dt))
  /\ (~ inject_Z (Z.of_nat (List.length ts)) * dt == 0 ->
      exists w, weight_param ts dt = Ok w)
  /\ (List.length ts = 24%nat -> dt == 1 ->
      exists w, weight_param ts dt = Ok w /\ w == 365)
  /\ (forall M, create_model d ts dt = Ok M ->
      m_weight (cm_model M)
      == 8760 / (inject_Z (Z.of_nat (List.length ts)) * dt)
      /\ forall sit com,
           In (sit, com, "Stock") (map fst (commodity d)) ->
           exists row total,
             loc eqb3 (commodity d) (sit, com, "Stock") = Ok row
             /\ (forall rel,
                    In (res_stock_total (sit, com, "Stock"), rel)
                       (cm_constraints M) <->
                    rel = RLe total (EConst (com_max row)))
             /\ forall rho,
                  eval rho total ==
                  m_weight (cm_model M)
                  * Qsum (map (fun tm =>
                                 rho (e_co_stock tm (sit, com, "Stock")) * dt)
                              (tl ts))).
Proof.
  intros _.
  split; [intros w Hw; apply (weight_param_Ok ts dt w Hw) |].
  split; [apply weight_param_total |].
  split.
  { intros Hlen Hdt.
    assert (~ inject_Z (Z.of_nat (List.length ts)) * dt == 0) as Hne.
    { rewrite Hlen, Hdt. intros E. vm_compute in E. discriminate E. }
    destruct (weight_param_total ts dt Hne) as [w Hw].
    exists w. split; [exact Hw |].
    destruct (weight_param_Ok ts dt w Hw) as [-> _].
    rewrite Hlen, Hdt. reflexivity. }
  intros M HM.
  destruct (create_model_with_Ok _ _ _ _ _ HM) as [w [Hw [Hm [_ [Hin Hall]]]]].
  split.
  { rewrite Hm. simpl. apply (weight_param_Ok ts dt w Hw). }
  intros sit com Hc.
  assert (in_index (cm_model M) (res_stock_total (sit, com, "Stock")))
    as Hidx by (rewrite Hm; simpl; exact Hc).
  destruct (Hall _ Hidx) as [r Hr]. cbn [rule_of] in Hr.
  assert (mem String.eqb com (m_com_stock (cm_model M)) = true) as Hstock.
  { rewrite Hm. simpl. apply mem_commodities_of_type. exists sit. exact Hc. }
  destruct (res_stock_total_rule_Ok _ _ _ _ _ Hstock Hr)
    as [row [total [Hrow [-> Hsum]]]].
  exists row, (EMul total (EConst (m_weight (cm_model M)))).
  split; [rewrite Hm in Hrow; exact Hrow |]. split.
  - intros rel. rewrite Hin. cbn [rule_of]. rewrite Hr. split.
    + intros [_ E]. injection E as <-. reflexivity.
    + intros ->. split; [exact Hidx | reflexivity].
  - intros rho. simpl eval. rewrite (Hsum rho).
    replace (m_tm (cm_model M)) with (tl ts) by (rewrite Hm; reflexivity).
    replace (m_dt (cm_model M)) with dt by (rewrite Hm; reflexivity).
    ring.
Qed.

Lemma weight_and_annual_stock_cap_witness :
  (exists w, weight_param (map Z.of_nat (seq 0 24)) 1 = Ok w /\ w == 365)
  /\ exists M,
       create_model Example.system Example.horizon 1 = Ok M
       /\ m_weight (cm_model M) == 2190
       /\ exists row total,
            loc eqb3 (commodity Example.system) ("A", "Coal", "Stock") = Ok row
            /\ In (res_stock_total ("A", "Coal", "Stock"),
                   RLe total (EConst (com_max row)))
                  (cm_constraints M).
Proof.
  split.
  - apply (proj1 (proj2 (proj2 (weight_and_annual_stock_cap
             Example.system (map Z.of_nat (seq 0 24)) 1
             ltac:(repeat constructor; simpl; intuition discriminate)))));
      reflexivity.
  - destruct (weight_and_annual_stock_cap Example.system Example.horizon 1)
      as [_ [_ [_ Hgen]]];
      [repeat constructor; simpl; intuition discriminate |].
    destruct (create_model_total Example.system Example.horizon 1)
      as [M HM]; [vm_compute; reflexivity |].
    exists M. split; [exact HM |].
    destruct (Hgen M HM) as [Hw Hcap]. split.
    + rewrite Hw. vm_compute. reflexivity.
    + destruct (Hcap "A" "Coal") as [row [total [Hrow [Hiff _]]]];
        [simpl; tauto |].
      exists row, total. split; [exact Hrow |]. apply Hiff. reflexivity.
Defined.

(** ** Transmission symmetry *)

Lemma res_transmission_symmetry_rule_Ok (m : model)
  (sin sout tra com : string) (r : rule_result) :
  res_transmission_symmetry_rule m (sin, sout, tra, com) = Ok r ->
  r = Constr (REq (EVar (cap_tra (sin, sout, tra, com)))
                  (EVar (cap_tra (sout, sin, tra, com))))
  /\ In (sout, sin, tra, com) (m_tra_tuples m).
Proof.
  unfold res_transmission_symmetry_rule. intros H.
  bind_inv H. getitem_inv Ha. bind_inv H. getitem_inv Ha.
  injection H as <-. split; [reflexivity |].
  simpl in Hvalid0. apply (mem_In eqb4 eqb4_eq) in Hvalid0. exact Hvalid0.
Qed.

Lemma res_transmission_symmetry_rule_Raise (m : model)
  (sin sout tra com : string) :
  In (sin, sout, tra, com) (m_tra_tuples m) ->
  ~ In (sout, sin, tra, com) (m_tra_tuples m) ->
  res_transmission_symmetry_rule m (sin, sout, tra, com) = Raise KeyError.
Proof.
  intros Hin Hno. unfold res_transmission_symmetry_rule.
  rewrite getitem_valid by solve_valid. cbn [bind].
  unfold getitem. simpl valid_index.
  destruct (mem eqb4 (sout, sin, tra, com) (m_tra_tuples m)) eqn:E.
  - apply (mem_In eqb4 eqb4_eq) in E. contradiction.
  - reflexivity.
Qed.

(** The symmetry constraint a successful build holds for a line. *)
Lemma transmission_symmetry_generated (d : data) (ts : list Z) (dt : Q)
  (M : ConcreteModel) :
  create_model d ts dt = Ok M ->
  forall sin sout tra com,
    In (sin, sout, tra, com) (map fst (transmission d)) ->
    In (sout, sin, tra, com) (map fst (transmission d))
    /\ forall rel,
         In (res_transmission_symmetry (sin, sout, tra, com), rel)
            (cm_constraints M) <->
         rel = REq (EVar (cap_tra (sin, sout, tra, com)))
                   (EVar (cap_tra (sout, sin, tra, com))).
Proof.
  intros HM sin sout tra com Ht.
  destruct (create_model_with_Ok _ _ _ _ _ HM) as [w [Hw [Hm [_ [Hin Hall]]]]].
  assert (in_index (cm_model M)
            (res_transmission_symmetry (sin, sout, tra, com))) as Hidx
    by (rewrite Hm; simpl; exact Ht).
  destruct (Hall _ Hidx) as [r Hr]. cbn [rule_of] in Hr.
  destruct (res_transmission_symmetry_rule_Ok _ _ _ _ _ _ Hr) as [-> Hmirror].
  split; [rewrite Hm in Hmirror; exact Hmirror |].
  intros rel. rewrite Hin. cbn [rule_of]. rewrite Hr. split.
  - intros [_ E]. injection E as <-. reflexivity.
  - intros ->. split; [exact Hidx | reflexivity].
Qed.

Lemma transmission_without_mirror_raises (d : data) (ts : list Z) (dt : Q)
  (sin sout tra com : string) :
  In (sin, sout, tra, com) (map fst (transmission d)) ->
  ~ In (sout, sin, tra, com) (map fst (transmission d)) ->
  exists e, create_model d ts dt = Raise e.
Proof.
  intros Hin Hno. apply create_model_with_raises. intros w _.
  exists (res_transmission_symmetry (sin, sout, tra, com)), KeyError.
  split; [exact Hin |]. cbn [rule_of].
  apply res_transmission_symmetry_rule_Raise; assumption.
Qed.

(** C9, as stated, fails: a table that lists the line from [A] to [B]
    without its reverse is a transmission table like any other, but the
    symmetry rule indexes the capacity variable with the reversed tuple,
    which was never declared; the rule raises and no model is built. *)
Lemma one_way_line_has_no_symmetry_constraint :
  In Example.line_ab (map fst (transmission Example.one_way))
  /\ (exists w,
        weight_param Example.horizon 1 = Ok w
        /\ res_transmission_symmetry_rule
             (declare_sets cost_types Example.one_way Example.horizon 1 w)
             Example.line_ab = Raise KeyError)
  /\ create_model Example.one_way Example.horizon 1 = Raise KeyError.
Proof.
  split; [simpl; tauto |]. split.
  - eexists. split; vm_compute; reflexivity.
  - vm_compute. reflexivity.
Qed.

(** C9, amended: in every model that [create_model] returns, each
    transmission tuple [(site_in, site_out, technology, commodity)] has its
    reverse [(site_out, site_in, technology, commodity)] in the table and
    exactly the symmetry constraint equating the total capacity variables of
    the two; if some tuple of the table lacks its reverse, [create_model]
    raises and returns no model. *)
Theorem transmission_symmetry_constraint (d : data) (ts : list Z) (dt : Q) :
  (forall M, create_model d ts dt = Ok M ->
      forall sin sout tra com,
        In (sin, sout, tra, com) (map fst (transmission d)) ->
        In (sout, sin, tra, com) (map fst (transmission d))
        /\ forall rel,
             In (res_transmission_symmetry (sin, sout, tra, com), rel)
                (cm_constraints M) <->
             rel = REq (EVar (cap_tra (sin, sout, tra, com)))
                       (EVar (cap_tra (sout, sin, tra, com))))
  /\ (forall sin sout tra com,
        In (sin, sout, tra, com) (map fst (transmission d)) ->
        ~ In (sout, sin, tra, com) (map fst (transmission d)) ->
        exists e, create_model d ts dt = Raise e).
Proof.
  split.
  - intros M HM. exact (transmission_symmetry_generated d ts dt M HM).
  - apply transmission_without_mirror_raises.
Qed.

Lemma transmission_symmetry_constraint_witness :
  exists M,
    create_model Example.system Example.horizon 1 = Ok M
    /\ In (res_transmission_symmetry Example.line_ab,
           REq (EVar (cap_tra Example.line_ab)) (EVar (cap_tra Example.line_ba)))
          (cm_constraints M).
Proof.
  destruct (transmission_symmetry_constraint Example.system Example.horizon 1)
    as [Hgen _].
  destruct (create_model_total Example.system Example.horizon 1)
    as [M HM]; [vm_compute; reflexivity |].
  exists M. split; [exact HM |].
  destruct (Hgen M HM "A" "B" "hvac" "Elec") as [_ Hiff]; [simpl; tauto |].
  apply Hiff. reflexivity.
Defined.

(** ** Cost types *)

Lemma bind_Raise {A B : Type} (c : result A) (k : A -> result B) (e : exn) :
  bind c k = Raise e -> c = Raise e \/ exists a, c = Ok a /\ k a = Raise e.
Proof.
  destruct c as [a | e']; simpl; intros H.
  - right. exists a. split; [reflexivity | exact H].
  - left. injection H as <-. reflexivity.
Qed.

Lemma getitem_Raise (m : model) (v : var) (e : exn) :
  getitem m v = Raise e -> e = KeyError.
Proof.
  unfold getitem. destruct (valid_index m v); [discriminate |].
  intros H. injection H as <-. reflexivity.
Qed.

Lemma loc_Raise {K V : Type} (eqb : K -> K -> bool) (l : list (K * V)) (k : K)
  (e : exn) : loc eqb l k = Raise e -> e = KeyError.
Proof.
  unfold loc. destruct (assoc eqb k l); [discriminate |].
  intros H. injection H as <-. reflexivity.
Qed.

Lemma mapM_Raise {A B : Type} (f : A -> result B) (l : list A) (e : exn) :
  mapM f l = Raise e -> exists x, In x l /\ f x = Raise e.
Proof.
  induction l as [| x l IH]; simpl; [discriminate |]. intros H.
  apply bind_Raise in H. destruct H as [H | [y [_ H]]].
  - exists x. split; [left; reflexivity | exact H].
  - apply bind_Raise in H. destruct H as [H | [ys [_ H]]]; [| discriminate H].
    destruct (IH H) as [z [Hz Hf]]. exists z. split; [right; exact Hz | exact Hf].
Qed.

Lemma Constraint_Raise (rule : constraint_id -> result rule_result)
  (index : list constraint_id) (e : exn) :
  Constraint rule index = Raise e ->
  exists id, In id index /\ rule id = Raise e.
Proof.
  induction index as [| i rest IH]; simpl; [discriminate |]. intros H.
  apply bind_Raise in H. destruct H as [H | [r [_ H]]].
  - exists i. split; [left; reflexivity | exact H].
  - apply bind_Raise in H. destruct H as [H | [rs [_ H]]]; [| discriminate H].
    destruct (IH H) as [id [Hid Hr]].
    exists id. split; [right; exact Hid | exact Hr].
Qed.

Lemma sequence_Raise {A : Type} (cs : list (result A)) (e : exn) :
  sequence cs = Raise e -> In (Raise e) cs.
Proof.
  induction cs as [| c cs IH]; simpl; [discriminate |]. intros H.
  apply bind_Raise in H. destruct H as [H | [a [_ H]]].
  - left. exact H.
  - apply bind_Raise in H. destruct H as [H | [r [_ H]]]; [| discriminate H].
    right. exact (IH H).
Qed.

(** An exception of the build is the weight's or that of a rule at a
    declared index. *)
Lemma create_model_with_Raise (cts : list string) (d : data) (ts : list Z)
  (dt : Q) (e : exn) :
  create_model_with cts d ts dt = Raise e ->
  weight_param ts dt = Raise e
  \/ exists w id,
       weight_param ts dt = Ok w
       /\ in_index (declare_sets cts d ts dt w) id
       /\ rule_of (declare_sets cts d ts dt w) id = Raise e.
Proof.
  unfold create_model_with. intros H.
  apply bind_Raise in H. destruct H as [H | [w [Hw H]]]; [left; exact H |].
  right. exists w.
  apply bind_Raise in H. destruct H as [H | [bs [_ H]]]; [| discriminate H].
  apply sequence_Raise, in_map_iff in H. destruct H as [decl [H Hd]].
  apply Constraint_Raise in H. destruct H as [id [Hid Hr]].
  exists id. split; [exact Hw |]. split; [| exact Hr].
  apply declared_iff. exists decl. split; assumption.
Qed.

(** Derives [e = KeyError] from a failed chain of variable and label
    lookups. *)
Ltac key_error H :=
  first
    [ discriminate H
    | apply getitem_Raise in H; exact H
    | apply loc_Raise in H; exact H
    | apply mapM_Raise in H;
      let x := fresh "x" in
      let Hx := fresh "Hx" in
      destruct H as [x [Hx H]];
      try (destruct x as [? ?]); cbv beta iota in H; key_error H
    | apply bind_Raise in H;
      let a := fresh "a" in
      let Ha := fresh "Ha" in
      destruct H as [H | [a [Ha H]]]; key_error H ].

Lemma def_costs_rule_unknown (m : model) (ct : string) :
  ~ In ct cost_types -> def_costs_rule m ct = Raise NotImplementedError.
Proof.
  intros H. unfold def_costs_rule.
  destruct (ct =? "Inv")%string eqn:E1;
    [apply String.eqb_eq in E1; subst ct; exfalso; apply H; simpl; tauto |].
  destruct (ct =? "Fix")%string eqn:E2;
    [apply String.eqb_eq in E2; subst ct; exfalso; apply H; simpl; tauto |].
  destruct (ct =? "Var")%string eqn:E3;
    [apply String.eqb_eq in E3; subst ct; exfalso; apply H; simpl; tauto |].
  destruct (ct =? "Fuel")%string eqn:E4;
    [apply String.eqb_eq in E4; subst ct; exfalso; apply H; simpl; tauto |].
  reflexivity.
Qed.

Lemma def_costs_rule_known_Raise (m : model) (ct : string) (e : exn) :
  In ct cost_types -> def_costs_rule m ct = Raise e -> e = KeyError.
Proof.
  intros Hknown H. unfold cost_types in Hknown. simpl in Hknown.
  unfold def_costs_rule in H.
  destruct Hknown as [<- | [<- | [<- | [<- | []]]]];
    cbn [String.eqb Ascii.eqb Bool.eqb] in H; key_error H.
Qed.

Lemma unknown_cost_type_aborts (cts : list string) (d : data) (ts : list Z)
  (dt : Q) (ct : string) :
  In ct cts -> ~ In ct cost_types ->
  exists e, create_model_with cts d ts dt = Raise e.
Proof.
  intros Hin Hun. apply create_model_with_raises. intros w _.
  exists (def_costs ct), NotImplementedError.
  split; [exact Hin |]. cbn [rule_of]. apply def_costs_rule_unknown. exact Hun.
Qed.

(** C8: [def_costs_rule] builds a cost constraint for the cost types
    [Inv], [Fix], [Var] and [Fuel] (investment, fixed, variable and fuel
    costs) and raises [NotImplementedError] for exactly every other value,
    [Depreciation] among them; a build whose list of cost types holds an
    unknown value raises and returns no model; and [create_model] itself
    passes the four implemented types. *)
Theorem cost_types_handled :
  (forall m ct,
      def_costs_rule m ct = Raise NotImplementedError <-> ~ In ct cost_types)
  /\ (forall m ct,
        consistent m -> In ct (m_cost_type m) -> In ct cost_types ->
        exists rhs,
          def_costs_rule m ct = Ok (Constr (REq (EVar (costs ct)) rhs)))
  /\ (forall m, def_costs_rule m "Depreciation" = Raise NotImplementedError)
  /\ (forall cts d ts dt ct,
        In ct cts -> ~ In ct cost_types ->
        exists e, create_model_with cts d ts dt = Raise e)
  /\ (forall d ts dt,
        create_model d ts dt
        = create_model_with ["Inv"; "Fix"; "Var"; "Fuel"] d ts dt).
Proof.
  split; [| split; [| split; [| split]]].
  - intros m ct. split.
    + intros H Hk. pose proof (def_costs_rule_known_Raise m ct _ Hk H) as E.
      discriminate E.
    + apply def_costs_rule_unknown.
  - intros m ct C Hin Hk. exact (def_costs_rule_total m ct C Hin Hk).
  - intros m. reflexivity.
  - exact unknown_cost_type_aborts.
  - reflexivity.
Qed.

Lemma cost_types_handled_witness :
  (exists e,
      create_model_with ["Inv"; "Fix"; "Var"; "Fuel"; "Depreciation"]
        Example.system Example.horizon 1 = Raise e)
  /\ exists rhs,
       def_costs_rule
         (declare_sets cost_types Example.system Example.horizon 1 2190)
         "Fuel" = Ok (Constr (REq (EVar (costs "Fuel")) rhs)).
Proof.
  destruct cost_types_handled as [_ [Hknown [_ [Hbuild _]]]].
  split.
  - apply (Hbuild _ _ _ _ "Depreciation"); [simpl; tauto |].
    unfold cost_types. simpl. intros H.
    repeat (destruct H as [H | H]; [discriminate H |]). exact H.
  - apply Hknown.
    + apply declare_sets_consistent.
    + simpl. tauto.
    + simpl. tauto.
Defined.

(** ** Where stock purchase variables occur *)

Lemma vars_fold_EAdd (P : var -> Prop) (l : list expr) :
  forall acc,
    Forall P (vars acc) -> Forall (fun e => Forall P (vars e)) l ->
    Forall P (vars (fold_left EAdd l acc)).
Proof.
  induction l as [| e l IH]; intros acc Hacc Hl; [exact Hacc |].
  inversion Hl as [| ? ? He Hl']; subst. simpl. apply IH; [| exact Hl'].
  simpl. apply Forall_app. split; assumption.
Qed.

Lemma vars_psum (P : var -> Prop) (l : list expr) :
  Forall (fun e => Forall P (vars e)) l -> Forall P (vars (psum l)).
Proof. intros H. apply vars_fold_EAdd; [constructor | exact H]. Qed.

Lemma mapM_Forall {A B : Type} (f : A -> result B) (Q : B -> Prop)
  (l : list A) :
  (forall x y, In x l -> f x = Ok y -> Q y) ->
  forall ys, mapM f l = Ok ys -> Forall Q ys.
Proof.
  induction l as [| x l IH]; intros Hf ys H.
  - simpl in H. injection H as <-. constructor.
  - simpl in H. bind_inv H. bind_inv H. injection H as <-. constructor.
    + exact (Hf x a (or_introl eq_refl) Ha).
    + apply IH; [| exact Ha0]. intros z y Hz. apply Hf. right. exact Hz.
Qed.

Lemma foldM_invariant {A B : Type} (body : B -> A -> result B) (Q : B -> Prop)
  (l : list A) :
  (forall acc x acc', In x l -> Q acc -> body acc x = Ok acc' -> Q acc') ->
  forall acc r, Q acc -> foldM body l acc = Ok r -> Q r.
Proof.
  induction l as [| x l IH]; intros Hb acc r Hacc H.
  - simpl in H. injection H as <-. exact Hacc.
  - simpl in H. bind_inv H. apply (IH (fun a0 y a' Hy => Hb a0 y a' (or_intror Hy))
                                      a r); [| exact H].
    exact (Hb acc x a (or_introl eq_refl) Hacc Ha).
Qed.

(** Splits the successful steps of a rule in the context into their
    lookups and replaces each variable lookup by its variable. *)
Ltac rule_inv :=
  repeat
    match goal with
    | H : bind _ _ = Ok _ |- _ =>
        let a := fresh "a" in
        let Ha := fresh "Ha" in
        apply bind_Ok in H; destruct H as [a [Ha H]]
    | H : getitem _ _ = Ok _ |- _ =>
        apply getitem_Ok in H; destruct H as [_ H]; subst
    | H : Ok _ = Ok _ |- _ => inversion H; subst; clear H
    end.

(** Closes [Forall (stock_only m) vs] for an explicit list of variables. *)
Ltac stock_vars :=
  simpl; repeat (apply Forall_app; split); repeat constructor;
  simpl; auto.

Lemma commodity_balance_vars (m : model) (tm : Z) (sit com : string)
  (e : expr) :
  commodity_balance m tm sit com = Ok e -> Forall (stock_only m) (vars e).
Proof.
  unfold commodity_balance. intros H. bind_inv H. bind_inv H.
  assert (Forall (stock_only m) (vars a)) as H1.
  { apply (foldM_invariant (balance_process m tm sit com)
             (fun e => Forall (stock_only m) (vars e)) (m_pro_tuples m))
      with (acc := EConst 0); [| constructor | exact Ha].
    intros acc p acc' _ Hacc Hb.
    destruct p as [[[p0 p1] p2] p3]. unfold balance_process in Hb.
    destruct ((p0 =? sit)%string && (p2 =? com)%string);
      destruct ((p0 =? sit)%string && (p3 =? com)%string);
      rule_inv; stock_vars. }
  assert (Forall (stock_only m) (vars a0)) as H2.
  { apply (foldM_invariant (balance_transmission m tm sit com)
             (fun e => Forall (stock_only m) (vars e)) (m_tra_tuples m))
      with (acc := a); [| exact H1 | exact Ha0].
    intros acc p acc' _ Hacc Hb.
    destruct p as [[[p0 p1] p2] p3]. unfold balance_transmission in Hb.
    destruct ((p0 =? sit)%string && (p3 =? com)%string);
      destruct ((p1 =? sit)%string && (p3 =? com)%string);
      rule_inv; stock_vars. }
  apply (foldM_invariant (balance_storage m tm sit com)
           (fun e => Forall (stock_only m) (vars e)) (m_sto_tuples m))
    with (acc := a0); [| exact H2 | exact H].
  intros acc p acc' _ Hacc Hb.
  destruct p as [[p0 p1] p2]. unfold balance_storage in Hb.
  destruct ((p0 =? sit)%string && (p2 =? com)%string);
    rule_inv; stock_vars.
Qed.

Lemma res_stock_total_loop_vars (m : model) (c : com_tuple) (l : list Z) :
  mem String.eqb (snd (fst c)) (m_com_stock m) = true ->
  forall acc e,
    Forall (stock_only m) (vars acc) ->
    foldM (fun total tm =>
             v <- getitem m (e_co_stock tm c) ;;
             Ok (EAdd total (EMul v (EConst (m_dt m))))) l acc = Ok e ->
    Forall (stock_only m) (vars e).
Proof.
  intros Hc acc e Hacc H.
  apply (foldM_invariant _ (fun e => Forall (stock_only m) (vars e)) l)
    with (acc := acc) in H; [exact H | | exact Hacc].
  intros a tm a' _ Ha Hb. rule_inv. stock_vars.
Qed.

Lemma sum_terms_vars {A : Type} (m : model) (f : A -> result expr)
  (l : list A) (terms : list expr) :
  (forall x y, In x l -> f x = Ok y -> Forall (stock_only m) (vars y)) ->
  mapM f l = Ok terms -> Forall (stock_only m) (vars (psum terms)).
Proof.
  intros Hf H. apply vars_psum.
  exact (mapM_Forall f (fun e => Forall (stock_only m) (vars e)) l Hf terms H).
Qed.

Lemma def_costs_rule_vars (m : model) (ct : string) (r : relexpr) :
  def_costs_rule m ct = Ok (Constr r) -> Forall (stock_only m) (rel_vars r).
Proof.
  unfold def_costs_rule. intros H.
  destruct (ct =? "Inv")%string;
    [| destruct (ct =? "Fix")%string;
       [| destruct (ct =? "Var")%string;
          [| destruct (ct =? "Fuel")%string; [| discriminate H]]]];
    rule_inv; simpl rel_vars;
    (constructor; [exact I |]);
    repeat (apply Forall_app; split);
    match goal with
    | Hm : mapM _ _ = Ok ?l |- Forall _ (vars (psum ?l)) =>
        apply (sum_terms_vars m _ _ _) with (2 := Hm)
    end;
    intros x y Hx Hy;
    try (destruct x as [tm x]); cbv beta iota in Hy;
    rule_inv; try stock_vars.
  apply filter_In in Hx. destruct Hx as [_ Hx]. exact Hx.
Qed.

(** A generated constraint mentions a stock purchase variable only for a
    commodity in [m.com_stock]. *)
Lemma rule_of_vars (m : model) (id : constraint_id) (r : relexpr) :
  rule_of m id = Ok (Constr r) -> Forall (stock_only m) (rel_vars r).
Proof.
  intros H. destruct id; cbn [rule_of] in H;
    try (solve
           [ unfold def_process_capacity_rule, def_process_output_rule,
               def_co2_emissions_rule, res_process_output_by_capacity_rule,
               res_process_capacity_rule, def_transmission_capacity_rule,
               def_transmission_output_rule,
               res_transmission_input_by_capacity_rule,
               res_transmission_capacity_rule, def_storage_power_rule,
               def_storage_capacity_rule, res_storage_input_by_power_rule,
               res_storage_output_by_power_rule,
               res_storage_state_by_capacity_rule, res_storage_power_rule,
               res_storage_capacity_rule in H;
             rule_inv; stock_vars ]).
  - destruct c as [[sit com] ty]. unfold res_demand_rule in H.
    destruct (mem String.eqb com (m_com_demand m)); simpl negb in H;
      cbv iota in H; [| discriminate H].
    rule_inv. simpl. rewrite app_nil_r.
    eapply commodity_balance_vars. eassumption.
  - destruct c as [[sit com] ty]. unfold def_e_co_stock_rule in H.
    destruct (mem String.eqb com (m_com_stock m)) eqn:E; simpl negb in H;
      cbv iota in H; [| discriminate H].
    rule_inv. simpl. constructor; [exact E |].
    eapply commodity_balance_vars. eassumption.
  - destruct c as [[sit com] ty]. unfold res_stock_step_rule in H.
    destruct (mem String.eqb com (m_com_stock m)) eqn:E; simpl negb in H;
      cbv iota in H; [| discriminate H].
    rule_inv. stock_vars.
  - destruct c as [[sit com] ty]. unfold res_stock_total_rule in H.
    destruct (mem String.eqb com (m_com_stock m)) eqn:E; simpl negb in H;
      cbv iota in H; [| discriminate H].
    rule_inv. simpl. rewrite !app_nil_r.
    apply (res_stock_total_loop_vars m (sit, com, ty) (m_tm m) E (EConst 0));
      [constructor | assumption].
  - destruct p as [[[sit pro] coin] cout].
    unfold def_intermittent_supply_rule in H.
    destruct (mem String.eqb coin (m_com_supim m)); [| discriminate H].
    rule_inv. stock_vars.
  - destruct t as [[[sin sout] tra] com].
    unfold res_transmission_symmetry_rule in H. rule_inv. stock_vars.
  - destruct (def_storage_state_rule_Ok _ _ _ _ H) as [row [_ [E _]]].
    injection E as ->. stock_vars.
  - destruct (res_initial_and_final_storage_state_rule_Ok _ _ _ _ H)
      as [[_ [row [_ E]]] | [[_ [_ [row [_ E]]]] | [_ [_ E]]]];
      [injection E as -> | injection E as -> | discriminate E]; stock_vars.
  - unfold res_co2_emission_rule in H. rule_inv. simpl.
    rewrite !app_nil_r. apply vars_psum. apply Forall_map.
    apply Forall_forall. intros x _. stock_vars.
  - exact (def_costs_rule_vars m cost_type r H).
Qed.

(** Places a variable in the list of allocated variables, given the
    memberships of its index. *)
Ltac in_variables :=
  first
    [ solve [ apply in_map; assumption ]
    | solve [ apply in_map_iff; eexists (_, _);
              split; [reflexivity | apply in_prod; assumption] ]
    | apply in_or_app; left; in_variables
    | apply in_or_app; right; in_variables ].

(** A variable can be indexed exactly when it was allocated. *)
Lemma valid_index_variables (m : model) (v : var) :
  valid_index m v = true <-> In v (variables m).
Proof.
  split.
  - intros H. destruct v; simpl in H;
      try (apply andb_true_iff in H; destruct H as [Ht H];
           apply (mem_In Z.eqb Zeqb_eq) in Ht);
      first [ apply (mem_In eqb4 eqb4_eq) in H
            | apply (mem_In eqb3 eqb3_eq) in H
            | apply (mem_In String.eqb String.eqb_eq) in H ];
      unfold variables; in_variables.
  - unfold variables. rewrite !in_app_iff, !in_map_iff.
    intros H.
    repeat (destruct H as [H | H]);
      destruct H as [x [<- H]];
      try (lazymatch type of H with
           | In _ (list_prod _ _) =>
               destruct x as [t x]; apply in_prod_iff in H; destruct H
           end);
      solve_valid.
Qed.

Lemma e_co_stock_allocated (m : model) (tm : Z) (c : com_tuple) :
  In tm (m_tm m) -> In c (m_com_tuples m) ->
  In (e_co_stock tm c) (variables m)
  /\ valid_index m (e_co_stock tm c) = true.
Proof.
  intros Ht Hc. split.
  - unfold variables. rewrite !in_app_iff. do 10 right. left.
    apply in_map_iff. exists (tm, c). split; [reflexivity |].
    apply in_prod; assumption.
  - solve_valid.
Qed.

Lemma obj_rule_vars (m : model) : Forall (stock_only m) (vars (obj_rule m)).
Proof.
  unfold obj_rule. apply vars_psum. apply Forall_map. apply Forall_forall.
  intros ct _. stock_vars.
Qed.

Lemma stock_rules_skip (m : model) (tm : Z) (sit com ty : string) :
  mem String.eqb com (m_com_stock m) = false ->
  def_e_co_stock_rule m tm (sit, com, ty) = Ok Skip
  /\ res_stock_step_rule m tm (sit, com, ty) = Ok Skip
  /\ res_stock_total_rule m (sit, com, ty) = Ok Skip.
Proof.
  intros H.
  unfold def_e_co_stock_rule, res_stock_step_rule, res_stock_total_rule.
  rewrite H. simpl. repeat split.
Qed.

(** C10, amended: in every model that [create_model] returns, a stock
    purchase variable [e_co_stock] with the non-negative reals as domain is
    allocated for every modelled timestep and every commodity tuple, whatever
    its type; and for a commodity whose name is of stock type in no row of
    the table, these variables occur in no generated constraint and not in
    the objective: the stock definition, per-step cap and annual cap rules
    return [Constraint.Skip] for it and generate nothing, and the fuel cost
    sums purchases of stock commodities only. *)
Theorem non_stock_purchase_unconstrained (d : data) (ts : list Z) (dt : Q)
  (M : ConcreteModel) :
  create_model d ts dt = Ok M ->
  (forall tm c,
      In tm (tl ts) -> In c (map fst (commodity d)) ->
      In (e_co_stock tm c) (variables (cm_model M))
      /\ var_domain (e_co_stock tm c) = NonNegativeReals)
  /\ (forall com,
         ~ (exists s, In (s, com, "Stock") (map fst (commodity d))) ->
         forall tm sit ty,
           (forall id rel,
               In (id, rel) (cm_constraints M) ->
               ~ In (e_co_stock tm (sit, com, ty)) (rel_vars rel))
           /\ ~ In (e_co_stock tm (sit, com, ty)) (vars (cm_obj M))
           /\ def_e_co_stock_rule (cm_model M) tm (sit, com, ty) = Ok Skip
           /\ res_stock_step_rule (cm_model M) tm (sit, com, ty) = Ok Skip
           /\ res_stock_total_rule (cm_model M) (sit, com, ty) = Ok Skip
           /\ (forall rel,
                  ~ In (def_e_co_stock tm (sit, com, ty), rel)
                       (cm_constraints M)
                  /\ ~ In (res_stock_step tm (sit, com, ty), rel)
                          (cm_constraints M)
                  /\ ~ In (res_stock_total (sit, com, ty), rel)
                          (cm_constraints M))).
Proof.
  intros HM.
  destruct (create_model_with_Ok _ _ _ _ _ HM) as [w [Hw [Hm [Ho [Hin Hall]]]]].
  split.
  - intros tm c Ht Hc. split; [| reflexivity].
    apply e_co_stock_allocated; rewrite Hm; simpl; assumption.
  - intros com Hns tm sit ty.
    assert (mem String.eqb com (m_com_stock (cm_model M)) = false) as Hmem.
    { destruct (mem String.eqb com (m_com_stock (cm_model M))) eqn:E;
        [| reflexivity].
      exfalso. apply Hns. rewrite Hm in E. simpl in E.
      apply mem_commodities_of_type in E. exact E. }
    assert (~ stock_only (cm_model M) (e_co_stock tm (sit, com, ty))) as Hno
      by (simpl; rewrite Hmem; discriminate).
    destruct (stock_rules_skip (cm_model M) tm sit com ty Hmem)
      as [S1 [S2 S3]].
    split; [| split; [| split; [| split; [| split]]]];
      try assumption.
    + intros id rel Hrel Hv. apply Hin in Hrel. destruct Hrel as [_ Hr].
      pose proof (rule_of_vars _ _ _ Hr) as Hall'.
      rewrite Forall_forall in Hall'. exact (Hno (Hall' _ Hv)).
    + intros Hv. rewrite Ho in Hv.
      pose proof (obj_rule_vars (cm_model M)) as Hall'.
      rewrite Forall_forall in Hall'. exact (Hno (Hall' _ Hv)).
    + intros rel. repeat split; intros Hrel; apply Hin in Hrel;
        destruct Hrel as [_ Hr]; cbn [rule_of] in Hr; congruence.
Qed.

Lemma non_stock_purchase_unconstrained_witness :
  exists M,
    create_model Example.system Example.horizon 1 = Ok M
    /\ In (e_co_stock 1 ("A", "Elec", "Demand")) (variables (cm_model M))
    /\ (forall id rel,
           In (id, rel) (cm_constraints M) ->
           ~ In (e_co_stock 1 ("A", "Elec", "Demand")) (rel_vars rel)).
Proof.
  destruct (create_model_total Example.system Example.horizon 1)
    as [M HM]; [vm_compute; reflexivity |].
  exists M. split; [exact HM |].
  destruct (non_stock_purchase_unconstrained Example.system Example.horizon 1
              M HM) as [Halloc Hfree]. split.
  - apply (Halloc 1%Z ("A", "Elec", "Demand")); simpl; tauto.
  - apply (Hfree "Elec").
    intros [s Hs]. simpl in Hs.
    repeat (destruct Hs as [Hs | Hs]; [discriminate Hs |]). exact Hs.
Defined.

(** C10, as stated, fails: the skip of the stock rules goes by the
    commodity's name, not by the type of the tuple.  Coal is of stock type at
    [A]; the tuple that lists it at [B] under another type is not of stock
    type, and its purchase variable is all the same defined by the balance
    and capped per step in the model that is built. *)
Lemma stock_name_shared_across_sites :
  In ("B", "Coal", "Other") (map fst (commodity Example.shared_coal))
  /\ (exists balance,
        def_e_co_stock_rule Example.coal_at_b 1 ("B", "Coal", "Other")
        = Ok (Constr (REq (EVar (e_co_stock 1 ("B", "Coal", "Other")))
                          balance)))
  /\ exists M,
       create_model Example.shared_coal Example.horizon 1 = Ok M
       /\ In (res_stock_step 1 ("B", "Coal", "Other"),
              RLe (EVar (e_co_stock 1 ("B", "Coal", "Other"))) (EConst 0))
             (cm_constraints M)
       /\ In (e_co_stock 1 ("B", "Coal", "Other"))
             (rel_vars (RLe (EVar (e_co_stock 1 ("B", "Coal", "Other")))
                            (EConst 0))).
Proof.
  split; [simpl; tauto |].
  split; [eexists; vm_compute; reflexivity |].
  destruct (create_model_total Example.shared_coal Example.horizon 1)
    as [M HM]; [vm_compute; reflexivity |].
  exists M. split; [exact HM |]. split; [| simpl; tauto].
  destruct (create_model_with_Ok _ _ _ _ _ HM) as [w [Hw [Hm [_ [Hin _]]]]].
  apply Hin. rewrite Hm.
  vm_compute in Hw. injection Hw as <-.
  split; [simpl; tauto | vm_compute; reflexivity].
Qed.

(** * Further properties of the build *)

(** ** Constraints mention allocated variables only *)

(** As [rule_inv], keeping the validity of each looked-up index. *)
Ltac rule_inv_valid :=
  repeat
    match goal with
    | H : bind _ _ = Ok _ |- _ =>
        let a := fresh "a" in
        let Ha := fresh "Ha" in
        apply bind_Ok in H; destruct H as [a [Ha H]]
    | H : getitem _ _ = Ok _ |- _ =>
        let V := fresh "Hvalid" in
        apply getitem_Ok in H; destruct H as [V H]; subst
    | H : Ok _ = Ok _ |- _ => inversion H; subst; clear H
    end.

(** Closes [Forall (fun v => valid_index m v = true) vs] for an explicit
    list of looked-up variables. *)
Ltac valid_vars :=
  simpl vars; simpl rel_vars; simpl app;
  repeat (apply Forall_app; split); repeat constructor; auto.

Lemma commodity_balance_valid (m : model) (tm : Z) (sit com : string)
  (e : expr) :
  commodity_balance m tm sit com = Ok e ->
  Forall (fun v => valid_index m v = true) (vars e).
Proof.
  unfold commodity_balance. intros H. bind_inv H. bind_inv H.
  assert (Forall (fun v => valid_index m v = true) (vars a)) as H1.
  { apply (foldM_invariant (balance_process m tm sit com)
             (fun e => Forall (fun v => valid_index m v = true) (vars e))
             (m_pro_tuples m))
      with (acc := EConst 0); [| constructor | exact Ha].
    intros acc p acc' _ Hacc Hb.
    destruct p as [[[p0 p1] p2] p3]. unfold balance_process in Hb.
    destruct ((p0 =? sit)%string && (p2 =? com)%string);
      destruct ((p0 =? sit)%string && (p3 =? com)%string);
      rule_inv_valid; valid_vars. }
  assert (Forall (fun v => valid_index m v = true) (vars a0)) as H2.
  { apply (foldM_invariant (balance_transmission m tm sit com)
             (fun e => Forall (fun v => valid_index m v = true) (vars e))
             (m_tra_tuples m))
      with (acc := a); [| exact H1 | exact Ha0].
    intros acc p acc' _ Hacc Hb.
    destruct p as [[[p0 p1] p2] p3]. unfold balance_transmission in Hb.
    destruct ((p0 =? sit)%string && (p3 =? com)%string);
      destruct ((p1 =? sit)%string && (p3 =? com)%string);
      rule_inv_valid; valid_vars. }
  apply (foldM_invariant (balance_storage m tm sit com)
           (fun e => Forall (fun v => valid_index m v = true) (vars e))
           (m_sto_tuples m))
    with (acc := a0); [| exact H2 | exact H].
  intros acc p acc' _ Hacc Hb.
  destruct p as [[p0 p1] p2]. unfold balance_storage in Hb.
  destruct ((p0 =? sit)%string && (p2 =? com)%string);
    rule_inv_valid; valid_vars.
Qed.

Lemma sum_terms_valid {A : Type} (m : model) (f : A -> result expr)
  (l : list A) (terms : list expr) :
  (forall x y, In x l -> f x = Ok y ->
               Forall (fun v => valid_index m v = true) (vars y)) ->
  mapM f l = Ok terms ->
  Forall (fun v => valid_index m v = true) (vars (psum terms)).
Proof.
  intros Hf H. apply vars_psum.
  exact (mapM_Forall f
           (fun e => Forall (fun v => valid_index m v = true) (vars e))
           l Hf terms H).
Qed.

Lemma def_costs_rule_valid (m : model) (ct : string) (r : relexpr) :
  def_costs_rule m ct = Ok (Constr r) ->
  Forall (fun v => valid_index m v = true) (rel_vars r).
Proof.
  unfold def_costs_rule. intros H.
  destruct (ct =? "Inv")%string;
    [| destruct (ct =? "Fix")%string;
       [| destruct (ct =? "Var")%string;
          [| destruct (ct =? "Fuel")%string; [| discriminate H]]]];
    rule_inv_valid; simpl rel_vars;
    (constructor; [assumption |]);
    repeat (apply Forall_app; split);
    match goal with
    | Hm : mapM _ _ = Ok ?l |- Forall _ (vars (psum ?l)) =>
        apply (sum_terms_valid m _ _ _) with (2 := Hm)
    end;
    intros x y Hx Hy;
    try (destruct x as [tm x]); cbv beta iota in Hy;
    rule_inv_valid; valid_vars.
Qed.

Lemma rule_of_valid (m : model) (id : constraint_id) (r : relexpr) :
  rule_of m id = Ok (Constr r) ->
  Forall (fun v => valid_index m v = true) (rel_vars r).
Proof.
  intros H. destruct id; cbn [rule_of] in H;
    try (solve
           [ unfold def_process_capacity_rule, def_process_output_rule,
               def_co2_emissions_rule, res_process_output_by_capacity_rule,
               res_process_capacity_rule, def_transmission_capacity_rule,
               def_transmission_output_rule,
               res_transmission_input_by_capacity_rule,
               res_transmission_capacity_rule, def_storage_power_rule,
               def_storage_capacity_rule, res_storage_input_by_power_rule,
               res_storage_output_by_power_rule,
               res_storage_state_by_capacity_rule, res_storage_power_rule,
               res_storage_capacity_rule in H;
             rule_inv_valid; valid_vars ]).
  - destruct c as [[sit com] ty]. unfold res_demand_rule in H.
    destruct (mem String.eqb com (m_com_demand m)); simpl negb in H;
      cbv iota in H; [| discriminate H].
    rule_inv_valid. simpl. rewrite app_nil_r.
    eapply commodity_balance_valid. eassumption.
  - destruct c as [[sit com] ty]. unfold def_e_co_stock_rule in H.
    destruct (mem String.eqb com (m_com_stock m)); simpl negb in H;
      cbv iota in H; [| discriminate H].
    rule_inv_valid. simpl rel_vars. simpl vars. simpl app.
    constructor; [assumption |].
    eapply commodity_balance_valid. eassumption.
  - destruct c as [[sit com] ty]. unfold res_stock_step_rule in H.
    destruct (mem String.eqb com (m_com_stock m)); simpl negb in H;
      cbv iota in H; [| discriminate H].
    rule_inv_valid. valid_vars.
  - destruct c as [[sit com] ty]. unfold res_stock_total_rule in H.
    destruct (mem String.eqb com (m_com_stock m)); simpl negb in H;
      cbv iota in H; [| discriminate H].
    rule_inv_valid. simpl rel_vars. simpl vars. rewrite !app_nil_r.
    match goal with
    | Hf : foldM _ _ _ = Ok ?e |- Forall _ (vars ?e) =>
        apply (foldM_invariant _
                 (fun e => Forall (fun v => valid_index m v = true) (vars e))
                 (m_tm m)) with (acc := EConst 0) in Hf;
        [exact Hf | | constructor]
    end.
    intros acc tm acc' _ Hacc Hb. rule_inv_valid. valid_vars.
  - destruct p as [[[sit pro] coin] cout].
    unfold def_intermittent_supply_rule in H.
    destruct (mem String.eqb coin (m_com_supim m)); [| discriminate H].
    rule_inv_valid. valid_vars.
  - destruct t as [[[sin sout] tra] com].
    unfold res_transmission_symmetry_rule in H. rule_inv_valid. valid_vars.
  - unfold def_storage_state_rule, pdiv in H. rule_inv_valid.
    match goal with
    | Hd : (if Qeq_bool ?q 0 then _ else _) = Ok _ |- _ =>
        destruct (Qeq_bool q 0); [discriminate Hd |]
    end.
    rule_inv_valid. valid_vars.
  - unfold res_initial_and_final_storage_state_rule in H.
    rule_inv_valid.
    destruct (t =? a)%Z;
      [| rule_inv_valid; destruct (t =? a0)%Z; [| discriminate H]];
      rule_inv_valid; valid_vars.
  - unfold res_co2_emission_rule in H. rule_inv_valid. simpl.
    rewrite !app_nil_r. apply vars_psum. apply Forall_map.
    apply Forall_forall. intros [tm p] Hx. apply in_prod_iff in Hx.
    destruct Hx. constructor; [solve_valid | constructor].
  - exact (def_costs_rule_valid m cost_type r H).
Qed.

(** X1: every variable that occurs in a generated constraint or in the
    objective of a model returned by [create_model] is one of the variables
    the model allocates. *)
Theorem constraints_mention_allocated_variables (d : data) (ts : list Z)
  (dt : Q) (M : ConcreteModel) :
  create_model d ts dt = Ok M ->
  (forall id rel v,
      In (id, rel) (cm_constraints M) -> In v (rel_vars rel) ->
      In v (variables (cm_model M)))
  /\ (forall v, In v (vars (cm_obj M)) -> In v (variables (cm_model M))).
Proof.
  intros HM.
  destruct (create_model_with_Ok _ _ _ _ _ HM) as [w [Hw [Hm [Ho [Hin _]]]]].
  split.
  - intros id rel v Hrel Hv. apply Hin in Hrel. destruct Hrel as [_ Hr].
    pose proof (rule_of_valid _ _ _ Hr) as Hall.
    rewrite Forall_forall in Hall. apply valid_index_variables.
    exact (Hall v Hv).
  - intros v Hv. rewrite Ho in Hv. apply valid_index_variables.
    assert (Forall (fun v => valid_index (cm_model M) v = true)
              (vars (obj_rule (cm_model M)))) as Hall.
    { unfold obj_rule. apply vars_psum. apply Forall_map.
      apply Forall_forall. intros ct Hct.
      constructor; [solve_valid | constructor]. }
    rewrite Forall_forall in Hall. exact (Hall v Hv).
Qed.

Lemma constraints_mention_allocated_variables_witness :
  exists M,
    create_model Example.system Example.horizon 1 = Ok M
    /\ forall id rel v,
         In (id, rel) (cm_constraints M) -> In v (rel_vars rel) ->
         In v (variables (cm_model M)).
Proof.
  destruct (create_model_total Example.system Example.horizon 1) as [M HM];
    [vm_compute; reflexivity |].
  exists M. split; [exact HM |].
  exact (proj1 (constraints_mention_allocated_variables _ _ _ M HM)).
Defined.

(** ** What a successful build says about its input *)

Lemma series_loc_Ok_label (frame : series) (t : Z) (col : string * string)
  (q : Q) :
  series_loc frame t col = Ok q ->
  exists row, In (t, row) frame /\ In (col, q) row.
Proof.
  unfold series_loc. intros H. bind_inv H.
  exists a. split.
  - exact (loc_Ok Z.eqb Zeqb_eq _ _ _ Ha).
  - exact (loc_Ok eqb2 eqb2_eq _ _ _ H).
Qed.

(** X2: when [create_model] returns a model, the horizon is not empty and
    [dt] is not zero, the commodity table has the row
    [('Global', 'CO2', 'Env')], and the demand frame has a row for every
    modelled timestep and a column for every tuple of a demand commodity.
    Put the other way round: an empty horizon, a zero [dt], a missing
    emission row or a missing demand label makes the build raise. *)
Theorem create_model_needs_complete_input (d : data) (ts : list Z) (dt : Q)
  (M : ConcreteModel) :
  create_model d ts dt = Ok M ->
  ts <> [] /\ ~ dt == 0
  /\ In ("Global", "CO2", "Env") (map fst (commodity d))
  /\ (forall tm sit com ty,
         In tm (tl ts) -> In (sit, com, ty) (map fst (commodity d)) ->
         (exists s, In (s, com, "Demand") (map fst (commodity d))) ->
         exists q row,
           In (tm, row) (demand d) /\ In ((sit, com), q) row).
Proof.
  intros HM.
  destruct (create_model_with_Ok _ _ _ _ _ HM) as [w [Hw [Hm [_ [_ Hall]]]]].
  destruct (weight_param_Ok ts dt w Hw) as [_ Hne].
  split; [| split; [| split]].
  - intros ->. apply Hne. simpl. unfold Qeq. simpl. reflexivity.
  - intros E. apply Hne. rewrite E. ring.
  - destruct (Hall res_co2_emission I) as [r Hr]. cbn [rule_of] in Hr.
    unfold res_co2_emission_rule in Hr. bind_inv Hr.
    apply (loc_Ok eqb3 eqb3_eq) in Ha. rewrite Hm in Ha. simpl in Ha.
    apply in_map_iff. exists (("Global", "CO2", "Env"), a).
    split; [reflexivity | exact Ha].
  - intros tm sit com ty Ht Hc Hdem.
    assert (in_index (cm_model M) (res_demand tm (sit, com, ty))) as Hidx
      by (rewrite Hm; simpl; split; assumption).
    destruct (Hall _ Hidx) as [r Hr]. cbn [rule_of] in Hr.
    unfold res_demand_rule in Hr.
    assert (mem String.eqb com (m_com_demand (cm_model M)) = true) as E.
    { rewrite Hm. simpl. apply mem_commodities_of_type. exact Hdem. }
    rewrite E in Hr. simpl negb in Hr. cbv iota in Hr.
    bind_inv Hr. bind_inv Hr. rewrite Hm in Ha0. simpl in Ha0.
    destruct (series_loc_Ok_label _ _ _ _ Ha0) as [row [H1 H2]].
    exists a0, row. split; assumption.
Qed.

Lemma create_model_needs_complete_input_witness :
  exists M,
    create_model Example.system Example.horizon 1 = Ok M
    /\ In ("Global", "CO2", "Env") (map fst (commodity Example.system)).
Proof.
  destruct (create_model_total Example.system Example.horizon 1) as [M HM];
    [vm_compute; reflexivity |].
  exists M. split; [exact HM |].
  exact (proj1 (proj2 (proj2 (create_model_needs_complete_input _ _ _ M HM)))).
Defined.

(** ** Subset declarations *)

Lemma mem_unique_map {A : Type} (f : A -> string) (l : list A) (x : string) :
  mem String.eqb x (unique (map f l)) = true <-> exists y, In y l /\ f y = x.
Proof.
  rewrite (mem_In String.eqb String.eqb_eq). unfold unique.
  rewrite nodup_In, in_map_iff. split; intros [y [H1 H2]]; exists y; tauto.
Qed.

Lemma site_listed (tuples : list com_tuple) (sit : string) :
  mem String.eqb sit (unique (map (fun c : com_tuple => fst (fst c)) tuples))
  = true
  <-> exists com ty, In (sit, com, ty) tuples.
Proof.
  rewrite mem_unique_map. split.
  - intros [[[s c] ty] [Hin E]]. simpl in E. subst s. exists c, ty. exact Hin.
  - intros [c [ty Hin]]. exists (sit, c, ty). split; [exact Hin | reflexivity].
Qed.

Lemma commodity_listed (tuples : list com_tuple) (com : string) :
  mem String.eqb com (unique (map (fun c : com_tuple => snd (fst c)) tuples))
  = true
  <-> exists sit ty, In (sit, com, ty) tuples.
Proof.
  rewrite mem_unique_map. split.
  - intros [[[s c] ty] [Hin E]]. simpl in E. subst c. exists s, ty. exact Hin.
  - intros [s [ty Hin]]. exists (s, com, ty). split; [exact Hin | reflexivity].
Qed.

Lemma subset_of_commodities (ty : string) (tuples : list com_tuple) :
  forallb (fun c => mem String.eqb c
                      (unique (map (fun c : com_tuple => snd (fst c)) tuples)))
          (commodities_of_type ty tuples) = true.
Proof.
  apply forallb_forall. intros c Hc. apply commodities_of_type_In in Hc.
  destruct Hc as [sit Hin]. apply commodity_listed. exists sit, ty. exact Hin.
Qed.

(** X3: of the [within=] checks on the sets that [create_model] declares,
    those of the modelled timesteps, of the commodity tuples and of the three
    commodity subsets hold for every input; the checks of the process,
    transmission and storage tuples hold exactly when every site and every
    commodity these tables name also occurs in some row of the commodity
    table. *)
Theorem subset_declarations (cts : list string) (d : data) (ts : list Z)
  (dt w : Q) :
  within_tm (declare_sets cts d ts dt w) = true
  /\ within_com_tuples (declare_sets cts d ts dt w) = true
  /\ within_com_subsets (declare_sets cts d ts dt w) = true
  /\ (within_pro_tuples (declare_sets cts d ts dt w) = true <->
      forall sit pro coin cout,
        In (sit, pro, coin, cout) (map fst (process d)) ->
        (exists c ty, In (sit, c, ty) (map fst (commodity d)))
        /\ (exists s ty, In (s, coin, ty) (map fst (commodity d)))
        /\ (exists s ty, In (s, cout, ty) (map fst (commodity d))))
  /\ (within_tra_tuples (declare_sets cts d ts dt w) = true <->
      forall sin sout tra com,
        In (sin, sout, tra, com) (map fst (transmission d)) ->
        (exists c ty, In (sin, c, ty) (map fst (commodity d)))
        /\ (exists c ty, In (sout, c, ty) (map fst (commodity d)))
        /\ (exists s ty, In (s, com, ty) (map fst (commodity d))))
  /\ (within_sto_tuples (declare_sets cts d ts dt w) = true <->
      forall sit sto com,
        In (sit, sto, com) (map fst (storage d)) ->
        (exists c ty, In (sit, c, ty) (map fst (commodity d)))
        /\ (exists s ty, In (s, com, ty) (map fst (commodity d)))).
Proof.
  split; [| split; [| split; [| split; [| split]]]].
  - unfold within_tm. simpl. apply forallb_forall. intros t Ht.
    apply (mem_In Z.eqb Zeqb_eq).
    destruct ts as [| t0 rest]; [destruct Ht | right; exact Ht].
  - unfold within_com_tuples. simpl. apply forallb_forall.
    intros [[sit com] ty] Hc. rewrite !andb_true_iff. repeat split.
    + apply site_listed. exists com, ty. exact Hc.
    + apply commodity_listed. exists sit, ty. exact Hc.
    + apply mem_unique_map. exists (sit, com, ty). split; [exact Hc | reflexivity].
  - unfold within_com_subsets. simpl.
    rewrite !subset_of_commodities. reflexivity.
  - unfold within_pro_tuples. simpl. rewrite forallb_forall. split.
    + intros H sit pro coin cout Hin. specialize (H _ Hin). simpl in H.
      rewrite !andb_true_iff in H. destruct H as [[[H1 _] H3] H4].
      apply site_listed in H1. apply commodity_listed in H3.
      apply commodity_listed in H4. repeat split; assumption.
    + intros H [[[sit pro] coin] cout] Hin.
      destruct (H _ _ _ _ Hin) as [H1 [H3 H4]].
      rewrite !andb_true_iff. repeat split.
      * apply site_listed. exact H1.
      * apply mem_unique_map. apply in_map_iff in Hin.
        destruct Hin as [[k row] [E Hin]]. simpl in E. subst k.
        exists (sit, pro, coin, cout). split; [| reflexivity].
        apply in_map_iff. exists (sit, pro, coin, cout, row).
        split; [reflexivity | exact Hin].
      * apply commodity_listed. exact H3.
      * apply commodity_listed. exact H4.
  - unfold within_tra_tuples. simpl. rewrite forallb_forall. split.
    + intros H sin sout tra com Hin. specialize (H _ Hin). simpl in H.
      rewrite !andb_true_iff in H. destruct H as [[[H1 H2] _] H4].
      apply site_listed in H1. apply site_listed in H2.
      apply commodity_listed in H4. repeat split; assumption.
    + intros H [[[sin sout] tra] com] Hin.
      destruct (H _ _ _ _ Hin) as [H1 [H2 H4]].
      rewrite !andb_true_iff. repeat split.
      * apply site_listed. exact H1.
      * apply site_listed. exact H2.
      * apply mem_unique_map. exists (sin, sout, tra, com).
        split; [exact Hin | reflexivity].
      * apply commodity_listed. exact H4.
  - unfold within_sto_tuples. simpl. rewrite forallb_forall. split.
    + intros H sit sto com Hin. specialize (H _ Hin). simpl in H.
      rewrite !andb_true_iff in H. destruct H as [[H1 _] H3].
      apply site_listed in H1. apply commodity_listed in H3.
      split; assumption.
    + intros H [[sit sto] com] Hin.
      destruct (H _ _ _ Hin) as [H1 H3].
      rewrite !andb_true_iff. repeat split.
      * apply site_listed. exact H1.
      * apply mem_unique_map. exists (sit, sto, com).
        split; [exact Hin | reflexivity].
      * apply commodity_listed. exact H3.
Qed.

Lemma subset_declarations_witness :
  within_pro_tuples Example.sets = true.
Proof.
  apply (proj1 (proj2 (proj2 (proj2
           (subset_declarations cost_types Example.system Example.horizon
              1 2190))))).
  intros sit pro coin cout Hin. simpl in Hin.
  destruct Hin as [Hin | [Hin | []]]; injection Hin as <- <- <- <-;
    repeat split;
    first [ exists "Coal", "Stock"; simpl; tauto
          | exists "A", "Stock"; simpl; tauto
          | exists "A", "SupIm"; simpl; tauto
          | exists "A", "Demand"; simpl; tauto ].
Defined.

(** ** Solutions of a model *)

Lemma create_model_fields (d : data) (ts : list Z) (dt : Q)
  (M : ConcreteModel) :
  create_model d ts dt = Ok M ->
  m_commodity (cm_model M) = commodity d
  /\ m_process (cm_model M) = process d
  /\ m_transmission (cm_model M) = transmission d
  /\ m_storage (cm_model M) = storage d
  /\ m_demand (cm_model M) = demand d
  /\ m_supim (cm_model M) = supim d
  /\ m_t (cm_model M) = ts
  /\ m_tm (cm_model M) = tl ts
  /\ m_dt (cm_model M) = dt.
Proof.
  intros HM.
  destruct (create_model_with_Ok _ _ _ _ _ HM) as [w [_ [Hm _]]].
  rewrite Hm. simpl. repeat split.
Qed.

(** A solution satisfies whatever the rule of a declared identifier
    returned. *)
Lemma feasible_rule (d : data) (ts : list Z) (dt : Q) (M : ConcreteModel)
  (rho : var -> Q) (id : constraint_id) :
  create_model d ts dt = Ok M -> feasible rho M ->
  in_index (cm_model M) id ->
  exists r,
    rule_of (cm_model M) id = Ok r
    /\ match r with
       | Constr rel => holds rho rel
       | Skip => True
       end.
Proof.
  intros HM [_ Hf] Hidx.
  destruct (create_model_with_Ok _ _ _ _ _ HM) as [w [_ [_ [_ [Hin Hall]]]]].
  destruct (Hall id Hidx) as [r Hr]. exists r. split; [exact Hr |].
  destruct r as [| rel]; [exact I |].
  apply (Hf id). apply Hin. split; assumption.
Qed.

Lemma feasible_nonneg (M : ConcreteModel) (rho : var -> Q) (v : var) :
  feasible rho M -> valid_index (cm_model M) v = true -> 0 <= rho v.
Proof.
  intros [Hd _] Hv. apply Hd. apply valid_index_variables. exact Hv.
Qed.

Lemma holds_b_holds (rho : var -> Q) (r : relexpr) :
  holds_b rho r = true -> holds rho r.
Proof.
  destruct r; simpl; intros H.
  - apply Qeq_bool_iff. exact H.
  - apply Qle_bool_iff. exact H.
  - apply Qle_bool_iff. exact H.
  - apply andb_true_iff in H. destruct H as [H1 H2].
    split; apply Qle_bool_iff; assumption.
Qed.

Lemma feasible_by_check (rho : var -> Q) (M : ConcreteModel) :
  (forall v, 0 <= rho v) -> satisfies_b rho M = true -> feasible rho M.
Proof.
  intros Hnn H. split; [intros v _; apply Hnn |].
  intros id rel Hin. unfold satisfies_b in H. rewrite forallb_forall in H.
  apply holds_b_holds. exact (H (id, rel) Hin).
Qed.

Lemma example_solution_nonneg (v : var) : 0 <= example_solution v.
Proof.
  destruct v; simpl;
    repeat match goal with
           | |- context [if ?b then _ else _] => destruct b
           end;
    discriminate.
Qed.

(** The example system has a model, and [example_solution] solves it. *)
Lemma example_solution_feasible :
  exists M,
    create_model Example.system Example.horizon 1 = Ok M
    /\ feasible example_solution M.
Proof.
  destruct (create_model Example.system Example.horizon 1) as [M | e] eqn:E;
    [| vm_compute in E; discriminate E].
  exists M. split; [reflexivity |].
  apply feasible_by_check; [exact example_solution_nonneg |].
  vm_compute in E. injection E as <-. vm_compute. reflexivity.
Qed.

Lemma in_index_model (d : data) (ts : list Z) (dt : Q) (M : ConcreteModel) :
  create_model d ts dt = Ok M ->
  m_com_tuples (cm_model M) = map fst (commodity d)
  /\ m_pro_tuples (cm_model M) = map fst (process d)
  /\ m_tra_tuples (cm_model M) = map fst (transmission d)
  /\ m_sto_tuples (cm_model M) = map fst (storage d).
Proof.
  intros HM.
  destruct (create_model_with_Ok _ _ _ _ _ HM) as [w [_ [Hm _]]].
  rewrite Hm. simpl. repeat split.
Qed.

(** X4: in every solution of a model returned by [create_model], each
    process satisfies at each modelled timestep: total capacity = new
    capacity + installed capacity, within its bounds; output = input *
    efficiency and output <= total capacity; CO2 output = input * CO2 rate
    * dt.  It follows that input * efficiency never exceeds the upper
    capacity bound, and that a process whose installed capacity exceeds its
    upper bound leaves the model without any solution. *)
Theorem process_in_solution (d : data) (ts : list Z) (dt : Q)
  (M : ConcreteModel) (rho : var -> Q) :
  create_model d ts dt = Ok M -> feasible rho M ->
  forall tm p, In tm (tl ts) -> In p (map fst (process d)) ->
  exists row,
    loc eqb4 (process d) p = Ok row
    /\ rho (cap_pro p) == rho (cap_pro_new p) + pro_inst_cap row
    /\ pro_cap_lo row <= rho (cap_pro p) <= pro_cap_up row
    /\ rho (e_pro_out tm p) == rho (e_pro_in tm p) * pro_eff row
    /\ rho (e_pro_out tm p) <= rho (cap_pro p)
    /\ rho (co2_pro_out tm p) == rho (e_pro_in tm p) * pro_co2 row * dt
    /\ rho (e_pro_in tm p) * pro_eff row <= pro_cap_up row
    /\ pro_inst_cap row <= pro_cap_up row.
Proof.
  intros HM Hf tm p Ht Hp.
  destruct (create_model_fields _ _ _ _ HM)
    as [_ [Fpro [_ [_ [_ [_ [Ft [Ftm Fdt]]]]]]]].
  destruct (in_index_model _ _ _ _ HM) as [_ [Ipro _]].
  destruct (loc_In eqb4 eqb4_eq p (process d) Hp) as [row Hrow].
  exists row. split; [exact Hrow |].
  assert (In tm (m_tm (cm_model M))) as Ht' by (rewrite Ftm; exact Ht).
  assert (In p (m_pro_tuples (cm_model M))) as Hp' by (rewrite Ipro; exact Hp).
  rewrite <- Fpro in Hrow.
  destruct (feasible_rule _ _ _ _ rho (def_process_capacity p) HM Hf)
    as [r1 [R1 H1]]; [exact Hp' |].
  destruct (feasible_rule _ _ _ _ rho (res_process_capacity p) HM Hf)
    as [r2 [R2 H2]]; [exact Hp' |].
  destruct (feasible_rule _ _ _ _ rho (def_process_output tm p) HM Hf)
    as [r3 [R3 H3]]; [split; assumption |].
  destruct (feasible_rule _ _ _ _ rho (res_process_output_by_capacity tm p)
              HM Hf) as [r4 [R4 H4]]; [split; assumption |].
  destruct (feasible_rule _ _ _ _ rho (def_co2_emissions tm p) HM Hf)
    as [r5 [R5 H5]]; [split; assumption |].
  cbn [rule_of] in R1, R2, R3, R4, R5.
  unfold def_process_capacity_rule in R1.
  unfold res_process_capacity_rule in R2.
  unfold def_process_output_rule in R3.
  unfold res_process_output_by_capacity_rule in R4.
  unfold def_co2_emissions_rule in R5.
  rewrite Hrow in R1, R2, R3, R5.
  rule_inv. simpl in H1, H2, H3, H4, H5.
  assert (0 <= rho (cap_pro_new p)) as Hnew
    by (apply (feasible_nonneg M rho _ Hf); solve_valid).
  destruct H2 as [Hlo Hup].
  repeat split; try assumption.
  - rewrite <- H3. apply (Qle_trans _ _ _ H4 Hup).
  - lra.
Qed.

Lemma process_in_solution_witness :
  exists M,
    create_model Example.system Example.horizon 1 = Ok M
    /\ feasible example_solution M
    /\ example_solution (e_pro_out 1 Example.coal)
         == example_solution (e_pro_in 1 Example.coal) * (1 # 2).
Proof.
  destruct example_solution_feasible as [M [HM Hf]].
  exists M. split; [exact HM |]. split; [exact Hf |].
  destruct (process_in_solution _ _ _ M example_solution HM Hf 1%Z Example.coal)
    as [row [Hrow [_ [_ [Hout _]]]]]; [simpl; tauto | simpl; tauto |].
  vm_compute in Hrow. injection Hrow as <-. exact Hout.
Defined.

Lemma capacity_forced_to_zero (c q e : Q) :
  0 <= c -> c * q * e <= c -> 1 < q * e -> c == 0.
Proof.
  intros Hnn Hle Hbig. apply Qle_antisym; [| exact Hnn].
  apply Qnot_lt_le. intros Hpos.
  assert (c * 1 < c * (q * e)) as Hlt by (apply Qmult_lt_l; assumption).
  apply (Qlt_irrefl c).
  apply Qlt_le_trans with (y := c * q * e); [| exact Hle].
  setoid_replace c with (c * 1) at 1 by ring.
  setoid_replace (c * q * e) with (c * (q * e)) by ring.
  exact Hlt.
Qed.

(** X5: in every solution, a process whose input commodity is
    supply-intermittent has input = total capacity * availability at every
    modelled timestep, hence output = total capacity * availability *
    efficiency; as the output may not exceed the capacity, a timestep at
    which availability * efficiency exceeds one forces the total capacity of
    the process to zero. *)
Theorem intermittent_process_in_solution (d : data) (ts : list Z) (dt : Q)
  (M : ConcreteModel) (rho : var -> Q) :
  create_model d ts dt = Ok M -> feasible rho M ->
  forall tm sit pro coin cout,
    In tm (tl ts) -> In (sit, pro, coin, cout) (map fst (process d)) ->
    (exists s, In (s, coin, "SupIm") (map fst (commodity d))) ->
    exists row q,
      loc eqb4 (process d) (sit, pro, coin, cout) = Ok row
      /\ series_loc (supim d) tm (sit, coin) = Ok q
      /\ rho (e_pro_in tm (sit, pro, coin, cout))
         == rho (cap_pro (sit, pro, coin, cout)) * q
      /\ rho (e_pro_out tm (sit, pro, coin, cout))
         == rho (cap_pro (sit, pro, coin, cout)) * q * pro_eff row
      /\ (1 < q * pro_eff row -> rho (cap_pro (sit, pro, coin, cout)) == 0).
Proof.
  intros HM Hf tm sit pro coin cout Ht Hp Hsup.
  destruct (create_model_fields _ _ _ _ HM)
    as [_ [Fpro [_ [_ [_ [Fsup [Ft [Ftm Fdt]]]]]]]].
  destruct (in_index_model _ _ _ _ HM) as [_ [Ipro _]].
  destruct (loc_In eqb4 eqb4_eq _ (process d) Hp) as [row Hrow].
  destruct (process_supply_generated _ _ _ _ HM tm sit pro coin cout Ht Hp)
    as [Hcap [Hgen _]].
  destruct (Hgen Hsup) as [q [Hq Hiff]].
  exists row, q. split; [exact Hrow |]. split; [exact Hq |].
  destruct Hf as [Hdom Hsat].
  pose proof (Hsat _ _ (proj2 (Hiff _) eq_refl)) as H1.
  pose proof (Hsat _ _ (proj2 (Hcap _) eq_refl)) as H2.
  simpl in H1, H2.
  assert (In tm (m_tm (cm_model M))) as Ht' by (rewrite Ftm; exact Ht).
  assert (In (sit, pro, coin, cout) (m_pro_tuples (cm_model M))) as Hp'
    by (rewrite Ipro; exact Hp).
  destruct (feasible_rule _ _ _ _ rho
              (def_process_output tm (sit, pro, coin, cout)) HM
              (conj Hdom Hsat)) as [r3 [R3 H3]]; [split; assumption |].
  cbn [rule_of] in R3. unfold def_process_output_rule in R3.
  rewrite <- Fpro in Hrow. rewrite Hrow in R3. rule_inv. simpl in H3.
  assert (0 <= rho (cap_pro (sit, pro, coin, cout))) as Hnn
    by (apply Hdom; apply valid_index_variables; solve_valid).
  split; [exact H1 |]. split; [rewrite H3, H1; reflexivity |].
  intros Hbig. rewrite H3, H1 in H2.
  exact (capacity_forced_to_zero _ _ _ Hnn H2 Hbig).
Qed.

Lemma intermittent_process_in_solution_witness :
  exists M,
    create_model Example.system Example.horizon 1 = Ok M
    /\ feasible example_solution M
    /\ example_solution (e_pro_in 1 Example.wind)
         == example_solution (cap_pro Example.wind) * (3 # 10).
Proof.
  destruct example_solution_feasible as [M [HM Hf]].
  exists M. split; [exact HM |]. split; [exact Hf |].
  destruct (intermittent_process_in_solution _ _ _ M example_solution HM Hf
              1%Z "A" "wt" "Wind" "Elec")
    as [row [q [_ [Hq [Hin _]]]]];
    [simpl; tauto | simpl; tauto | exists "A"; simpl; tauto |].
  vm_compute in Hq. injection Hq as <-. exact Hin.
Defined.

(** X6: in every solution, each transmission line satisfies at each
    modelled timestep: total capacity = new capacity + installed capacity,
    within its bounds; output = input * efficiency; input <= total capacity;
    and its total capacity equals that of the reverse line.  So the input of
    a line never exceeds its upper bound, and the capacity of a line also
    stays within the bounds given for the reverse line. *)
Theorem transmission_in_solution (d : data) (ts : list Z) (dt : Q)
  (M : ConcreteModel) (rho : var -> Q) :
  create_model d ts dt = Ok M -> feasible rho M ->
  forall tm sin sout tra com,
    In tm (tl ts) -> In (sin, sout, tra, com) (map fst (transmission d)) ->
    exists row back,
      loc eqb4 (transmission d) (sin, sout, tra, com) = Ok row
      /\ loc eqb4 (transmission d) (sout, sin, tra, com) = Ok back
      /\ rho (cap_tra (sin, sout, tra, com))
         == rho (cap_tra_new (sin, sout, tra, com)) + tra_inst_cap row
      /\ tra_cap_lo row <= rho (cap_tra (sin, sout, tra, com)) <= tra_cap_up row
      /\ rho (e_tra_out tm (sin, sout, tra, com))
         == rho (e_tra_in tm (sin, sout, tra, com)) * tra_eff row
      /\ rho (e_tra_in tm (sin, sout, tra, com))
         <= rho (cap_tra (sin, sout, tra, com))
      /\ rho (cap_tra (sin, sout, tra, com))
         == rho (cap_tra (sout, sin, tra, com))
      /\ rho (e_tra_in tm (sin, sout, tra, com)) <= tra_cap_up row
      /\ tra_cap_lo back <= rho (cap_tra (sin, sout, tra, com))
         <= tra_cap_up back.
Proof.
  intros HM Hf tm sin sout tra com Ht Hl.
  destruct (create_model_fields _ _ _ _ HM)
    as [_ [_ [Ftra [_ [_ [_ [Ft [Ftm Fdt]]]]]]]].
  destruct (in_index_model _ _ _ _ HM) as [_ [_ [Itra _]]].
  destruct (transmission_symmetry_generated _ _ _ _ HM _ _ _ _ Hl)
    as [Hback Hsym].
  destruct (loc_In eqb4 eqb4_eq _ (transmission d) Hl) as [row Hrow].
  destruct (loc_In eqb4 eqb4_eq _ (transmission d) Hback) as [back Hb].
  exists row, back. split; [exact Hrow |]. split; [exact Hb |].
  assert (In tm (m_tm (cm_model M))) as Ht' by (rewrite Ftm; exact Ht).
  assert (In (sin, sout, tra, com) (m_tra_tuples (cm_model M))) as Hl'
    by (rewrite Itra; exact Hl).
  assert (In (sout, sin, tra, com) (m_tra_tuples (cm_model M))) as Hb'
    by (rewrite Itra; exact Hback).
  rewrite <- Ftra in Hrow, Hb.
  pose proof (proj2 Hf _ _ (proj2 (Hsym _) eq_refl)) as H0. simpl in H0.
  destruct (feasible_rule _ _ _ _ rho
              (def_transmission_capacity (sin, sout, tra, com)) HM Hf)
    as [r1 [R1 H1]]; [exact Hl' |].
  destruct (feasible_rule _ _ _ _ rho
              (res_transmission_capacity (sin, sout, tra, com)) HM Hf)
    as [r2 [R2 H2]]; [exact Hl' |].
  destruct (feasible_rule _ _ _ _ rho
              (def_transmission_output tm (sin, sout, tra, com)) HM Hf)
    as [r3 [R3 H3]]; [split; assumption |].
  destruct (feasible_rule _ _ _ _ rho
              (res_transmission_input_by_capacity tm (sin, sout, tra, com))
              HM Hf) as [r4 [R4 H4]]; [split; assumption |].
  destruct (feasible_rule _ _ _ _ rho
              (res_transmission_capacity (sout, sin, tra, com)) HM Hf)
    as [r5 [R5 H5]]; [exact Hb' |].
  cbn [rule_of] in R1, R2, R3, R4, R5.
  unfold def_transmission_capacity_rule in R1.
  unfold res_transmission_capacity_rule in R2, R5.
  unfold def_transmission_output_rule in R3.
  unfold res_transmission_input_by_capacity_rule in R4.
  rewrite Hrow in R1, R2, R3. rewrite Hb in R5.
  rule_inv. simpl in H1, H2, H3, H4, H5.
  destruct H2 as [Hlo Hup]. destruct H5 as [Blo Bup].
  repeat split; try assumption.
  - apply (Qle_trans _ _ _ H4 Hup).
  - rewrite H0. exact Blo.
  - rewrite H0. exact Bup.
Qed.

Lemma transmission_in_solution_witness :
  exists M,
    create_model Example.system Example.horizon 1 = Ok M
    /\ feasible example_solution M
    /\ example_solution (e_tra_in 1 Example.line_ab) <= 100.
Proof.
  destruct example_solution_feasible as [M [HM Hf]].
  exists M. split; [exact HM |]. split; [exact Hf |].
  destruct (transmission_in_solution _ _ _ M example_solution HM Hf
              1%Z "A" "B" "hvac" "Elec")
    as [row [back [Hrow [_ [_ [_ [_ [_ [_ [Hin _]]]]]]]]]];
    [simpl; tauto | simpl; tauto |].
  vm_compute in Hrow. injection Hrow as <-. exact Hin.
Defined.

(** X7: in every solution, each storage satisfies: power = new power +
    installed power and capacity = new capacity + installed capacity, each
    within its bounds; at every modelled timestep input and output are at
    most the power; at every timestep of the horizon, the initial one
    included, the content is at most the capacity, hence at most the upper
    capacity bound. *)
Theorem storage_in_solution (d : data) (ts : list Z) (dt : Q)
  (M : ConcreteModel) (rho : var -> Q) :
  create_model d ts dt = Ok M -> feasible rho M ->
  forall s, In s (map fst (storage d)) ->
  exists row,
    loc eqb3 (storage d) s = Ok row
    /\ rho (cap_sto_p s) == rho (cap_sto_p_new s) + sto_inst_cap_p row
    /\ rho (cap_sto_c s) == rho (cap_sto_c_new s) + sto_inst_cap_c row
    /\ sto_cap_lo_p row <= rho (cap_sto_p s) <= sto_cap_up_p row
    /\ sto_cap_lo_c row <= rho (cap_sto_c s) <= sto_cap_up_c row
    /\ (forall tm, In tm (tl ts) ->
          rho (e_sto_in tm s) <= rho (cap_sto_p s)
          /\ rho (e_sto_out tm s) <= rho (cap_sto_p s))
    /\ (forall t, In t ts ->
          rho (e_sto_con t s) <= rho (cap_sto_c s)
          /\ rho (e_sto_con t s) <= sto_cap_up_c row).
Proof.
  intros HM Hf s Hs.
  destruct (create_model_fields _ _ _ _ HM)
    as [_ [_ [_ [Fsto [_ [_ [Ft [Ftm Fdt]]]]]]]].
  destruct (in_index_model _ _ _ _ HM) as [_ [_ [_ Isto]]].
  destruct (loc_In eqb3 eqb3_eq _ (storage d) Hs) as [row Hrow].
  exists row. split; [exact Hrow |].
  assert (In s (m_sto_tuples (cm_model M))) as Hs' by (rewrite Isto; exact Hs).
  rewrite <- Fsto in Hrow.
  destruct (feasible_rule _ _ _ _ rho (def_storage_power s) HM Hf)
    as [r1 [R1 H1]]; [exact Hs' |].
  destruct (feasible_rule _ _ _ _ rho (def_storage_capacity s) HM Hf)
    as [r2 [R2 H2]]; [exact Hs' |].
  destruct (feasible_rule _ _ _ _ rho (res_storage_power s) HM Hf)
    as [r3 [R3 H3]]; [exact Hs' |].
  destruct (feasible_rule _ _ _ _ rho (res_storage_capacity s) HM Hf)
    as [r4 [R4 H4]]; [exact Hs' |].
  cbn [rule_of] in R1, R2, R3, R4.
  unfold def_storage_power_rule in R1. unfold def_storage_capacity_rule in R2.
  unfold res_storage_power_rule in R3. unfold res_storage_capacity_rule in R4.
  rewrite Hrow in R1, R2, R3, R4.
  assert (forall tm, In tm (tl ts) ->
            rho (e_sto_in tm s) <= rho (cap_sto_p s)
            /\ rho (e_sto_out tm s) <= rho (cap_sto_p s)) as Hflow.
  { intros tm Ht.
    assert (In tm (m_tm (cm_model M))) as Ht' by (rewrite Ftm; exact Ht).
    destruct (feasible_rule _ _ _ _ rho (res_storage_input_by_power tm s)
                HM Hf) as [r5 [R5 H5]]; [split; assumption |].
    destruct (feasible_rule _ _ _ _ rho (res_storage_output_by_power tm s)
                HM Hf) as [r6 [R6 H6]]; [split; assumption |].
    cbn [rule_of] in R5, R6.
    unfold res_storage_input_by_power_rule in R5.
    unfold res_storage_output_by_power_rule in R6.
    clear R1 R2 R3 R4. rule_inv. simpl in H5, H6. split; assumption. }
  assert (forall t, In t ts -> rho (e_sto_con t s) <= rho (cap_sto_c s))
    as Hcon.
  { intros t Ht.
    assert (In t (m_t (cm_model M))) as Ht' by (rewrite Ft; exact Ht).
    destruct (feasible_rule _ _ _ _ rho
                (res_storage_state_by_capacity t s) HM Hf)
      as [r7 [R7 H7]]; [split; assumption |].
    cbn [rule_of] in R7. unfold res_storage_state_by_capacity_rule in R7.
    clear R1 R2 R3 R4. rule_inv. simpl in H7. exact H7. }
  rule_inv. simpl in H1, H2, H3, H4.
  destruct H3 as [Plo Pup]. destruct H4 as [Clo Cup].
  repeat split; try assumption;
    try (intros; apply Hflow; assumption).
  - apply Hcon. assumption.
  - apply Qle_trans with (y := rho (cap_sto_c s)); [apply Hcon; assumption |].
    exact Cup.
Qed.

Lemma storage_in_solution_witness :
  exists M,
    create_model Example.system Example.horizon 1 = Ok M
    /\ feasible example_solution M
    /\ example_solution (e_sto_con 0 Example.battery) <= 200.
Proof.
  destruct example_solution_feasible as [M [HM Hf]].
  exists M. split; [exact HM |]. split; [exact Hf |].
  destruct (storage_in_solution _ _ _ M example_solution HM Hf Example.battery)
    as [row [Hrow [_ [_ [_ [_ [_ Hcon]]]]]]]; [simpl; tauto |].
  vm_compute in Hrow. injection Hrow as <-.
  apply (Hcon 0%Z). simpl. tauto.
Defined.

Lemma create_model_horizon_nonempty (d : data) (ts : list Z) (dt : Q)
  (M : ConcreteModel) : create_model d ts dt = Ok M -> ts <> [].
Proof.
  intros HM.
  destruct (create_model_with_Ok _ _ _ _ _ HM) as [w [Hw _]].
  destruct (weight_param_Ok ts dt w Hw) as [_ Hne].
  intros ->. apply Hne. reflexivity.
Qed.

Lemma telescope (f delta : Z -> Q) :
  forall a rest,
    consecutive (a :: rest) = true ->
    (forall t, In t rest -> f t == f (t - 1)%Z + delta t) ->
    f (last (a :: rest) 0%Z) == f a + Qsum (map delta rest).
Proof.
  intros a rest. revert a.
  induction rest as [| b rest IH]; intros a Hc Hstep.
  - simpl. ring.
  - cbn [consecutive] in Hc. apply andb_true_iff in Hc.
    destruct Hc as [Hb Hc]. apply Z.eqb_eq in Hb.
    change (last (a :: b :: rest) 0%Z) with (last (b :: rest) 0%Z).
    rewrite (IH b Hc); [| intros t Ht; apply Hstep; right; exact Ht].
    rewrite (Hstep b (or_introl eq_refl)).
    replace (b - 1)%Z with a by lia.
    simpl map. rewrite Qsum_cons. ring.
Qed.

(** X8: on a horizon of consecutive timestep identifiers, in every solution
    the content of a storage at the last timestep is its content at the
    first timestep plus the sum over the modelled timesteps of
    input * eff_in * dt - output / eff_out * dt; the content at the first
    timestep is total capacity * initial fraction; and the summed net
    charge is not negative, so over the horizon a storage is never drained
    below its initial content. *)
Theorem storage_energy_balance (d : data) (ts : list Z) (dt : Q)
  (M : ConcreteModel) (rho : var -> Q) :
  create_model d ts dt = Ok M -> feasible rho M -> consecutive ts = true ->
  forall s, In s (map fst (storage d)) ->
  exists row,
    loc eqb3 (storage d) s = Ok row
    /\ rho (e_sto_con (last ts 0%Z) s)
       == rho (e_sto_con (hd 0%Z ts) s)
          + Qsum (map (fun t =>
                         rho (e_sto_in t s) * sto_eff_in row * dt
                         - rho (e_sto_out t s) / sto_eff_out row * dt)
                      (tl ts))
    /\ rho (e_sto_con (hd 0%Z ts) s) == rho (cap_sto_c s) * sto_init row
    /\ 0 <= Qsum (map (fun t =>
                         rho (e_sto_in t s) * sto_eff_in row * dt
                         - rho (e_sto_out t s) / sto_eff_out row * dt)
                      (tl ts)).
Proof.
  intros HM Hf Hc s Hs.
  pose proof (create_model_horizon_nonempty _ _ _ _ HM) as Hne.
  destruct ts as [| a rest]; [contradiction |]. clear Hne.
  destruct (loc_In eqb3 eqb3_eq _ (storage d) Hs) as [row Hrow].
  exists row. split; [exact Hrow |].
  cbn [hd tl].
  assert (rho (e_sto_con (last (a :: rest) 0%Z) s)
          == rho (e_sto_con a s)
             + Qsum (map (fun t =>
                            rho (e_sto_in t s) * sto_eff_in row * dt
                            - rho (e_sto_out t s) / sto_eff_out row * dt)
                         rest)) as Htel.
  { apply (telescope (fun t => rho (e_sto_con t s))
             (fun t => rho (e_sto_in t s) * sto_eff_in row * dt
                       - rho (e_sto_out t s) / sto_eff_out row * dt)
             a rest Hc).
    intros t Ht.
    destruct (def_storage_state_generated _ _ _ _ HM t s Ht Hs)
      as [row' [Hrow' [_ Hiff]]].
    rewrite Hrow in Hrow'. injection Hrow' as <-.
    pose proof (proj2 Hf _ _ (proj2 (Hiff _) eq_refl)) as H.
    simpl in H. rewrite H. ring. }
  destruct (initial_final_generated _ _ _ _ HM a s (or_introl eq_refl) Hs)
    as [row1 [Hrow1 [Hfirst _]]].
  rewrite Hrow in Hrow1. injection Hrow1 as <-.
  pose proof (proj2 Hf _ _ (proj2 (Hfirst eq_refl _) eq_refl)) as Hinit.
  simpl in Hinit.
  split; [exact Htel |]. split; [exact Hinit |].
  revert Htel.
  generalize (Qsum (map (fun t =>
                           rho (e_sto_in t s) * sto_eff_in row * dt
                           - rho (e_sto_out t s) / sto_eff_out row * dt)
                        rest)).
  intros net Htel.
  destruct (Z.eq_dec (last (a :: rest) 0%Z) a) as [E | E].
  - rewrite E in Htel. clear - Htel. lra.
  - assert (In (last (a :: rest) 0%Z) (a :: rest)) as Hl.
    { destruct (exists_last (l := a :: rest)) as [l' [x El]];
        [discriminate |].
      rewrite El, last_last. apply in_or_app. right. left. reflexivity. }
    destruct (initial_final_generated _ _ _ _ HM _ s Hl Hs)
      as [row2 [Hrow2 [_ [Hlast _]]]].
    rewrite Hrow in Hrow2. injection Hrow2 as <-.
    pose proof (proj2 Hf _ _ (proj2 (Hlast E eq_refl _) eq_refl)) as Hfin.
    unfold final_state_relation, holds in Hfin. cbn [eval] in Hfin.
    revert Hinit Hfin Htel.
    generalize (rho (cap_sto_c s) * sto_init row).
    intros c Hinit Hfin Htel. clear - Hinit Hfin Htel. lra.
Qed.

Lemma storage_energy_balance_witness :
  exists M,
    create_model Example.system Example.horizon 1 = Ok M
    /\ feasible example_solution M
    /\ example_solution (e_sto_con 0 Example.battery)
         == example_solution (cap_sto_c Example.battery) * (1 # 2).
Proof.
  destruct example_solution_feasible as [M [HM Hf]].
  exists M. split; [exact HM |]. split; [exact Hf |].
  destruct (storage_energy_balance _ _ _ M example_solution HM Hf eq_refl Example.battery)
    as [row [Hrow [_ [Hinit _]]]]; [simpl; tauto |].
  vm_compute in Hrow. injection Hrow as <-. exact Hinit.
Defined.

(** ** Balances, emissions and costs in a solution *)

Lemma commodity_balance_eval (m : model) (tm : Z) (sit com : string)
  (e : expr) (rho : var -> Q) :
  commodity_balance m tm sit com = Ok e ->
  eval rho e == balance_sum rho m tm sit com.
Proof.
  intros H. unfold commodity_balance in H. bind_inv H. bind_inv H.
  rewrite (balance_storage_loop _ _ _ _ rho _ _ _ H).
  rewrite (balance_transmission_loop _ _ _ _ rho _ _ _ Ha0).
  rewrite (balance_process_loop _ _ _ _ rho _ _ _ Ha).
  unfold balance_sum. simpl eval. ring.
Qed.

(** X9: in every solution, at every modelled timestep, the negated
    commodity balance of a demand commodity at a site is at least the demand
    read from the series; and for a tuple of a stock commodity the purchase
    variable equals the commodity balance, which therefore lies between zero
    and the tuple's maximum per step: a stock commodity is never produced in
    surplus at a site. *)
Theorem commodity_in_solution (d : data) (ts : list Z) (dt : Q)
  (M : ConcreteModel) (rho : var -> Q) :
  create_model d ts dt = Ok M -> feasible rho M ->
  forall tm sit com ty,
    In tm (tl ts) -> In (sit, com, ty) (map fst (commodity d)) ->
    ((exists s, In (s, com, "Demand") (map fst (commodity d))) ->
     exists q,
       series_loc (demand d) tm (sit, com) = Ok q
       /\ q <= - balance_sum rho (cm_model M) tm sit com)
    /\ ((exists s, In (s, com, "Stock") (map fst (commodity d))) ->
        exists row,
          loc eqb3 (commodity d) (sit, com, ty) = Ok row
          /\ rho (e_co_stock tm (sit, com, ty))
             == balance_sum rho (cm_model M) tm sit com
          /\ 0 <= balance_sum rho (cm_model M) tm sit com
          /\ balance_sum rho (cm_model M) tm sit com <= com_maxperstep row).
Proof.
  intros HM Hf tm sit com ty Ht Hc.
  destruct (create_model_with_Ok _ _ _ _ _ HM) as [w [_ [Hm _]]].
  assert (In tm (m_tm (cm_model M))) as Ht' by (rewrite Hm; exact Ht).
  assert (In (sit, com, ty) (m_com_tuples (cm_model M))) as Hc'
    by (rewrite Hm; exact Hc).
  split.
  - intros Hdem.
    assert (mem String.eqb com (m_com_demand (cm_model M)) = true) as E
      by (rewrite Hm; simpl; apply mem_commodities_of_type; exact Hdem).
    destruct (feasible_rule _ _ _ _ rho (res_demand tm (sit, com, ty)) HM Hf)
      as [r [R H]]; [split; assumption |].
    cbn [rule_of] in R. unfold res_demand_rule in R. rewrite E in R.
    simpl negb in R. cbv iota in R.
    bind_inv R. bind_inv R. injection R as <-. simpl in H.
    exists a0. split; [rewrite Hm in Ha0; exact Ha0 |].
    rewrite <- (commodity_balance_eval _ _ _ _ _ rho Ha). exact H.
  - intros Hst.
    assert (mem String.eqb com (m_com_stock (cm_model M)) = true) as E
      by (rewrite Hm; simpl; apply mem_commodities_of_type; exact Hst).
    destruct (feasible_rule _ _ _ _ rho (def_e_co_stock tm (sit, com, ty))
                HM Hf) as [r1 [R1 H1]]; [split; assumption |].
    destruct (feasible_rule _ _ _ _ rho (res_stock_step tm (sit, com, ty))
                HM Hf) as [r2 [R2 H2]]; [split; assumption |].
    cbn [rule_of] in R1, R2.
    unfold def_e_co_stock_rule in R1. unfold res_stock_step_rule in R2.
    rewrite E in R1, R2. simpl negb in R1, R2. cbv iota in R1, R2.
    bind_inv R1. apply getitem_Ok in Ha. destruct Ha as [Hv ->].
    bind_inv R1. injection R1 as <-.
    apply bind_Ok in R2. destruct R2 as [v2 [Hv2 R2]].
    apply getitem_Ok in Hv2. destruct Hv2 as [_ ->].
    apply bind_Ok in R2. destruct R2 as [row [Hrow R2]].
    injection R2 as <-.
    simpl in H1, H2.
    rewrite (commodity_balance_eval _ _ _ _ _ rho Ha) in H1.
    pose proof (feasible_nonneg M rho _ Hf Hv) as Hnn.
    exists row. split; [rewrite Hm in Hrow; exact Hrow |].
    split; [exact H1 |]. split.
    + rewrite <- H1. exact Hnn.
    + rewrite <- H1. exact H2.
Qed.

Lemma commodity_in_solution_witness :
  exists M,
    create_model Example.system Example.horizon 1 = Ok M
    /\ feasible example_solution M
    /\ 100 <= - balance_sum example_solution (cm_model M) 1 "A" "Elec".
Proof.
  destruct example_solution_feasible as [M [HM Hf]].
  exists M. split; [exact HM |]. split; [exact Hf |].
  destruct (commodity_in_solution _ _ _ M example_solution HM Hf 1%Z "A" "Elec" "Demand")
    as [Hdem _]; [simpl; tauto | simpl; tauto |].
  destruct Hdem as [q [Hq Hle]]; [exists "A"; simpl; tauto |].
  vm_compute in Hq. injection Hq as <-. exact Hle.
Defined.

Lemma eval_fold_EAdd (rho : var -> Q) (l : list expr) :
  forall acc,
    eval rho (fold_left EAdd l acc)
    == eval rho acc + Qsum (map (eval rho) l).
Proof.
  induction l as [| e l IH]; intros acc.
  - simpl. ring.
  - simpl fold_left. rewrite IH. simpl map. rewrite Qsum_cons.
    simpl eval. ring.
Qed.

Lemma eval_psum (rho : var -> Q) (l : list expr) :
  eval rho (psum l) == Qsum (map (eval rho) l).
Proof. unfold psum. rewrite eval_fold_EAdd. simpl eval. ring. Qed.

Lemma Qsum_ext {A : Type} (f g : A -> Q) (l : list A) :
  (forall x, In x l -> f x == g x) -> Qsum (map f l) == Qsum (map g l).
Proof.
  induction l as [| x l IH]; intros H; [reflexivity |].
  simpl map. rewrite !Qsum_cons.
  rewrite (H x (or_introl eq_refl)), IH; [reflexivity |].
  intros y Hy. apply H. right. exact Hy.
Qed.

Lemma attribute_loc {K V : Type} (eqb : K -> K -> bool) (frame : list (K * V))
  (column : V -> Q) (k : K) (row : V) :
  loc eqb frame k = Ok row -> attribute eqb frame column k = column row.
Proof.
  unfold loc, attribute. destruct (assoc eqb k frame); [| discriminate].
  intros H. injection H as ->. reflexivity.
Qed.

(** The value of a Python [sum] over a comprehension whose terms evaluate
    to [g x]. *)
Lemma eval_sum_terms {A : Type} (rho : var -> Q) (f : A -> result expr)
  (g : A -> Q) (l : list A) :
  (forall x y, In x l -> f x = Ok y -> eval rho y == g x) ->
  forall terms, mapM f l = Ok terms ->
  eval rho (psum terms) == Qsum (map g l).
Proof.
  intros Hf terms H. rewrite eval_psum. revert terms H.
  induction l as [| x l IH]; intros terms H.
  - simpl in H. injection H as <-. reflexivity.
  - simpl in H. bind_inv H. bind_inv H. injection H as <-.
    simpl map. rewrite !Qsum_cons.
    rewrite (Hf x a (or_introl eq_refl) Ha).
    rewrite (IH (fun z y Hz => Hf z y (or_intror Hz)) a0 Ha0).
    reflexivity.
Qed.

Lemma co2_emission_in_solution (d : data) (ts : list Z) (dt : Q)
  (M : ConcreteModel) (rho : var -> Q) (tm : Z) (p : pro_tuple) :
  create_model d ts dt = Ok M -> feasible rho M ->
  In tm (tl ts) -> In p (map fst (process d)) ->
  rho (co2_pro_out tm p)
  == rho (e_pro_in tm p) * attribute eqb4 (process d) pro_co2 p * dt.
Proof.
  intros HM Hf Ht Hp.
  destruct (create_model_with_Ok _ _ _ _ _ HM) as [w [_ [Hm _]]].
  destruct (feasible_rule _ _ _ _ rho (def_co2_emissions tm p) HM Hf)
    as [r [R H]]; [rewrite Hm; simpl; split; assumption |].
  cbn [rule_of] in R. unfold def_co2_emissions_rule in R.
  apply bind_Ok in R. destruct R as [v1 [Hv1 R]].
  apply getitem_Ok in Hv1. destruct Hv1 as [_ ->].
  apply bind_Ok in R. destruct R as [v2 [Hv2 R]].
  apply getitem_Ok in Hv2. destruct Hv2 as [_ ->].
  apply bind_Ok in R. destruct R as [row [Hrow R]]. injection R as <-.
  simpl in H. rewrite H. rewrite Hm in Hrow. simpl in Hrow.
  rewrite (attribute_loc _ _ pro_co2 _ _ Hrow).
  replace (m_dt (cm_model M)) with dt by (rewrite Hm; reflexivity).
  reflexivity.
Qed.

(** X10: for a horizon whose timesteps are pairwise distinct, in every
    solution the emissions of all processes over the modelled timesteps,
    each being input * CO2 rate * dt, summed and scaled by the weight, stay
    within the maximum of the commodity row [('Global', 'CO2', 'Env')]. *)
Theorem emission_cap_in_solution (d : data) (ts : list Z) (dt : Q)
  (M : ConcreteModel) (rho : var -> Q) :
  create_model d ts dt = Ok M -> feasible rho M -> NoDup ts ->
  exists row,
    loc eqb3 (commodity d) ("Global", "CO2", "Env") = Ok row
    /\ Qsum (map (fun i : Z * pro_tuple =>
                    rho (e_pro_in (fst i) (snd i))
                    * attribute eqb4 (process d) pro_co2 (snd i) * dt)
                 (list_prod (tl ts) (map fst (process d))))
       * m_weight (cm_model M)
       <= com_max row.
Proof.
  intros HM Hf _.
  destruct (create_model_with_Ok _ _ _ _ _ HM) as [w [_ [Hm _]]].
  destruct (feasible_rule _ _ _ _ rho res_co2_emission HM Hf)
    as [r [R H]]; [exact I |].
  cbn [rule_of] in R. unfold res_co2_emission_rule in R.
  apply bind_Ok in R. destruct R as [row [Hrow R]]. injection R as <-.
  exists row. split; [rewrite Hm in Hrow; exact Hrow |].
  unfold holds in H. cbn [eval] in H. rewrite eval_psum, map_map in H.
  replace (m_tm (cm_model M)) with (tl ts) in H by (rewrite Hm; reflexivity).
  replace (m_pro_tuples (cm_model M)) with (map fst (process d)) in H
    by (rewrite Hm; reflexivity).
  rewrite <- (Qsum_ext (fun i : Z * pro_tuple =>
                          eval rho (EVar (co2_pro_out (fst i) (snd i))))).
  - exact H.
  - intros [tm p] Hi. apply in_prod_iff in Hi. destruct Hi as [Ht Hp].
    simpl. exact (co2_emission_in_solution _ _ _ M rho tm p HM Hf Ht Hp).
Qed.

Lemma emission_cap_in_solution_witness :
  exists M,
    create_model Example.system Example.horizon 1 = Ok M
    /\ feasible example_solution M
    /\ exists row,
           loc eqb3 (commodity Example.system) ("Global", "CO2", "Env")
           = Ok row
           /\ Qsum (map (fun i : Z * pro_tuple =>
                           example_solution (e_pro_in (fst i) (snd i))
                           * attribute eqb4 (process Example.system) pro_co2
                               (snd i) * 1)
                        (list_prod (tl Example.horizon)
                           (map fst (process Example.system))))
              * m_weight (cm_model M)
              <= com_max row.
Proof.
  destruct example_solution_feasible as [M [HM Hf]].
  exists M. split; [exact HM |]. split; [exact Hf |].
  apply (emission_cap_in_solution _ _ _ M example_solution HM Hf).
  repeat constructor; simpl; intuition discriminate.
Defined.

(** Identifies the rows of repeated lookups of one key and reads the
    attributes of the goal from them. *)
Ltac read_attributes :=
  repeat
    match goal with
    | H1 : ?l = Ok ?a, H2 : ?l = Ok ?b |- _ =>
        rewrite H1 in H2; inversion H2; subst; clear H2
    end;
  cbn [eval fst snd];
  repeat (erewrite attribute_loc by eassumption);
  try ring.

Lemma def_costs_rule_Inv (m : model) (r : relexpr) (rho : var -> Q) :
  def_costs_rule m "Inv" = Ok (Constr r) -> holds rho r ->
  rho (costs "Inv")
  == Qsum (map (fun p =>
                  rho (cap_pro_new p)
                  * attribute eqb4 (m_process m) pro_inv_cost p
                  * attribute eqb4 (m_process m) pro_annuity_factor p)
               (m_pro_tuples m))
     + Qsum (map (fun t =>
                    rho (cap_tra_new t)
                    * attribute eqb4 (m_transmission m) tra_inv_cost t
                    * attribute eqb4 (m_transmission m) tra_annuity_factor t)
                 (m_tra_tuples m))
     + Qsum (map (fun s =>
                    rho (cap_sto_p_new s)
                    * attribute eqb3 (m_storage m) sto_inv_cost_p s
                    * attribute eqb3 (m_storage m) sto_annuity_factor s
                    + rho (cap_sto_c_new s)
                      * attribute eqb3 (m_storage m) sto_inv_cost_c s
                      * attribute eqb3 (m_storage m) sto_annuity_factor s)
                 (m_sto_tuples m)).
Proof.
  unfold def_costs_rule. cbn [String.eqb Ascii.eqb Bool.eqb]. intros R H.
  apply bind_Ok in R. destruct R as [lhs [Hl R]].
  apply getitem_Ok in Hl. destruct Hl as [_ ->].
  apply bind_Ok in R. destruct R as [pro [Hpro R]].
  apply bind_Ok in R. destruct R as [tra [Htra R]].
  apply bind_Ok in R. destruct R as [sto [Hsto R]].
  injection R as <-. simpl in H. rewrite H.
  apply Qplus_comp; [apply Qplus_comp |].
  - apply (eval_sum_terms rho _ _ _) with (2 := Hpro).
    intros x y Hx Hy. cbv beta in Hy. rule_inv. read_attributes.
  - apply (eval_sum_terms rho _ _ _) with (2 := Htra).
    intros x y Hx Hy. cbv beta in Hy. rule_inv. read_attributes.
  - apply (eval_sum_terms rho _ _ _) with (2 := Hsto).
    intros x y Hx Hy. cbv beta in Hy. rule_inv. read_attributes.
Qed.

Lemma def_costs_rule_Fix (m : model) (r : relexpr) (rho : var -> Q) :
  def_costs_rule m "Fix" = Ok (Constr r) -> holds rho r ->
  rho (costs "Fix")
  == Qsum (map (fun p =>
                  rho (cap_pro p) * attribute eqb4 (m_process m) pro_fix_cost p)
               (m_pro_tuples m))
     + Qsum (map (fun t =>
                    rho (cap_tra t)
                    * attribute eqb4 (m_transmission m) tra_fix_cost t)
                 (m_tra_tuples m))
     + Qsum (map (fun s =>
                    rho (cap_sto_p s)
                    * attribute eqb3 (m_storage m) sto_fix_cost_p s
                    + rho (cap_sto_c s)
                      * attribute eqb3 (m_storage m) sto_fix_cost_c s)
                 (m_sto_tuples m)).
Proof.
  unfold def_costs_rule. cbn [String.eqb Ascii.eqb Bool.eqb]. intros R H.
  apply bind_Ok in R. destruct R as [lhs [Hl R]].
  apply getitem_Ok in Hl. destruct Hl as [_ ->].
  apply bind_Ok in R. destruct R as [pro [Hpro R]].
  apply bind_Ok in R. destruct R as [tra [Htra R]].
  apply bind_Ok in R. destruct R as [sto [Hsto R]].
  injection R as <-. simpl in H. rewrite H.
  apply Qplus_comp; [apply Qplus_comp |].
  - apply (eval_sum_terms rho _ _ _) with (2 := Hpro).
    intros x y Hx Hy. cbv beta in Hy. rule_inv. read_attributes.
  - apply (eval_sum_terms rho _ _ _) with (2 := Htra).
    intros x y Hx Hy. cbv beta in Hy. rule_inv. read_attributes.
  - apply (eval_sum_terms rho _ _ _) with (2 := Hsto).
    intros x y Hx Hy. cbv beta in Hy. rule_inv. read_attributes.
Qed.

Lemma def_costs_rule_Var (m : model) (r : relexpr) (rho : var -> Q) :
  def_costs_rule m "Var" = Ok (Constr r) -> holds rho r ->
  rho (costs "Var")
  == Qsum (map (fun i : Z * pro_tuple =>
                  rho (e_pro_out (fst i) (snd i)) * m_dt m
                  * attribute eqb4 (m_process m) pro_var_cost (snd i)
                  * m_weight m)
               (list_prod (m_tm m) (m_pro_tuples m)))
     + Qsum (map (fun i : Z * tra_tuple =>
                    rho (e_tra_in (fst i) (snd i)) * m_dt m
                    * attribute eqb4 (m_transmission m) tra_var_cost (snd i)
                    * m_weight m)
                 (list_prod (m_tm m) (m_tra_tuples m)))
     + Qsum (map (fun i : Z * sto_tuple =>
                    rho (e_sto_con (fst i) (snd i))
                    * attribute eqb3 (m_storage m) sto_var_cost_c (snd i)
                    * m_weight m
                    + (rho (e_sto_in (fst i) (snd i))
                       + rho (e_sto_out (fst i) (snd i)))
                      * m_dt m
                      * attribute eqb3 (m_storage m) sto_var_cost_p (snd i)
                      * m_weight m)
                 (list_prod (m_tm m) (m_sto_tuples m))).
Proof.
  unfold def_costs_rule. cbn [String.eqb Ascii.eqb Bool.eqb]. intros R H.
  apply bind_Ok in R. destruct R as [lhs [Hl R]].
  apply getitem_Ok in Hl. destruct Hl as [_ ->].
  apply bind_Ok in R. destruct R as [pro [Hpro R]].
  apply bind_Ok in R. destruct R as [tra [Htra R]].
  apply bind_Ok in R. destruct R as [sto [Hsto R]].
  injection R as <-. simpl in H. rewrite H.
  apply Qplus_comp; [apply Qplus_comp |].
  - apply (eval_sum_terms rho _ _ _) with (2 := Hpro).
    intros [tm x] y Hx Hy. cbv beta iota in Hy. rule_inv. read_attributes.
  - apply (eval_sum_terms rho _ _ _) with (2 := Htra).
    intros [tm x] y Hx Hy. cbv beta iota in Hy. rule_inv. read_attributes.
  - apply (eval_sum_terms rho _ _ _) with (2 := Hsto).
    intros [tm x] y Hx Hy. cbv beta iota in Hy. rule_inv. read_attributes.
Qed.

Lemma def_costs_rule_Fuel (m : model) (r : relexpr) (rho : var -> Q) :
  def_costs_rule m "Fuel" = Ok (Constr r) -> holds rho r ->
  rho (costs "Fuel")
  == Qsum (map (fun i : Z * com_tuple =>
                  rho (e_co_stock (fst i) (snd i)) * m_dt m
                  * attribute eqb3 (m_commodity m) com_price (snd i)
                  * m_weight m)
               (filter (fun i : Z * com_tuple =>
                          mem String.eqb (snd (fst (snd i))) (m_com_stock m))
                       (list_prod (m_tm m) (m_com_tuples m)))).
Proof.
  unfold def_costs_rule. cbn [String.eqb Ascii.eqb Bool.eqb]. intros R H.
  apply bind_Ok in R. destruct R as [lhs [Hl R]].
  apply getitem_Ok in Hl. destruct Hl as [_ ->].
  apply bind_Ok in R. destruct R as [terms [Hterms R]].
  injection R as <-. simpl in H. rewrite H.
  apply (eval_sum_terms rho _ _ _) with (2 := Hterms).
  intros [tm x] y Hx Hy. cbv beta iota in Hy. rule_inv. read_attributes.
Qed.

Lemma cost_constraint_in_solution (d : data) (ts : list Z) (dt : Q)
  (M : ConcreteModel) (rho : var -> Q) (ct : string) :
  create_model d ts dt = Ok M -> feasible rho M -> In ct cost_types ->
  exists r,
    def_costs_rule (cm_model M) ct = Ok (Constr r) /\ holds rho r.
Proof.
  intros HM Hf Hct.
  destruct (create_model_with_Ok _ _ _ _ _ HM) as [w [_ [Hm _]]].
  assert (in_index (cm_model M) (def_costs ct)) as Hidx
    by (rewrite Hm; simpl; exact Hct).
  destruct (feasible_rule _ _ _ _ rho (def_costs ct) HM Hf Hidx)
    as [r [R H]]. cbn [rule_of] in R.
  destruct (def_costs_rule_total (cm_model M) ct) as [rhs E].
  - rewrite Hm. apply declare_sets_consistent.
  - exact Hidx.
  - exact Hct.
  - rewrite E in R. injection R as <-.
    exists (REq (EVar (costs ct)) rhs). split; [exact E | exact H].
Qed.

(** X11: in every solution, the investment cost variable equals the sum
    over processes and transmission lines of new capacity * investment cost
    * annuity factor plus, over storages, the same for new power and new
    capacity; and the fixed cost variable equals the sum over processes,
    lines and storages of total capacity (power and capacity for a storage)
    * fixed cost. *)
Theorem capacity_costs_in_solution (d : data) (ts : list Z) (dt : Q)
  (M : ConcreteModel) (rho : var -> Q) :
  create_model d ts dt = Ok M -> feasible rho M ->
  rho (costs "Inv")
  == Qsum (map (fun p =>
                  rho (cap_pro_new p)
                  * attribute eqb4 (process d) pro_inv_cost p
                  * attribute eqb4 (process d) pro_annuity_factor p)
               (map fst (process d)))
     + Qsum (map (fun t =>
                    rho (cap_tra_new t)
                    * attribute eqb4 (transmission d) tra_inv_cost t
                    * attribute eqb4 (transmission d) tra_annuity_factor t)
                 (map fst (transmission d)))
     + Qsum (map (fun s =>
                    rho (cap_sto_p_new s)
                    * attribute eqb3 (storage d) sto_inv_cost_p s
                    * attribute eqb3 (storage d) sto_annuity_factor s
                    + rho (cap_sto_c_new s)
                      * attribute eqb3 (storage d) sto_inv_cost_c s
                      * attribute eqb3 (storage d) sto_annuity_factor s)
                 (map fst (storage d)))
  /\ rho (costs "Fix")
     == Qsum (map (fun p =>
                     rho (cap_pro p)
                     * attribute eqb4 (process d) pro_fix_cost p)
                  (map fst (process d)))
        + Qsum (map (fun t =>
                       rho (cap_tra t)
                       * attribute eqb4 (transmission d) tra_fix_cost t)
                    (map fst (transmission d)))
        + Qsum (map (fun s =>
                       rho (cap_sto_p s)
                       * attribute eqb3 (storage d) sto_fix_cost_p s
                       + rho (cap_sto_c s)
                         * attribute eqb3 (storage d) sto_fix_cost_c s)
                    (map fst (storage d))).
Proof.
  intros HM Hf.
  destruct (create_model_with_Ok _ _ _ _ _ HM) as [w [_ [Hm _]]].
  split.
  - destruct (cost_constraint_in_solution _ _ _ M rho "Inv" HM Hf)
      as [r [R H]]; [simpl; tauto |].
    pose proof (def_costs_rule_Inv _ _ rho R H) as E.
    rewrite Hm in E. exact E.
  - destruct (cost_constraint_in_solution _ _ _ M rho "Fix" HM Hf)
      as [r [R H]]; [simpl; tauto |].
    pose proof (def_costs_rule_Fix _ _ rho R H) as E.
    rewrite Hm in E. exact E.
Qed.

(** X12: for a horizon whose timesteps are pairwise distinct, in every
    solution the variable cost variable equals the sum over
    modelled timesteps of process output and line input, each * dt *
    variable cost * weight, plus for storages content * variable cost of
    capacity * weight and (input + output) * dt * variable cost of power *
    weight; the fuel cost variable equals the sum over modelled timesteps and
    over the commodity tuples whose commodity is a stock commodity of
    purchase * dt * price * weight; and the objective is the sum of the four
    cost variables. *)
Theorem operating_costs_in_solution (d : data) (ts : list Z) (dt : Q)
  (M : ConcreteModel) (rho : var -> Q) :
  create_model d ts dt = Ok M -> feasible rho M -> NoDup ts ->
  rho (costs "Var")
  == Qsum (map (fun i : Z * pro_tuple =>
                  rho (e_pro_out (fst i) (snd i)) * dt
                  * attribute eqb4 (process d) pro_var_cost (snd i)
                  * m_weight (cm_model M))
               (list_prod (tl ts) (map fst (process d))))
     + Qsum (map (fun i : Z * tra_tuple =>
                    rho (e_tra_in (fst i) (snd i)) * dt
                    * attribute eqb4 (transmission d) tra_var_cost (snd i)
                    * m_weight (cm_model M))
                 (list_prod (tl ts) (map fst (transmission d))))
     + Qsum (map (fun i : Z * sto_tuple =>
                    rho (e_sto_con (fst i) (snd i))
                    * attribute eqb3 (storage d) sto_var_cost_c (snd i)
                    * m_weight (cm_model M)
                    + (rho (e_sto_in (fst i) (snd i))
                       + rho (e_sto_out (fst i) (snd i)))
                      * dt
                      * attribute eqb3 (storage d) sto_var_cost_p (snd i)
                      * m_weight (cm_model M))
                 (list_prod (tl ts) (map fst (storage d))))
  /\ rho (costs "Fuel")
     == Qsum (map (fun i : Z * com_tuple =>
                     rho (e_co_stock (fst i) (snd i)) * dt
                     * attribute eqb3 (commodity d) com_price (snd i)
                     * m_weight (cm_model M))
                  (filter (fun i : Z * com_tuple =>
                             mem String.eqb (snd (fst (snd i)))
                               (commodities_of_type "Stock"
                                  (map fst (commodity d))))
                          (list_prod (tl ts) (map fst (commodity d)))))
  /\ eval rho (cm_obj M)
     == rho (costs "Inv") + rho (costs "Fix") + rho (costs "Var")
        + rho (costs "Fuel").
Proof.
  intros HM Hf _.
  destruct (create_model_with_Ok _ _ _ _ _ HM) as [w [_ [Hm [Ho _]]]].
  split; [| split].
  - destruct (cost_constraint_in_solution _ _ _ M rho "Var" HM Hf)
      as [r [R H]]; [simpl; tauto |].
    pose proof (def_costs_rule_Var _ _ rho R H) as E.
    rewrite Hm in E. simpl in E. rewrite Hm. simpl. exact E.
  - destruct (cost_constraint_in_solution _ _ _ M rho "Fuel" HM Hf)
      as [r [R H]]; [simpl; tauto |].
    pose proof (def_costs_rule_Fuel _ _ rho R H) as E.
    rewrite Hm in E. simpl in E. rewrite Hm. simpl. exact E.
  - rewrite Ho, Hm. unfold obj_rule. simpl. ring.
Qed.

(** ** One constraint per identifier *)

Lemma NoDup_list_prod {A B : Type} (l1 : list A) (l2 : list B) :
  NoDup l1 -> NoDup l2 -> NoDup (list_prod l1 l2).
Proof.
  intros H1 H2. induction H1 as [| x l1 Hx _ IH]; [constructor |].
  simpl. apply NoDup_app.
  - apply NoDup_map_NoDup_ForallPairs; [| exact H2].
    intros a b _ _ E. injection E as ->. reflexivity.
  - exact IH.
  - intros [a b] Ha Hb. apply in_map_iff in Ha.
    destruct Ha as [b' [E _]]. injection E as <- <-.
    apply in_prod_iff in Hb. destruct Hb as [Hb _]. contradiction.
Qed.

Lemma NoDup_timed {T : Type} (name : Z -> T -> constraint_id) (ts : list Z)
  (tuples : list T) :
  (forall t x t' x', name t x = name t' x' -> t = t' /\ x = x') ->
  NoDup ts -> NoDup tuples -> NoDup (timed name ts tuples).
Proof.
  intros Hinj Ht Hx. unfold timed.
  apply NoDup_map_NoDup_ForallPairs; [| apply NoDup_list_prod; assumption].
  intros [t x] [t' x'] _ _ E. simpl in E.
  destruct (Hinj _ _ _ _ E) as [-> ->]. reflexivity.
Qed.

Lemma NoDup_named {T : Type} (name : T -> constraint_id) (tuples : list T) :
  (forall x x', name x = name x' -> x = x') ->
  NoDup tuples -> NoDup (map name tuples).
Proof.
  intros Hinj Hx. apply NoDup_map_NoDup_ForallPairs; [| exact Hx].
  intros x x' _ _ E. exact (Hinj _ _ E).
Qed.

Lemma Constraint_ids (rule : constraint_id -> result rule_result)
  (index : list constraint_id) :
  forall block,
    Constraint rule index = Ok block ->
    (forall id, In id (map fst block) -> In id index)
    /\ (NoDup index -> NoDup (map fst block)).
Proof.
  induction index as [| i rest IH]; intros block H.
  - simpl in H. injection H as <-. split; [intros id [] | intros _; constructor].
  - simpl in H. bind_inv H. bind_inv H. injection H as <-.
    destruct (IH _ Ha0) as [Hsub Hnd].
    destruct a as [| c]; simpl.
    + split; [intros id Hid; right; apply Hsub; exact Hid |].
      intros Hn. inversion Hn; subst. apply Hnd. assumption.
    + split.
      * intros id [<- | Hid]; [left; reflexivity | right; apply Hsub; exact Hid].
      * intros Hn. inversion Hn as [| ? ? Hni Hn']; subst. constructor.
        -- intros Hin. apply Hni. apply Hsub. exact Hin.
        -- apply Hnd. exact Hn'.
Qed.

Lemma NoDup_concat_tagged {A : Type} (tag : A -> nat) (L : list (list A)) :
  forall k0,
    (forall i l, nth_error L i = Some l ->
                 NoDup l /\ forall a, In a l -> tag a = (k0 + i)%nat) ->
    NoDup (List.concat L).
Proof.
  induction L as [| l L IH]; intros k0 H; [constructor |].
  simpl. apply NoDup_app.
  - exact (proj1 (H 0%nat l eq_refl)).
  - apply (IH (S k0)). intros i l' Hi.
    destruct (H (S i) l' Hi) as [Hn Ht]. split; [exact Hn |].
    intros a Ha. rewrite (Ht a Ha). lia.
  - intros a Ha Hin. apply in_concat in Hin.
    destruct Hin as [l' [Hl' Ha']].
    apply In_nth_error in Hl'. destruct Hl' as [i Hi].
    pose proof (proj2 (H 0%nat l eq_refl) a Ha) as T1.
    pose proof (proj2 (H (S i) l' Hi) a Ha') as T2. lia.
Qed.

Lemma sequence_nth {A : Type} (cs : list (result A)) :
  forall rs, sequence cs = Ok rs ->
  forall i r, nth_error rs i = Some r -> nth_error cs i = Some (Ok r).
Proof.
  induction cs as [| c cs IH]; intros rs H i r Hi.
  - simpl in H. injection H as <-. destruct i; discriminate Hi.
  - simpl in H. bind_inv H. bind_inv H. injection H as <-.
    destruct i as [| i]; simpl in Hi |- *.
    + injection Hi as <-. rewrite Ha. reflexivity.
    + exact (IH _ Ha0 i r Hi).
Qed.

(** Each declaration lists identifiers of its own family, without
    repetition when its index sets have none. *)
Lemma declarations_tagged (m : model) :
  NoDup (m_t m) -> NoDup (m_tm m) -> NoDup (m_com_tuples m) ->
  NoDup (m_pro_tuples m) -> NoDup (m_tra_tuples m) ->
  NoDup (m_sto_tuples m) -> NoDup (m_cost_type m) ->
  forall i decl,
    nth_error (declarations m) i = Some decl ->
    NoDup decl /\ forall id, In id decl -> family id = i.
Proof.
  intros Nt Ntm Nc Np Ntr Ns Nct i decl H.
  unfold declarations in H.
  do 26 (destruct i as [| i];
         [ simpl in H; injection H as <-; split;
           [ first
               [ apply NoDup_timed;
                 [intros t x t' x' E; injection E; auto | assumption
                  | assumption]
               | apply NoDup_named;
                 [intros x x' E; injection E; auto | assumption]
               | constructor; [intros [] | constructor] ]
           | intros id Hid;
             first
               [ apply in_timed in Hid;
                 destruct Hid as [t [x [-> _]]]; reflexivity
               | apply in_map_iff in Hid;
                 destruct Hid as [x [<- _]]; reflexivity
               | destruct Hid as [<- | []]; reflexivity ] ]
         | ]).
  simpl in H. destruct i; discriminate H.
Qed.

Lemma nth_error_map_Some {A B : Type} (f : A -> B) (l : list A) (i : nat)
  (y : B) :
  nth_error (map f l) i = Some y -> exists x, nth_error l i = Some x /\ y = f x.
Proof.
  revert i. induction l as [| a l IH]; intros i H.
  - destruct i; discriminate H.
  - destruct i as [| i]; simpl in H |- *.
    + injection H as <-. exists a. split; reflexivity.
    + exact (IH i H).
Qed.

(** X13: when the timesteps of the horizon and the keys of the four entity
    tables are free of repetitions, a model returned by [create_model] holds
    at most one constraint under each constraint name and index. *)
Theorem one_constraint_per_identifier (d : data) (ts : list Z) (dt : Q)
  (M : ConcreteModel) :
  create_model d ts dt = Ok M ->
  NoDup ts -> NoDup (map fst (commodity d)) -> NoDup (map fst (process d)) ->
  NoDup (map fst (transmission d)) -> NoDup (map fst (storage d)) ->
  NoDup (map fst (cm_constraints M)).
Proof.
  intros HM Nt Nc Np Ntr Ns.
  unfold create_model, create_model_with in HM.
  apply bind_Ok in HM. destruct HM as [w [Hw HM]].
  apply bind_Ok in HM. destruct HM as [blocks [Hb HM]].
  injection HM as <-. cbn [cm_constraints].
  rewrite concat_map.
  apply (NoDup_concat_tagged family _ 0%nat).
  intros i l Hi.
  apply nth_error_map_Some in Hi. destruct Hi as [b [Hi ->]].
  pose proof (sequence_nth _ _ Hb i b Hi) as Hc.
  apply nth_error_map_Some in Hc. destruct Hc as [decl [Hd Hc]].
  symmetry in Hc.
  destruct (Constraint_ids _ _ _ Hc) as [Hsub Hnd].
  destruct (declarations_tagged (declare_sets cost_types d ts dt w))
    with (i := i) (decl := decl) as [Hn Htag]; simpl; try assumption.
  - destruct ts as [| t0 rest]; [constructor |].
    inversion Nt; assumption.
  - unfold cost_types. repeat constructor; simpl; intuition discriminate.
  - split; [apply Hnd; exact Hn |].
    intros id Hid. simpl. apply Htag. apply Hsub. exact Hid.
Qed.

Lemma one_constraint_per_identifier_witness :
  exists M,
    create_model Example.system Example.horizon 1 = Ok M
    /\ NoDup (map fst (cm_constraints M)).
Proof.
  destruct (create_model_total Example.system Example.horizon 1) as [M HM];
    [vm_compute; reflexivity |].
  exists M. split; [exact HM |].
  apply (one_constraint_per_identifier _ _ _ M HM);
    simpl; repeat constructor; simpl; intuition discriminate.
Defined.

Lemma capacity_costs_in_solution_witness :
  exists M,
    create_model Example.system Example.horizon 1 = Ok M
    /\ feasible example_solution M
    /\ example_solution (costs "Fix")
         == Qsum (map (fun p =>
                         example_solution (cap_pro p)
                         * attribute eqb4 (process Example.system)
                             pro_fix_cost p)
                      (map fst (process Example.system)))
            + Qsum (map (fun t =>
                           example_solution (cap_tra t)
                           * attribute eqb4 (transmission Example.system)
                               tra_fix_cost t)
                        (map fst (transmission Example.system)))
            + Qsum (map (fun s =>
                           example_solution (cap_sto_p s)
                           * attribute eqb3 (storage Example.system)
                               sto_fix_cost_p s
                           + example_solution (cap_sto_c s)
                             * attribute eqb3 (storage Example.system)
                                 sto_fix_cost_c s)
                        (map fst (storage Example.system))).
Proof.
  destruct example_solution_feasible as [M [HM Hf]].
  exists M. split; [exact HM |]. split; [exact Hf |].
  exact (proj2 (capacity_costs_in_solution _ _ _ M example_solution HM Hf)).
Defined.

Lemma operating_costs_in_solution_witness :
  exists M,
    create_model Example.system Example.horizon 1 = Ok M
    /\ feasible example_solution M
    /\ eval example_solution (cm_obj M)
         == example_solution (costs "Inv") + example_solution (costs "Fix") + example_solution (costs "Var")
            + example_solution (costs "Fuel").
Proof.
  destruct example_solution_feasible as [M [HM Hf]].
  exists M. split; [exact HM |]. split; [exact Hf |].
  apply (operating_costs_in_solution _ _ _ M example_solution HM Hf).
  repeat constructor; simpl; intuition discriminate.
Defined.

(** * Further properties of the helper functions *)

(** ** Column labels *)

Lemma split_dot_nonempty (s : string) : split_dot s <> [].
Proof.
  induction s as [| c rest IH]; simpl; [discriminate |].
  destruct (Ascii.eqb c "."); [discriminate |].
  destruct (split_dot rest); discriminate.
Qed.

Lemma concat_cons_cons (sep x y : string) (l : list string) :
  String.concat sep (x :: y :: l) = (x ++ sep ++ String.concat sep (y :: l))%string.
Proof. reflexivity. Qed.

Lemma split_dot_join (s : string) : String.concat "." (split_dot s) = s.
Proof.
  induction s as [| c rest IH]; [reflexivity |].
  simpl split_dot. destruct (Ascii.eqb c ".") eqn:E.
  - apply Ascii.eqb_eq in E. subst c.
    destruct (split_dot rest) as [| p ps] eqn:Es;
      [exfalso; exact (split_dot_nonempty rest Es) |].
    rewrite concat_cons_cons, IH. reflexivity.
  - destruct (split_dot rest) as [| p ps] eqn:Es;
      [exfalso; exact (split_dot_nonempty rest Es) |].
    destruct ps as [| q qs].
    + simpl in IH |- *. rewrite IH. reflexivity.
    + rewrite concat_cons_cons in IH |- *.
      change (String c p ++ "." ++ String.concat "." (q :: qs))%string
        with (String c (p ++ "." ++ String.concat "." (q :: qs)))%string.
      rewrite IH. reflexivity.
Qed.

Lemma split_dot_pieces (s : string) :
  Forall (fun piece => dot_free piece = true) (split_dot s).
Proof.
  induction s as [| c rest IH]; simpl; [repeat constructor |].
  destruct (Ascii.eqb c ".") eqn:E.
  - constructor; [reflexivity | exact IH].
  - destruct (split_dot rest) as [| p ps]; [repeat constructor; simpl |].
    + rewrite E. reflexivity.
    + inversion IH; subst. constructor; [| assumption].
      simpl. rewrite E. simpl. assumption.
Qed.

Lemma split_dot_dot_free (s : string) :
  dot_free s = true -> split_dot s = [s].
Proof.
  induction s as [| c rest IH]; simpl; [reflexivity |].
  intros H. apply andb_true_iff in H. destruct H as [Hc Hr].
  destruct (Ascii.eqb c "."); [discriminate Hc |].
  rewrite (IH Hr). reflexivity.
Qed.

Lemma split_dot_app (a b : string) :
  dot_free a = true ->
  split_dot (a ++ String "." b) = a :: split_dot b.
Proof.
  induction a as [| c rest IH]; simpl; [reflexivity |].
  intros H. apply andb_true_iff in H. destruct H as [Hc Hr].
  destruct (Ascii.eqb c "."); [discriminate Hc |].
  rewrite (IH Hr). reflexivity.
Qed.

Lemma split_columns_Ok (columns : list string) (sep : string) :
  columns <> [] -> split_columns columns sep = Ok (map split_dot columns).
Proof.
  intros H. unfold split_columns, column_tuples.
  destruct columns as [| c rest]; [contradiction | reflexivity].
Qed.

(** X15: [split_columns] raises [TypeError] on an empty list of labels; on
    any other list it splits every label at its dots, whatever separator it
    is given: joining the pieces of a label with dots gives the label back,
    no piece contains a dot and every label yields at least one piece.  A
    label [Site.Commodity] whose two names are free of dots becomes the pair
    of the two names, while a name with a dot in it gives more than two
    pieces. *)
Theorem split_columns_round_trip (columns : list string) (sep : string) :
  (columns = [] -> split_columns columns sep = Raise TypeError)
  /\ (columns <> [] ->
      exists tuples,
        split_columns columns sep = Ok tuples
        /\ map (String.concat ".") tuples = columns
        /\ Forall (Forall (fun piece => dot_free piece = true)) tuples
        /\ Forall (fun pieces => pieces <> []) tuples)
  /\ (forall sit com,
         dot_free sit = true -> dot_free com = true ->
         split_columns [(sit ++ "." ++ com)%string] sep = Ok [[sit; com]])
  /\ (forall a b com,
         dot_free a = true -> dot_free b = true -> dot_free com = true ->
         split_columns [(a ++ "." ++ b ++ "." ++ com)%string] sep
         = Ok [[a; b; com]]).
Proof.
  split; [| split; [| split]].
  - intros ->. reflexivity.
  - intros Hne. exists (map split_dot columns).
    split; [exact (split_columns_Ok columns sep Hne) |].
    split; [| split].
    + rewrite map_map. rewrite <- (map_id columns) at 2.
      apply map_ext. exact split_dot_join.
    + apply Forall_map. apply Forall_forall. intros s _.
      apply split_dot_pieces.
    + apply Forall_map. apply Forall_forall. intros s _.
      apply split_dot_nonempty.
  - intros sit com Hs Hc.
    rewrite split_columns_Ok by discriminate. simpl map.
    change ("." ++ com)%string with (String "." com).
    rewrite (split_dot_app sit com Hs), (split_dot_dot_free com Hc).
    reflexivity.
  - intros a b com Ha Hb Hc.
    rewrite split_columns_Ok by discriminate. simpl map.
    change ("." ++ b ++ "." ++ com)%string
      with (String "." (b ++ String "." com)).
    rewrite (split_dot_app a _ Ha), (split_dot_app b com Hb),
      (split_dot_dot_free com Hc).
    reflexivity.
Qed.

Lemma split_columns_round_trip_witness :
  split_columns ["DE.Elec"] "." = Ok [["DE"; "Elec"]]
  /\ exists tuples,
       split_columns ["DE.Elec"; "MA.Elec"; "NO.Wind"] "." = Ok tuples
       /\ map (String.concat ".") tuples = ["DE.Elec"; "MA.Elec"; "NO.Wind"].
Proof.
  split.
  - apply (proj1 (proj2 (proj2
             (split_columns_round_trip ["DE.Elec"] ".")))
             "DE" "Elec"); reflexivity.
  - destruct (proj1 (proj2
               (split_columns_round_trip ["DE.Elec"; "MA.Elec"; "NO.Wind"]
                  "."))) as [tuples [H1 [H2 _]]]; [discriminate |].
    exists tuples. split; [exact H1 | exact H2].
Defined.

(** ** Onset labels *)

Lemma append_underscore_inj (p x : string) :
  (p ++ "_")%string = (x ++ "_")%string -> p = x.
Proof.
  revert x. induction p as [| c p IH]; intros [| d x] E; simpl in E.
  - reflexivity.
  - injection E as _ E. destruct x; discriminate E.
  - injection E as _ E. destruct p; discriminate E.
  - injection E as -> E. rewrite (IH x E). reflexivity.
Qed.

Lemma rename_duplicates_app (todo done : list string) :
  exists out,
    rename_duplicates done todo = (done ++ out)%list
    /\ Forall2 (fun label o => o = label \/ o = (label ++ "_")%string)
               todo out.
Proof.
  revert done. induction todo as [| y rest IH]; intros done; simpl.
  - exists []. rewrite app_nil_r. split; constructor.
  - destruct (IH (done ++ [if mem String.eqb y done
                           then (y ++ "_")%string else y])%list)
      as [out [E F]].
    eexists (_ :: out). rewrite E, <- app_assoc. split; [reflexivity |].
    constructor; [| exact F].
    destruct (mem String.eqb y done); [right | left]; reflexivity.
Qed.

Lemma rename_duplicates_NoDup_input (todo done : list string) :
  NoDup (done ++ todo) ->
  rename_duplicates done todo = (done ++ todo)%list.
Proof.
  revert done. induction todo as [| y rest IH]; intros done N; simpl.
  - rewrite app_nil_r. reflexivity.
  - destruct (mem String.eqb y done) eqn:M.
    + apply (mem_In String.eqb String.eqb_eq) in M.
      apply NoDup_remove_2 in N. exfalso. apply N.
      apply in_or_app. left. exact M.
    + rewrite IH; rewrite <- app_assoc; [reflexivity | exact N].
Qed.

Lemma Forall2_renamed_In (l out : list string) :
  Forall2 (fun label o => o = label \/ o = (label ++ "_")%string) l out ->
  forall o, In o out ->
    exists label, In label l /\ (o = label \/ o = (label ++ "_")%string).
Proof.
  induction 1 as [| x y l out R _ IH]; intros o Hin; [destruct Hin |].
  destruct Hin as [<- | Hin].
  - exists x. split; [left; reflexivity | exact R].
  - destruct (IH o Hin) as [label [Hl Ho]].
    exists label. split; [right; exact Hl | exact Ho].
Qed.

Lemma rename_duplicates_count (todo P done : list string) :
  (forall x, In x (P ++ todo) -> forall z, x <> (z ++ "_")%string) ->
  (forall x, (forall z, x <> (z ++ "_")%string) ->
     count_occ string_dec done x = Nat.min 1 (count_occ string_dec P x)
     /\ count_occ string_dec done (x ++ "_")
        = pred (count_occ string_dec P x)) ->
  forall x, (forall z, x <> (z ++ "_")%string) ->
    count_occ string_dec (rename_duplicates done todo) x
    = Nat.min 1 (count_occ string_dec (P ++ todo) x)
    /\ count_occ string_dec (rename_duplicates done todo) (x ++ "_")
       = pred (count_occ string_dec (P ++ todo) x).
Proof.
  revert P done. induction todo as [| y rest IH]; intros P done B J.
  - simpl. rewrite app_nil_r. exact J.
  - simpl rename_duplicates.
    replace (P ++ y :: rest)%list with ((P ++ [y]) ++ rest)%list in *
      by (rewrite <- app_assoc; reflexivity).
    apply IH; [exact B |].
    intros x Hx.
    assert (forall z, y <> (z ++ "_")%string) as Hy.
    { apply B. apply in_or_app. left. apply in_or_app. right.
      left. reflexivity. }
    destruct (J x Hx) as [J1 J2]. destruct (J y Hy) as [Jy _].
    rewrite !count_occ_app. cbn [count_occ].
    destruct (mem String.eqb y done) eqn:M.
    + apply (mem_In String.eqb String.eqb_eq) in M.
      apply (count_occ_In string_dec) in M.
      destruct (string_dec (y ++ "_") x) as [E | _];
        [exfalso; exact (Hx y (eq_sym E)) |].
      destruct (string_dec (y ++ "_") (x ++ "_")) as [E | N].
      * apply append_underscore_inj in E. subst y.
        destruct (string_dec x x) as [_ | N]; [| contradiction].
        lia.
      * destruct (string_dec y x) as [E | _];
          [exfalso; apply N; rewrite E; reflexivity |].
        lia.
    + assert (~ In y done) as M'.
      { intros Hin. apply (mem_In String.eqb String.eqb_eq) in Hin.
        congruence. }
      apply (count_occ_not_In string_dec) in M'.
      destruct (string_dec y (x ++ "_")) as [E | _];
        [exfalso; exact (Hy x E) |].
      destruct (string_dec y x) as [E | _]; [subst y |]; lia.
Qed.

(** X16: the loop of [get_entity] that renames repeated onset labels keeps
    the number and the order of the labels, leaves the first one alone and
    changes a label by at most one appended underscore; labels that are
    already distinct are returned as they are.  When no label ends with an
    underscore, the labels returned are distinct exactly when no label
    occurs more than twice: a label that occurs three times leaves two equal
    labels behind. *)
Theorem unique_labels_renaming (labels : list string) :
  List.length (unique_labels labels) = List.length labels
  /\ hd_error (unique_labels labels) = hd_error labels
  /\ Forall2 (fun label out => out = label \/ out = (label ++ "_")%string)
             labels (unique_labels labels)
  /\ (NoDup labels -> unique_labels labels = labels)
  /\ ((forall label, In label labels ->
         forall z, label <> (z ++ "_")%string) ->
      (NoDup (unique_labels labels)
       <-> forall label, (count_occ string_dec labels label <= 2)%nat)).
Proof.
  unfold unique_labels.
  destruct (rename_duplicates_app labels []) as [out [E F]].
  simpl in E.
  split; [| split; [| split; [| split]]].
  - rewrite E. symmetry. exact (Forall2_length F).
  - destruct labels as [| y rest]; [reflexivity |].
    change (rename_duplicates [] (y :: rest))
      with (rename_duplicates [y] rest).
    destruct (rename_duplicates_app rest [y]) as [o [E' _]].
    rewrite E'. reflexivity.
  - rewrite E. exact F.
  - intros N. exact (rename_duplicates_NoDup_input labels [] N).
  - intros B.
    assert (forall x, (forall z, x <> (z ++ "_")%string) ->
              count_occ string_dec (rename_duplicates [] labels) x
              = Nat.min 1 (count_occ string_dec labels x)
              /\ count_occ string_dec (rename_duplicates [] labels)
                   (x ++ "_")
                 = pred (count_occ string_dec labels x)) as C.
    { apply (rename_duplicates_count labels [] []); [exact B |].
      intros x _. split; reflexivity. }
    rewrite (NoDup_count_occ string_dec). split.
    + intros N label.
      destruct (in_dec string_dec label labels) as [Hin | Hout].
      * destruct (C label (B label Hin)) as [_ C2].
        specialize (N (label ++ "_")%string). lia.
      * apply (count_occ_not_In string_dec) in Hout. lia.
    + intros N o.
      destruct (in_dec string_dec o (rename_duplicates [] labels))
        as [Hin | Hout].
      * rewrite E in Hin.
        destruct (Forall2_renamed_In labels out F o Hin)
          as [label [Hl [-> | ->]]];
          destruct (C label (B label Hl)) as [C1 C2];
          specialize (N label); lia.
      * apply (count_occ_not_In string_dec) in Hout. lia.
Qed.

Lemma unique_labels_renaming_witness :
  unique_labels ["sit"; "sit"; "com"] = ["sit"; "sit_"; "com"]
  /\ NoDup (unique_labels ["sit"; "sit"; "com"])
  /\ unique_labels ["t"; "sit"; "com"] = ["t"; "sit"; "com"].
Proof.
  split; [reflexivity | split].
  - apply (proj2 (proj2 (proj2 (proj2
             (unique_labels_renaming ["sit"; "sit"; "com"]))))).
    + intros label [<- | [<- | [<- | []]]] z;
        destruct z as [| a [| b [| c [| d z]]]]; discriminate.
    + intros label. cbn [count_occ].
      repeat match goal with
             | |- context [string_dec ?a ?b] => destruct (string_dec a b)
             end; first [congruence | lia].
  - apply (proj1 (proj2 (proj2 (proj2
             (unique_labels_renaming ["t"; "sit"; "com"]))))).
    repeat constructor; simpl; intuition discriminate.
Defined.

(** ** Ticks of the time axis *)

Lemma slice_from_length {A : Type} (step wait : nat) (l : list A) :
  (0 < step)%nat -> (wait < step)%nat ->
  slice_from step wait l = []
  \/ (List.length (slice_from step wait l) * step + wait
      <= List.length l + (step - 1))%nat.
Proof.
  intros Hs. revert wait. induction l as [| x rest IH]; intros wait Hw.
  - left. reflexivity.
  - destruct wait as [| wait']; cbn [slice_from List.length].
    + right. destruct (IH (step - 1)%nat) as [E | L]; [lia | |].
      * rewrite E. cbn [List.length]. lia.
      * nia.
    + destruct (IH wait') as [E | L]; [lia | left; exact E | right; lia].
Qed.

Lemma slice_from_incl {A : Type} (step wait : nat) (l : list A) :
  incl (slice_from step wait l) l.
Proof.
  revert wait. induction l as [| x rest IH]; intros wait; simpl.
  - apply incl_refl.
  - destruct wait as [| wait'].
    + apply incl_cons; [left; reflexivity |].
      apply incl_tl. apply IH.
    + apply incl_tl. apply IH.
Qed.

Lemma slice_step_nth {A : Type} (step : nat) (l : list A) (k : nat) :
  (0 < step)%nat ->
  nth_error (slice_step l step) k = nth_error l (k * step).
Proof.
  intros Hs. unfold slice_step.
  assert (forall (l : list A) wait k, (wait < step)%nat ->
            nth_error (slice_from step wait l) k
            = nth_error l (k * step + wait)) as G.
  { clear l k. induction l as [| x rest IH]; intros wait k Hw.
    - cbn [slice_from]. rewrite !nth_error_nil. reflexivity.
    - destruct wait as [| wait']; cbn [slice_from].
      + destruct k as [| k].
        * reflexivity.
        * cbn [nth_error]. rewrite IH by lia.
          replace (S k * step + 0)%nat with (S (k * step + (step - 1)))
            by lia.
          reflexivity.
      + rewrite IH by lia.
        replace (k * step + S wait')%nat with (S (k * step + wait'))
          by lia.
        reflexivity. }
  rewrite (G l 0%nat k Hs). f_equal. lia.
Qed.

(** X17: the ticks that [plot] puts on the time axis are every
    [steps_between_ticks]-th timestep, starting with the first one: tick
    number [k] is timestep number [k * steps_between_ticks].  Every tick is
    one of the timesteps, and for up to [26 * 168 * 4] timesteps (two years
    of hours) there are at most 26 ticks; a horizon that is not empty has at
    least one. *)
Theorem xticks_spacing (timesteps : list Z) :
  (forall k, nth_error (xticks timesteps) k
             = nth_error timesteps (k * steps_between_ticks timesteps))
  /\ incl (xticks timesteps) timesteps
  /\ hd_error (xticks timesteps) = hd_error timesteps
  /\ ((List.length timesteps <= 26 * (168 * 4))%nat ->
      (List.length (xticks timesteps) <= 26)%nat).
Proof.
  assert (0 < steps_between_ticks timesteps)%nat as Hs.
  { unfold steps_between_ticks.
    repeat match goal with
           | |- context [(?a <? ?b)%nat] => destruct (a <? b)%nat
           end; lia. }
  split; [| split; [| split]].
  - intros k. apply slice_step_nth. exact Hs.
  - apply slice_from_incl.
  - destruct timesteps as [| t rest]; reflexivity.
  - intros Hn. unfold xticks, slice_step.
    destruct (slice_from_length (steps_between_ticks timesteps) 0 timesteps
                Hs Hs) as [E | L]; [rewrite E; cbn [List.length]; lia |].
    revert L Hs. unfold steps_between_ticks at 2 3 4.
    generalize (List.length
                  (slice_from (steps_between_ticks timesteps) 0 timesteps)).
    intros c.
    destruct (26 * 168 <? List.length timesteps)%nat eqn:E1;
      [apply Nat.ltb_lt in E1; lia | apply Nat.ltb_ge in E1].
    destruct (3 * 168 <? List.length timesteps)%nat eqn:E2;
      [apply Nat.ltb_lt in E2; lia | apply Nat.ltb_ge in E2].
    destruct (2 * 24 <? List.length timesteps)%nat eqn:E3;
      [apply Nat.ltb_lt in E3; lia | apply Nat.ltb_ge in E3].
    destruct (24 <? List.length timesteps)%nat eqn:E4;
      [apply Nat.ltb_lt in E4; lia | apply Nat.ltb_ge in E4].
    lia.
Qed.

Lemma xticks_spacing_witness :
  (List.length (xticks (map Z.of_nat (seq 1 24))) <= 26)%nat.
Proof.
  apply (proj2 (proj2 (proj2 (xticks_spacing (map Z.of_nat (seq 1 24)))))).
  rewrite length_map, length_seq. lia.
Defined.
